(** * The task-result cache of the tasks runner

    A shallow embedding of [packages/workspace/src/tasks-runner/cache.ts]
    (class [Cache]) and the properties of its local store, its output-hash
    records and its composition with a remote cache.

    Paths are resolved component lists, the file system is a finite map
    from paths to nodes, and every method of the class is a computation in
    a state-and-error monad that also logs the file-system and remote calls
    it makes, in order. *)

From Stdlib Require Import Ascii String ZArith QArith Qreduction Qround.
From Stdlib Require Import DecimalString DecimalZ DecimalPos.
From stdpp Require Import gmap strings list.

Local Open Scope string_scope.
Local Open Scope list_scope.

(** ** Paths ([path] module of Node, POSIX flavour) *)

Module Path.

(** A resolved absolute path: the names from the root down. *)
Abbreviation path := (list string).

(** [sep] on POSIX. *)
Definition sep : ascii := "/"%char.

(** [s.split(sep)]: the pieces between separators; never empty. *)
Fixpoint split (c : ascii) (s : string) : list string :=
  match s with
  | EmptyString => [EmptyString]
  | String a s' =>
      if Ascii.eqb a c then EmptyString :: split c s'
      else match split c s' with
           | h :: t => String a h :: t
           | [] => [String a EmptyString]
           end
  end.

(** [pieces.join(d)]. *)
Definition join_with (d : string) (pieces : list string) : string :=
  String.concat d pieces.

(** One segment applied to a resolved path, as [path.normalize] does:
    empty and [.] segments vanish, [..] drops the last name (and stays at
    the root). *)
Definition step (acc : path) (seg : string) : path :=
  if String.eqb seg "" then acc
  else if String.eqb seg "." then acc
  else if String.eqb seg ".." then removelast acc
  else acc ++ [seg].

(** [join(base, s)] for an absolute, resolved [base]: the place that the
    result names.  The string Node returns keeps a separator that ends
    [s]; [ends_sep s] tells whether there is one, and the file-system calls
    below take it along with the place. *)
Definition join (base : path) (s : string) : path :=
  fold_left step (split sep s) base.

Fixpoint ends_sep (s : string) : bool :=
  match s with
  | EmptyString => false
  | String a EmptyString => Ascii.eqb a sep
  | String _ s' => ends_sep s'
  end.

(** [resolve(base, s)]: an absolute [s] restarts from the root. *)
Definition resolve (base : path) (s : string) : path :=
  match s with
  | String a _ => if Ascii.eqb a sep then join [] s else join base s
  | EmptyString => base
  end.

(** [dirname(p)] of a resolved path. *)
Definition dirname (p : path) : path := removelast p.

(** The names a relative path adds below its base, when it never climbs
    above the base: [None] as soon as a [..] would leave it. *)
Definition step_rel (acc : option path) (seg : string) : option path :=
  match acc with
  | None => None
  | Some r =>
      if String.eqb seg "" then Some r
      else if String.eqb seg "." then Some r
      else if String.eqb seg ".." then
        match r with [] => None | _ => Some (removelast r) end
      else Some (r ++ [seg])
  end.

Definition relpath (s : string) : option path :=
  fold_left step_rel (split sep s) (Some []).

(** A relative path that stays below the directory it is joined to. *)
Definition confined (s : string) : Prop := is_Some (relpath s).

(** A single plain file name, as a path-safe hash is: splitting at the
    separator leaves it whole, and it is none of the special names. *)
Definition plain_name (s : string) : Prop :=
  split sep s = [s] ∧ s ≠ "" ∧ s ≠ "." ∧ s ≠ "..".

(** [q] minus its prefix [p]. *)
Fixpoint strip (p q : path) : option path :=
  match p, q with
  | [], _ => Some q
  | a :: p', b :: q' => if String.eqb a b then strip p' q' else None
  | _ :: _, [] => None
  end.

(** Neither path lies at or below the other. *)
Definition apart (p q : path) : Prop :=
  ¬ p `prefix_of` q ∧ ¬ q `prefix_of` p.

End Path.
Import Path.

(** ** JavaScript numbers: [Number(s)] and [n.toString()]

    Strings are sequences of characters with code below 256.  A Number is
    [NaN], an infinity or a finite double, kept as the rational it denotes;
    [-0] is not told apart from [0].  [Number(s)] rounds the value the text
    denotes to the nearest double, ties to even, and [n.toString()] gives
    the shortest decimal that reads back as [n]. *)

Module JS.

Local Open Scope Z_scope.

Inductive number : Type :=
| NaN
| Infinity (negative : bool)
| Num (q : Q).

(** WhiteSpace and LineTerminator code points below 256. *)
Definition is_space (a : ascii) : bool :=
  let n := N_of_ascii a in
  ((9 <=? n) && (n <=? 13) || (n =? 32) || (n =? 160))%N.

Fixpoint trim_left (s : string) : string :=
  match s with
  | String a s' => if is_space a then trim_left s' else s
  | EmptyString => EmptyString
  end.

Fixpoint trim_right (s : string) : string :=
  match s with
  | EmptyString => EmptyString
  | String a s' =>
      match trim_right s' with
      | EmptyString => if is_space a then EmptyString else String a EmptyString
      | t => String a t
      end
  end.

Definition trim (s : string) : string := trim_right (trim_left s).

(** The text before the first character satisfying [p], and the text
    after it when there is one. *)
Fixpoint break (p : ascii -> bool) (s : string) : string * option string :=
  match s with
  | EmptyString => (EmptyString, None)
  | String a s' =>
      if p a then (EmptyString, Some s')
      else let '(b, r) := break p s' in (String a b, r)
  end.

(** DecimalDigits: one or more of [0]..[9]. *)
Definition decimal_digits (s : string) : option Z :=
  match s with
  | EmptyString => None
  | _ => option_map Z.of_uint (NilEmpty.uint_of_string s)
  end.

Definition digit_value (a : ascii) : option Z :=
  let n := Z.of_N (N_of_ascii a) in
  if (48 <=? n) && (n <=? 57) then Some (n - 48)
  else if (97 <=? n) && (n <=? 102) then Some (n - 87)
  else if (65 <=? n) && (n <=? 70) then Some (n - 55)
  else None.

Fixpoint radix_acc (b : Z) (s : string) (acc : Z) : option Z :=
  match s with
  | EmptyString => Some acc
  | String a s' =>
      match digit_value a with
      | Some d => if d <? b then radix_acc b s' (acc * b + d) else None
      | None => None
      end
  end.

(** The digits of a [0x], [0o] or [0b] literal: one or more. *)
Definition radix_digits (b : Z) (s : string) : number :=
  match s with
  | EmptyString => NaN
  | _ => match radix_acc b s 0 with
         | Some v => Num (inject_Z v)
         | None => NaN
         end
  end.

(** NonDecimalIntegerLiteral; [None] when [s] does not start as one. *)
Definition non_decimal (s : string) : option number :=
  match s with
  | String z (String x ds) =>
      if negb (Ascii.eqb z "0") then None
      else if Ascii.eqb x "x" || Ascii.eqb x "X" then Some (radix_digits 16 ds)
      else if Ascii.eqb x "o" || Ascii.eqb x "O" then Some (radix_digits 8 ds)
      else if Ascii.eqb x "b" || Ascii.eqb x "B" then Some (radix_digits 2 ds)
      else None
  | _ => None
  end.

Definition is_exp (a : ascii) : bool := Ascii.eqb a "e" || Ascii.eqb a "E".
Definition is_dot (a : ascii) : bool := Ascii.eqb a ".".

(** An optional sign: whether it is [-], and the text after it. *)
Definition sign (s : string) : bool * string :=
  match s with
  | String a u =>
      if Ascii.eqb a "+" then (false, u)
      else if Ascii.eqb a "-" then (true, u)
      else (false, s)
  | EmptyString => (false, s)
  end.

(** SignedInteger of an ExponentPart. *)
Definition signed_integer (s : string) : option Z :=
  let '(neg, u) := sign s in
  option_map (fun n => if neg : bool then - n else n) (decimal_digits u).

(** [m * 10^k]. *)
Definition scale (m k : Z) : Q :=
  if 0 <=? k then inject_Z (m * 10 ^ k)
  else Qred (Qmake m (Z.to_pos (10 ^ (- k)))).

(** StrUnsignedDecimalLiteral other than [Infinity]:
    [digits . digits? exp?], [. digits exp?] or [digits exp?]. *)
Definition unsigned_decimal (s : string) : option Q :=
  let '(mant, ex) := break is_exp s in
  let '(ip, fp) := break is_dot mant in
  match (match ex with None => Some 0%Z | Some x => signed_integer x end) with
  | None => None
  | Some e =>
      match fp with
      | None => option_map (fun m => scale m e) (decimal_digits ip)
      | Some f =>
          match NilEmpty.uint_of_string ip, NilEmpty.uint_of_string f with
          | Some _, Some _ =>
              option_map
                (fun m => scale m (e - Z.of_nat (String.length f)))
                (decimal_digits (ip +:+ f))
          | _, _ => None
          end
      end
  end.

(** StrDecimalLiteral: an optional sign before the unsigned literal. *)
Definition signed_decimal (s : string) : number :=
  let '(neg, u) := sign s in
  if String.eqb u "Infinity" then Infinity neg
  else match unsigned_decimal u with
       | Some q => Num (if neg : bool then Qopp q else q)
       | None => NaN
       end.

(** [n / d] rounded to the nearest integer, ties to the even one, for
    [d > 0]. *)
Definition half_even (n d : Z) : Z :=
  let q := n / d in
  let r := n mod d in
  if 2 * r <? d then q
  else if d <? 2 * r then q + 1
  else if Z.even q then q else q + 1.

(** The [l] with [2^l <= a / b < 2^(l+1)], for [a > 0]. *)
Definition floor_log2 (a : Z) (b : positive) : Z :=
  let l := Z.log2 a - Z.log2 (Zpos b) in
  if (if 0 <=? l then Zpos b * 2 ^ l <=? a else Zpos b <=? a * 2 ^ (- l))
  then l else l - 1.

(** The double nearest to [a / b], for [a > 0]: a multiple [m * 2^e] of
    the unit in the last of 53 places, that unit no finer than [2^-1074];
    from [2^1024] on, the result is [Infinity]. *)
Definition round_pos (a : Z) (b : positive) : number :=
  let e := Z.max (floor_log2 a b - 52) (- 1074) in
  let m := if 0 <=? e then half_even a (Zpos b * 2 ^ e)
           else half_even (a * 2 ^ (- e)) (Zpos b) in
  if 2 ^ 1024 <=? m * 2 ^ e then Infinity false
  else Num (if 0 <=? e then inject_Z (m * 2 ^ e)
            else Qred (Qmake m (Z.to_pos (2 ^ (- e))))).

Definition negate (x : number) : number :=
  match x with
  | NaN => NaN
  | Infinity neg => Infinity (negb neg)
  | Num q => Num (Qopp q)
  end.

(** The Number value for a rational: round to nearest, ties to even. *)
Definition round (q : Q) : number :=
  match Qnum q with
  | 0 => Num 0
  | Zpos a => round_pos (Zpos a) (Qden q)
  | Zneg a => negate (round_pos (Zpos a) (Qden q))
  end.

Definition round_value (x : number) : number :=
  match x with
  | Num q => round q
  | _ => x
  end.

(** [Number(s)], the StringToNumber conversion: never throws.  The value
    the literal denotes is rounded from its exact digits. *)
Definition Number (s : string) : number :=
  match trim s with
  | EmptyString => Num 0
  | t => round_value (match non_decimal t with
                      | Some v => v
                      | None => signed_decimal t
                      end)
  end.

(** The decimal digits of a natural number. *)
Definition digits (n : Z) : string :=
  NilZero.string_of_uint (N.to_uint (Z.to_N n)).

Fixpoint zeros (n : nat) : string :=
  match n with
  | O => EmptyString
  | S n' => String "0" (zeros n')
  end.

(** The [n] with [10^(n-1) <= q < 10^n], for [q > 0]: the number of digits
    of the integer part or, below 1, minus the number of zeros after the
    point. *)
Fixpoint exponent_below (fuel : nat) (q : Q) (n : Z) : Z :=
  match fuel with
  | O => n
  | S fuel' =>
      if Qle_bool (1 # 10) q then n
      else exponent_below fuel' (Qred (q * 10)) (n - 1)
  end.

Definition decimal_exponent (q : Q) : Z :=
  if Qle_bool 1 q then Z.of_nat (String.length (digits (Qfloor q)))
  else exponent_below 400 q 0.

Definition is_value (x : number) (q : Q) : bool :=
  match x with
  | Num p => Qeq_bool p q
  | _ => false
  end.

(** The decimals [s * 10^(n-k)] of [k] digits that read back as the double
    [q]: of the two next to [q], the one that does; when both do, the
    nearer one, the even one at a tie.  Rounding [9...9] up gives the one
    digit [1] at the next exponent. *)
Definition shortest_at (q : Q) (n k : Z) : option (Z * Z) :=
  let u := Qred (q / scale 1 (n - k)) in
  let lo := Qfloor u in
  let hi := lo + 1 in
  let fits s := is_value (round (scale s (n - k))) q in
  let pick s := if s =? 10 ^ k then (10 ^ (k - 1), n + 1) else (s, n) in
  match fits lo, fits hi with
  | true, true =>
      match Qcompare (u - inject_Z lo) (inject_Z hi - u) with
      | Lt => Some (pick lo)
      | Gt => Some (pick hi)
      | Eq => Some (pick (if Z.even lo then lo else hi))
      end
  | true, false => Some (pick lo)
  | false, true => Some (pick hi)
  | false, false => None
  end.

(** The least number of digits that will do; a double never needs more
    than 17. *)
Fixpoint shortest (fuel : nat) (q : Q) (n k : Z) : Z * Z :=
  match fuel with
  | O => (Qfloor (q / scale 1 (n - k)), n)
  | S fuel' =>
      match shortest_at q n k with
      | Some r => r
      | None => shortest fuel' q n (k + 1)
      end
  end.

Definition substring (from len : Z) (s : string) : string :=
  String.substring (Z.to_nat from) (Z.to_nat len) s.

(** The digits [s] with the point after the first [n] of them: plain
    digits up to [10^21], a fraction down to [10^-7], else the exponent
    form. *)
Definition format (s n : Z) : string :=
  let ds := digits s in
  let k := Z.of_nat (String.length ds) in
  if (k <=? n) && (n <=? 21) then ds +:+ zeros (Z.to_nat (n - k))
  else if (0 <? n) && (n <=? 21) then
    substring 0 n ds +:+ "." +:+ substring n (k - n) ds
  else if (- 6 <? n) && (n <=? 0) then
    "0." +:+ zeros (Z.to_nat (- n)) +:+ ds
  else
    let e := n - 1 in
    let exponent := (if e <? 0 then "-" else "+") +:+ digits (Z.abs e) in
    if k =? 1 then ds +:+ "e" +:+ exponent
    else substring 0 1 ds +:+ "." +:+ substring 1 (k - 1) ds
         +:+ "e" +:+ exponent.

(** The shortest digits of a positive double, by the search. *)
Definition shortest_digits (q : Q) : string :=
  let '(s, n) := shortest 17 q (decimal_exponent q) 1 in format s n.

(** [x.toString()] of a positive double.  An integer up to [2^53] is the
    nearest double of no other integer, so its shortest digits are its own
    (without the zeros at their end, which [format] puts back). *)
Definition positive_toString (q : Q) : string :=
  let a := Qnum q in
  let b := Zpos (Qden q) in
  if (a mod b =? 0) && (a / b <=? 2 ^ 53) then digits (a / b)
  else shortest_digits q.

(** [x.toString()], Number::toString in radix 10. *)
Definition toString (x : number) : string :=
  match x with
  | NaN => "NaN"
  | Infinity neg => if neg then "-Infinity" else "Infinity"
  | Num q =>
      match Qnum q with
      | 0 => "0"
      | Zpos _ => positive_toString q
      | Zneg _ => "-" +:+ positive_toString (Qopp q)
      end
  end.

(** The decimal text of an integer: its digits, [-] first when negative. *)
Definition decimal (n : Z) : string :=
  NilZero.string_of_int (Z.to_int n).

(** Every character of [s] satisfies [p]. *)
Fixpoint all_chars (p : ascii → bool) (s : string) : bool :=
  match s with
  | EmptyString => true
  | String a s' => p a && all_chars p s'
  end.

(** [0] to [9]. *)
Definition digit_char (a : ascii) : bool :=
  ((48 <=? N_of_ascii a) && (N_of_ascii a <=? 57))%N.

(** Neither white space nor one of the marks of a fraction or an
    exponent. *)
Definition plain_char (a : ascii) : bool :=
  negb (is_space a) && negb (is_exp a) && negb (is_dot a).

End JS.
Import JS.


(** ** The file system ([fs] and [fs-extra])

    A state maps each existing path to its node; the root directory is the
    entry at the empty path.  Symbolic links are not modelled.  A call that
    fails leaves the state as it was (a recursive [copy] that fails half way
    may in fact have copied some files; nothing below looks at the state
    after a failed [copy]).

    A call that is handed a path written with a separator at its end
    ([slash]) resolves it as a directory only: a file at that place is not
    found, and the call fails with [ENOTDIR] where it would have used the
    file. *)

Module Fs.

Inductive node : Type :=
| File (content : string)
| Dir.

Inductive error : Type :=
| ENOENT
| EEXIST
| ENOTDIR
| EISDIR
| ECOPY
| EREMOTE (message : string).

Inductive outcome (A : Type) : Type :=
| Ok (a : A)
| Err (e : error).
Arguments Ok {A} a.
Arguments Err {A} e.

Definition is_dir (n : node) : bool :=
  match n with Dir => true | File _ => false end.

Definition is_file (n : node) : bool :=
  match n with Dir => false | File _ => true end.

(** [fs.exists]: never fails; a file is not found under a name that ends
    with a separator. *)
Definition exists_ (fs : gmap path node) (p : path) (slash : bool) : bool :=
  match fs !! p with
  | Some Dir => true
  | Some (File _) => negb slash
  | None => false
  end.

(** [(await lstat(p)).isFile()]; a file under a name that ends with a
    separator is [ENOTDIR]. *)
Definition lstat_isFile (fs : gmap path node) (p : path) (slash : bool)
  : outcome bool :=
  match fs !! p with
  | Some Dir => Ok false
  | Some (File _) => if slash then Err ENOTDIR else Ok true
  | None => Err ENOENT
  end.

(** [readFile(p)] as text. *)
Definition readFile (fs : gmap path node) (p : path) : outcome string :=
  match fs !! p with
  | Some (File c) => Ok c
  | Some Dir => Err EISDIR
  | None => Err ENOENT
  end.

(** What creating an entry at [p] needs of its parent. *)
Definition parent_error (fs : gmap path node) (p : path) : option error :=
  match fs !! dirname p with
  | Some Dir => None
  | Some (File _) => Some ENOTDIR
  | None => Some ENOENT
  end.

(** [writeFile(p, data)]: creates or truncates the file. *)
Definition writeFile (fs : gmap path node) (p : path) (data : string)
  : outcome (gmap path node) :=
  match fs !! p with
  | Some Dir => Err EISDIR
  | _ => match parent_error fs p with
         | Some e => Err e
         | None => Ok (<[p := File data]> fs)
         end
  end.

(** [mkdir(p)], not recursive. *)
Definition mkdir (fs : gmap path node) (p : path)
  : outcome (gmap path node) :=
  match fs !! p with
  | Some _ => Err EEXIST
  | None => match parent_error fs p with
            | Some e => Err e
            | None => Ok (<[p := Dir]> fs)
            end
  end.

(** The state without [p] and all below it. *)
Definition prune (fs : gmap path node) (p : path) : gmap path node :=
  filter (fun kv => ¬ p `prefix_of` kv.1) fs.

(** [remove(p)] of fs-extra: [p] and all below it; a missing [p] is fine,
    a file under a name that ends with a separator is [ENOTDIR]. *)
Definition remove (fs : gmap path node) (p : path) (slash : bool)
  : outcome (gmap path node) :=
  match fs !! p with
  | Some (File _) => if slash then Err ENOTDIR else Ok (prune fs p)
  | _ => Ok (prune fs p)
  end.

(** [unlink(p)]: a file only. *)
Definition unlink (fs : gmap path node) (p : path)
  : outcome (gmap path node) :=
  match fs !! p with
  | Some (File _) => Ok (delete p fs)
  | Some Dir => Err EISDIR
  | None => Err ENOENT
  end.

(** [ensureDir]: walk down from [base] along [rest], creating each
    directory that is missing; a file on the way is an error, [EEXIST] when
    it is at the path itself. *)
Fixpoint mkdirs_from (base rest : path) (fs : gmap path node)
  : outcome (gmap path node) :=
  match fs !! base with
  | Some (File _) => Err (match rest with [] => EEXIST | _ => ENOTDIR end)
  | here =>
      let fs' := match here with
                 | None => <[base := Dir]> fs
                 | Some _ => fs
                 end in
      match rest with
      | [] => Ok fs'
      | x :: rest' => mkdirs_from (base ++ [x]) rest' fs'
      end
  end.

Definition ensureDir (fs : gmap path node) (p : path)
  : outcome (gmap path node) :=
  mkdirs_from [] p fs.

(** The names directly inside [p]. *)
Definition children (fs : gmap path node) (p : path) : list string :=
  omap (fun kv => match strip p kv.1 with
                  | Some [name] => Some name
                  | _ => None
                  end) (map_to_list fs).

(** [readdir(p)]. *)
Definition readdir (fs : gmap path node) (p : path)
  : outcome (list string) :=
  match fs !! p with
  | Some Dir => Ok (children fs p)
  | Some (File _) => Err ENOTDIR
  | None => Err ENOENT
  end.

(** The entries at and below [src], by their path relative to [src]. *)
Definition subtree (fs : gmap path node) (src : path)
  : list (path * node) :=
  omap (fun kv => match strip src kv.1 with
                  | Some rel => Some (rel, kv.2)
                  | None => None
                  end) (map_to_list fs).

(** The same entries placed at and below [dest]. *)
Definition graft (dest : path) (sub : list (path * node))
  : gmap path node :=
  list_to_map ((fun rn => (dest ++ rn.1, rn.2)) <$> sub).

(** An entry to copy meets an entry of the other kind at its place. *)
Definition clashes (fs : gmap path node) (dest : path)
    (rn : path * node) : bool :=
  match fs !! (dest ++ rn.1) with
  | Some m => negb (Bool.eqb (is_dir m) (is_dir rn.2))
  | None => false
  end.

(** [copy(src, dest)] of fs-extra with its default options: files are
    overwritten, directories merged; refused when [src] is missing, when
    [src] and [dest] are the same, when a directory would replace a file
    or a file a directory, and when [dest] lies inside the directory
    [src].  A file under a name that ends with a separator is [ENOTDIR],
    and no file can be created under such a name. *)
Definition copy (fs : gmap path node) (src dest : path)
    (src_slash dest_slash : bool) : outcome (gmap path node) :=
  match fs !! src with
  | None => Err ENOENT
  | Some sn =>
      if src_slash && is_file sn then Err ENOTDIR
      else if dest_slash
              && match fs !! dest with Some (File _) => true | _ => false end
      then Err ENOTDIR
      else if dest_slash && is_file sn
              && match fs !! dest with None => true | _ => false end
      then Err EISDIR
      else if bool_decide (src = dest) then Err ECOPY
      else if clashes fs dest ([], sn) then Err ECOPY
      else if is_dir sn && bool_decide (src `prefix_of` dest) then Err ECOPY
      else
        match ensureDir fs (dirname dest) with
        | Err e => Err e
        | Ok fs1 =>
            let sub := subtree fs1 src in
            if existsb (clashes fs1 dest) sub then Err ECOPY
            else Ok (graft dest sub ∪ fs1)
        end
  end.

End Fs.
Import Fs.

(** ** Effects: the calls a method makes, in order *)

Inductive event : Type :=
| EvExists (p : path)
| EvLstat (p : path)
| EvReadFile (p : path)
| EvReaddir (p : path)
| EvWriteFile (p : path) (data : string)
| EvMkdir (p : path)
| EvEnsureDir (p : path)
| EvRemove (p : path)
| EvUnlink (p : path)
| EvCopy (src dest : path)
| EvRetrieve (hash : string) (cacheRoot : path)
| EvStore (hash : string) (cacheRoot : path).

(** [options.remoteCache]: an opaque backend with a state [R] of its own.
    Both calls are handed the local cache directory and may change it;
    when one fails, the state it leaves is still returned. *)
Record RemoteCache (R : Type) : Type := {
  retrieve : string -> path -> gmap path node -> R ->
             outcome unit * gmap path node * R;
  store : string -> path -> gmap path node -> R ->
          outcome unit * gmap path node * R
}.
Arguments retrieve {R} _ _ _ _ _.
Arguments store {R} _ _ _ _ _.

Record world (R : Type) : Type := World {
  files : gmap path node;
  remote_state : R;
  trace : list event
}.
Arguments World {R} _ _ _.
Arguments files {R} _.
Arguments remote_state {R} _.
Arguments trace {R} _.

(** An asynchronous method, run to completion without interleaving: from
    a world to a result or a thrown error, and the world it leaves. *)
Definition M (R A : Type) : Type := world R -> outcome A * world R.

Section Monad.
Context {R : Type}.

Definition ret {A} (a : A) : M R A := fun w => (Ok a, w).

Definition bind {A B} (m : M R A) (k : A -> M R B) : M R B :=
  fun w => match m w with
           | (Ok a, w') => k a w'
           | (Err e, w') => (Err e, w')
           end.

(** [try { m } catch (e) { h e }]. *)
Definition try_catch {A} (m : M R A) (h : error -> M R A) : M R A :=
  fun w => match m w with
           | (Ok a, w') => (Ok a, w')
           | (Err e, w') => h e w'
           end.

Definition logged (ev : event) (w : world R) (fs : gmap path node)
  : world R :=
  World fs (remote_state w) (trace w ++ [ev]).

(** A call that only reads. *)
Definition query {A} (ev : event) (f : gmap path node -> outcome A)
  : M R A :=
  fun w => (f (files w), logged ev w (files w)).

(** A call that writes. *)
Definition update (ev : event)
    (f : gmap path node -> outcome (gmap path node)) : M R unit :=
  fun w => match f (files w) with
           | Ok fs' => (Ok tt, logged ev w fs')
           | Err e => (Err e, logged ev w (files w))
           end.

Definition existsAsync (p : path) (slash : bool) : M R bool :=
  query (EvExists p) (fun fs => Ok (exists_ fs p slash)).
Definition lstatAsync_isFile (p : path) (slash : bool) : M R bool :=
  query (EvLstat p) (fun fs => lstat_isFile fs p slash).
Definition readFileAsync (p : path) : M R string :=
  query (EvReadFile p) (fun fs => readFile fs p).
Definition readdirAsync (p : path) : M R (list string) :=
  query (EvReaddir p) (fun fs => readdir fs p).
Definition writeFileAsync (p : path) (data : string) : M R unit :=
  update (EvWriteFile p data) (fun fs => writeFile fs p data).
Definition mkdirAsync (p : path) : M R unit :=
  update (EvMkdir p) (fun fs => mkdir fs p).
Definition ensureDirAsync (p : path) : M R unit :=
  update (EvEnsureDir p) (fun fs => ensureDir fs p).
Definition removeAsync (p : path) (slash : bool) : M R unit :=
  update (EvRemove p) (fun fs => remove fs p slash).
Definition unlinkAsync (p : path) : M R unit :=
  update (EvUnlink p) (fun fs => unlink fs p).
Definition copyAsync (src dest : path) (src_slash dest_slash : bool)
  : M R unit :=
  update (EvCopy src dest) (fun fs => copy fs src dest src_slash dest_slash).

Definition remote_call (ev : event)
    (f : gmap path node -> R -> outcome unit * gmap path node * R)
  : M R unit :=
  fun w => let '(r, fs', st') := f (files w) (remote_state w) in
           (r, World fs' st' (trace w ++ [ev])).

(** [a && b] and [a || b] on awaited operands: the right one is only
    awaited when the left one does not decide. *)
Definition andM (a b : M R bool) : M R bool :=
  bind a (fun x => if x then b else ret false).
Definition orM (a b : M R bool) : M R bool :=
  bind a (fun x => if x then ret true else b).
Definition notM (a : M R bool) : M R bool :=
  bind a (fun x => ret (negb x)).
End Monad.

#[global] Instance M_ret {R} : MRet (M R) := @ret R.
#[global] Instance M_bind {R} : MBind (M R) := fun A B k m => bind m k.

(** ** The cache ([class Cache]) *)

Record Task : Type := { hash : string }.

Record CachedResult : Type := {
  terminalOutput : string;
  outputsPath : path;
  code : number
}.

Record TaskWithCachedResult : Type := {
  task : Task;
  cachedResult : CachedResult
}.

Section Cache.
Context {R : Type}.

(** [this.root], [this.cachePath] and [this.options.remoteCache]. *)
Variable root : path.
Variable cachePath : path.
Variable remoteCache : option (RemoteCache R).

Definition terminalOutputsDir : path := join cachePath "terminalOutputs".
Definition latestOutputsHashesDir : path :=
  join cachePath "latestOutputsHashes".

Definition entryDir (h : string) : path := join cachePath h.
Definition commitMarker (h : string) : path :=
  join cachePath (h +:+ ".commit").

Definition getFromLocalDir (task : Task) : M R (option CachedResult) :=
  let tdCommit := commitMarker (hash task) in
  let td := entryDir (hash task) in
  committed ← existsAsync tdCommit false;
  if committed : bool then
    terminalOutput ← readFileAsync (join td "terminalOutput");
    code ← try_catch
             (text ← readFileAsync (join td "code"); mret (Number text))
             (fun _ => mret (Num 0));
    mret (Some {| terminalOutput := terminalOutput;
                  outputsPath := join td "outputs";
                  code := code |})
  else mret None.

Definition get (task : Task) : M R (option CachedResult) :=
  res ← getFromLocalDir task;
  match res, remoteCache with
  | None, Some rc =>
      remote_call (EvRetrieve (hash task) cachePath)
        (retrieve rc (hash task) cachePath);;
      getFromLocalDir task
  | _, _ => mret res
  end.

(** One round of the [for (const f of outputs)] loop of [put]. *)
Definition put_output (td : path) (f : string) : M R unit :=
  let src := join root f in
  present ← existsAsync src (ends_sep f);
  if present : bool then
    let cached := join (join td "outputs") f in
    isFile ← lstatAsync_isFile src (ends_sep f);
    let directory :=
      if isFile : bool then resolve cached ".." else cached in
    ensureDirAsync directory;;
    copyAsync src cached (ends_sep f) (ends_sep f)
  else mret tt.

Fixpoint put_outputs (td : path) (outputs : list string) : M R unit :=
  match outputs with
  | [] => mret tt
  | f :: rest => put_output td f;; put_outputs td rest
  end.

Definition put (task : Task) (terminalOutput : option string)
    (outputs : list string) (code : number) : M R unit :=
  let td := entryDir (hash task) in
  let tdCommit := commitMarker (hash task) in
  removeAsync tdCommit false;;
  removeAsync td (ends_sep (hash task));;
  mkdirAsync td;;
  writeFileAsync (join td "terminalOutput")
    (default "no terminal output" terminalOutput);;
  mkdirAsync (join td "outputs");;
  put_outputs td outputs;;
  writeFileAsync (join td "code") (toString code);;
  writeFileAsync tdCommit "true";;
  match remoteCache with
  | Some rc =>
      remote_call (EvStore (hash task) cachePath)
        (store rc (hash task) cachePath)
  | None => mret tt
  end.

Definition getFileNameWithLatestRecordedHashForOutput (output : string)
  : path :=
  join latestOutputsHashesDir
    (join_with "-" (split sep output) +:+ ".hash").

Fixpoint removeRecordedOutputsHashes (outputs : list string) : M R unit :=
  match outputs with
  | [] => mret tt
  | output :: rest =>
      let hashFile := getFileNameWithLatestRecordedHashForOutput output in
      try_catch (unlinkAsync hashFile) (fun _ => mret tt);;
      removeRecordedOutputsHashes rest
  end.

Fixpoint recordOutputsHash (outputs : list string) (h : string)
  : M R unit :=
  match outputs with
  | [] => mret tt
  | output :: rest =>
      let hashFile := getFileNameWithLatestRecordedHashForOutput output in
      try_catch
        (ensureDirAsync (dirname hashFile);; writeFileAsync hashFile h)
        (fun _ => mret tt);;
      recordOutputsHash rest h
  end.

(** The [for (const f of outputs)] loop of [copyFilesFromCache]. *)
Fixpoint restore_outputs (cachedResult : CachedResult)
    (outputs : list string) : M R unit :=
  match outputs with
  | [] => mret tt
  | f :: rest =>
      let cached := join (outputsPath cachedResult) f in
      present ← existsAsync cached (ends_sep f);
      (if present : bool then
         isFile ← lstatAsync_isFile cached (ends_sep f);
         let src := join root f in
         removeAsync src (ends_sep f);;
         let directory :=
           if isFile : bool then resolve src ".." else src in
         ensureDirAsync directory;;
         copyAsync cached src (ends_sep f) (ends_sep f)
       else mret tt);;
      restore_outputs cachedResult rest
  end.

Definition copyFilesFromCache (h : string) (cachedResult : CachedResult)
    (outputs : list string) : M R unit :=
  removeRecordedOutputsHashes outputs;;
  restore_outputs cachedResult outputs;;
  recordOutputsHash outputs h.


Definition getLatestRecordedHashForTask (output : string)
  : M R (option string) :=
  try_catch
    (text ← readFileAsync
              (getFileNameWithLatestRecordedHashForOutput output);
     mret (Some text))
    (fun _ => mret None).

Fixpoint areLatestOutputsHashesDifferentThanTaskHash
    (outputs : list string) (h : string) : M R bool :=
  match outputs with
  | [] => mret false
  | output :: rest =>
      recorded ← getLatestRecordedHashForTask output;
      if bool_decide (recorded ≠ Some h) then mret true
      else areLatestOutputsHashesDifferentThanTaskHash rest h
  end.

(** One round of the loop of [isAnyOutputMissing]: [true] when the round
    returns true, [false] when it goes on to the next output. *)
Definition output_missing (cachedResult : CachedResult) (output : string)
  : M R bool :=
  let cacheOutputPath := join (outputsPath cachedResult) output in
  let rootOutputPath := join root output in
  cachedFile ← andM (existsAsync cacheOutputPath (ends_sep output))
                    (lstatAsync_isFile cacheOutputPath (ends_sep output));
  gone ← (if cachedFile : bool then
            andM (existsAsync (join (outputsPath cachedResult) output)
                   (ends_sep output))
                 (notM (existsAsync (join root output) (ends_sep output)))
          else mret false);
  if gone : bool then mret true
  else
    haveDifferentAmountOfFiles ←
      andM (existsAsync cacheOutputPath (ends_sep output))
        (andM (existsAsync rootOutputPath (ends_sep output))
           (inCache ← readdirAsync cacheOutputPath;
            inRoot ← readdirAsync rootOutputPath;
            mret (negb (length inCache =? length inRoot)%nat)));
    orM (andM (existsAsync cacheOutputPath (ends_sep output))
              (notM (existsAsync rootOutputPath (ends_sep output))))
        (mret haveDifferentAmountOfFiles).

Fixpoint isAnyOutputMissing (cachedResult : CachedResult)
    (outputs : list string) : M R bool :=
  match outputs with
  | [] => mret false
  | output :: rest =>
      missing ← output_missing cachedResult output;
      if missing : bool then mret true
      else isAnyOutputMissing cachedResult rest
  end.

Definition shouldCopyOutputsFromCache
    (taskWithCachedResult : TaskWithCachedResult)
    (outputs : list string) : M R bool :=
  orM (areLatestOutputsHashesDifferentThanTaskHash outputs
         (hash (task taskWithCachedResult)))
      (isAnyOutputMissing (cachedResult taskWithCachedResult) outputs).

End Cache.

(** ** Vocabulary of the properties *)

(** The calls to the remote cache, and the existence checks, in a trace. *)
Definition is_remote_call (e : event) : bool :=
  match e with
  | EvRetrieve _ _ | EvStore _ _ => true
  | _ => false
  end.

Definition is_existence_check (e : event) : bool :=
  match e with
  | EvExists _ => true
  | _ => false
  end.

(** What the local store's [get] reads of an entry. *)
Definition code_read (fs : gmap path node) (td : path) : number :=
  match readFile fs (join td "code") with
  | Ok text => Number text
  | Err _ => Num 0
  end.






(** The remote cache's [store] reads the local entry and leaves the local
    files as they are. *)
Definition store_keeps_files {R} (rc : RemoteCache R) : Prop :=
  ∀ h p fs st, (store rc h p fs st).1.2 = fs.

(** Every entry lies in directories: the places above it are all
    directories. *)
Definition well_formed (fs : gmap path node) : Prop :=
  ∀ p n, fs !! p = Some n →
         ∀ q, q `prefix_of` p → q ≠ p → fs !! q = Some Dir.

(** The places above [p], from the root down. *)
Definition ancestors (p : path) : list path :=
  (fun n => take n p) <$> seq 0 (length p).

(** A check of [well_formed] that runs. *)
Definition well_formedb (fs : gmap path node) : bool :=
  forallb (fun '(p, _) =>
             forallb (fun q => match fs !! q with
                               | Some Dir => true
                               | _ => false
                               end) (ancestors p))
          (map_to_list fs).

(** [p] and every directory above it exist. *)
Definition directory_at (fs : gmap path node) (p : path) : Prop :=
  ∀ q, q `prefix_of` p → fs !! q = Some Dir.

(** The hash on record for an output: the text of its record file. *)
Definition recorded_hash (cachePath : path) (fs : gmap path node)
    (output : string) : option string :=
  match readFile fs
          (getFileNameWithLatestRecordedHashForOutput cachePath output) with
  | Ok text => Some text
  | Err _ => None
  end.

(** (a): the recorded hash is absent or differs from the task's. *)
Definition hash_differs (cachePath : path) (fs : gmap path node)
    (h : string) (output : string) : bool :=
  bool_decide (recorded_hash cachePath fs output ≠ Some h).

Definition entries_differ (fs : gmap path node) (p q : path) : bool :=
  negb (length (children fs p) =? length (children fs q))%nat.

(** The copy of [output] below [base] as the calls find it: what is at
    [join base output], where a file does not count when [output] ends
    with a separator. *)
Definition found (fs : gmap path node) (base : path) (output : string)
  : option node :=
  match fs !! join base output with
  | Some (File c) => if ends_sep output then None else Some (File c)
  | other => other
  end.

(** What the code tests of one output: its cached copy exists and the
    workspace copy does not, or both are directories with a different
    number of entries. *)
Definition copy_missing (root outputsPath : path) (fs : gmap path node)
    (output : string) : bool :=
  match found fs outputsPath output, found fs root output with
  | Some _, None => true
  | Some Dir, Some Dir =>
      entries_differ fs (join outputsPath output) (join root output)
  | _, _ => false
  end.

(** Both copies exist and one of them is a file, so that one cannot be
    listed. *)
Definition unlistable (root outputsPath : path) (fs : gmap path node)
    (output : string) : bool :=
  match found fs outputsPath output, found fs root output with
  | Some (File _), Some _ => true
  | Some Dir, Some (File _) => true
  | _, _ => false
  end.

(** Following the spec's words, (b): the cached copy exists as a file but
    the workspace copy does not, or both are directories with a different
    number of entries. *)
Definition spec_structurally_missing (root outputsPath : path)
    (fs : gmap path node) (output : string) : bool :=
  let cached := join outputsPath output in
  let inRoot := join root output in
  match fs !! cached, fs !! inRoot with
  | Some (File _), None => true
  | Some Dir, Some Dir => entries_differ fs cached inRoot
  | _, _ => false
  end.

(** Following the spec's words: true if and only if (a) or (b) holds of
    some declared output. *)
Definition spec_shouldCopyOutputsFromCache (root cachePath : path)
    (fs : gmap path node) (twcr : TaskWithCachedResult)
    (outputs : list string) : bool :=
  existsb (hash_differs cachePath fs (hash (task twcr))) outputs
  || existsb (spec_structurally_missing root
                (outputsPath (cachedResult twcr)) fs) outputs.

(** Two worlds with the same files and the same remote state: they may
    differ in the calls logged so far. *)
Definition same_state {R} (w1 w2 : world R) : Prop :=
  files w1 = files w2 ∧ remote_state w1 = remote_state w2.

(** Two runs with the same result that leave the same state. *)
Definition agree {R A} (x y : outcome A * world R) : Prop :=
  x.1 = y.1 ∧ same_state x.2 y.2.


(** ** A small workspace and cache, for concrete runs *)

Definition demo_root : path := ["w"].
Definition demo_cache : path := ["c"].
Definition demo_task : Task := {| hash := "abc" |}.

(** A workspace with [dist/a.txt], and an empty cache. *)
Definition demo_files : gmap path node :=
  list_to_map
    [([], Dir); (["w"], Dir); (["w"; "dist"], Dir);
     (["w"; "dist"; "a.txt"], File "A");
     (["c"], Dir); (["c"; "latestOutputsHashes"], Dir);
     (["c"; "terminalOutputs"], Dir)].

Definition demo_world : world unit := World demo_files tt [].

(** An entry written half way: files under [abc/], no commit marker. *)
Definition partial_world : world unit :=
  World (<[["c"; "abc"; "code"] := File "0"]>
           (<[["c"; "abc"; "terminalOutput"] := File "half"]>
              (<[["c"; "abc"] := Dir]> demo_files)))
        tt [].

(** A committed entry whose [terminalOutput] is gone. *)
Definition headless_world : world unit :=
  World (<[["c"; "abc.commit"] := File "true"]>
           (<[["c"; "abc"] := Dir]> demo_files))
        tt [].

(** A committed entry whose [code] file holds no number. *)
Definition garbled_world : world unit :=
  World (<[["c"; "abc.commit"] := File "true"]>
           (<[["c"; "abc"; "code"] := File "abc"]>
              (<[["c"; "abc"; "terminalOutput"] := File "hello"]>
                 (<[["c"; "abc"] := Dir]> demo_files))))
        tt [].

(** A cached directory [dist] whose workspace copy is gone, with the
    record of [dist] still at the task's hash. *)
Definition restored_world : world unit :=
  World (<[["c"; "latestOutputsHashes"; "dist.hash"] := File "abc"]>
           (<[["c"; "abc"; "outputs"; "dist"; "a.txt"] := File "A"]>
              (<[["c"; "abc"; "outputs"; "dist"] := Dir]>
                 (<[["c"; "abc"; "outputs"] := Dir]>
                    (<[["c"; "abc"] := Dir]>
                       (delete ["w"; "dist"; "a.txt"]
                          (delete ["w"; "dist"] demo_files)))))))
        tt [].

(** The file [dist/a.txt] both in the cache and in the workspace, with its
    record at the task's hash. *)
Definition in_both_world : world unit :=
  World (<[["c"; "latestOutputsHashes"; "dist-a.txt.hash"] := File "abc"]>
           (<[["c"; "abc"; "outputs"; "dist"; "a.txt"] := File "A"]>
              (<[["c"; "abc"; "outputs"; "dist"] := Dir]>
                 (<[["c"; "abc"; "outputs"] := Dir]>
                    (<[["c"; "abc"] := Dir]> demo_files)))))
        tt [].

Definition demo_cached : TaskWithCachedResult :=
  {| task := demo_task;
     cachedResult := {| terminalOutput := "hello";
                        outputsPath := ["c"; "abc"; "outputs"];
                        code := Num 0 |} |}.

(** A remote cache that cannot be reached: [store] fails and touches
    nothing. *)
Definition unreachable_remote : RemoteCache unit :=
  {| retrieve := fun _ _ fs st => (Ok tt, fs, st);
     store := fun _ _ fs st => (Err (EREMOTE "unreachable"), fs, st) |}.

(** A remote cache that cannot be reached at all: [retrieve] fails as
    well. *)
Definition offline_remote : RemoteCache unit :=
  {| retrieve := fun _ _ fs st => (Err (EREMOTE "offline"), fs, st);
     store := fun _ _ fs st => (Err (EREMOTE "offline"), fs, st) |}.

(** A remote cache whose [store] moves the commit marker away and then
    fails. *)
Definition clumsy_remote : RemoteCache unit :=
  {| retrieve := fun _ _ fs st => (Ok tt, fs, st);
     store := fun h p fs st =>
                (Err (EREMOTE "lost"),
                 prune fs (join p (h +:+ ".commit")), st) |}.

(** The demo workspace with a file [terminalOutput] next to it. *)
Definition climbing_world : world unit :=
  World (<[["terminalOutput"] := File "other"]> demo_files) tt [].

(** Following the spec's words: the text of a decimal integer, an optional
    [-] before one or more digits. *)
Definition decimal_integer_text (s : string) : bool :=
  let digits := match s with
                | String a u => if Ascii.eqb a "-" then u else s
                | EmptyString => s
                end in
  negb (String.eqb digits "") && all_chars digit_char digits.

(** Following the spec's words: the exit code of a committed entry is the
    integer in its [code] file, and 0 when the file is absent or does not
    parse as a decimal integer. *)
Definition spec_code (fs : gmap path node) (td : path) : number :=
  match readFile fs (join td "code") with
  | Ok text => if decimal_integer_text text then Number text else Num 0
  | Err _ => Num 0
  end.

(** A computation that makes no call to the remote cache. *)
Definition quiet {R A} (m : M R A) : Prop :=
  ∀ w, ∃ evs, trace (m w).2 = trace w ++ evs ∧
              List.filter is_remote_call evs = [].

(** ** Further vocabulary: records, construction, frames and restoring *)

(** A character other than the separator. *)
Definition no_sep (a : ascii) : bool := negb (Ascii.eqb a sep).

(** The name of the record file of an output inside
    [latestOutputsHashes/]. *)
Definition record_name (output : string) : string :=
  join_with "-" (split sep output) +:+ ".hash".

(** The files after [try { await unlink(p) } catch (e) {}]. *)
Definition unlinked (fs : gmap path node) (p : path) : gmap path node :=
  match unlink fs p with
  | Ok fs' => fs'
  | Err _ => fs
  end.

(** What is left at a path once a file there has been unlinked: a
    directory stays. *)
Definition unless_file (o : option node) : option node :=
  match o with
  | Some (File _) => None
  | _ => o
  end.

(** The files after
    [try { await ensureDir(dirname(p)); await writeFile(p, h) } catch {}]. *)
Definition recorded (fs : gmap path node) (p : path) (h : string)
  : gmap path node :=
  match ensureDir fs (dirname p) with
  | Ok fs1 => match writeFile fs1 p h with
              | Ok fs2 => fs2
              | Err _ => fs1
              end
  | Err _ => fs
  end.

(** [s] with every separator replaced by a dash. *)
Fixpoint dashed (s : string) : string :=
  match s with
  | EmptyString => EmptyString
  | String a s' =>
      String (if Ascii.eqb a sep then "-"%char else a) (dashed s')
  end.

(** ** The constructor of [class Cache]: its field initialisers *)

(** The fields of an instance. *)
Module Fields.
Record t : Type := {
  root : path;
  cachePath : path;
  terminalOutputsDir : path;
  latestOutputsHashesDir : path
}.
End Fields.

Section Construction.
Context {R : Type}.

(** [ensureDirSync] of fs-extra. *)
Definition ensureDirSync (p : path) : M R unit :=
  update (EvEnsureDir p) (fun fs => ensureDir fs p).

(** [dir] is the value of
    [cacheDirectory(this.root, this.options.cacheDirectory)], a function
    of another module. *)
Definition createCacheDir (dir : path) : M R path :=
  ensureDirSync dir;;
  mret dir.

Definition createTerminalOutputsDir (cachePath : path) : M R path :=
  let path := join cachePath "terminalOutputs" in
  ensureDirSync path;;
  mret path.

Definition ensureLatestOutputsHashesDir (cachePath : path) : M R path :=
  let path := join cachePath "latestOutputsHashes" in
  ensureDirSync path;;
  mret path.

(** [new Cache(options)]: the initialisers run in the order of the
    fields. *)
Definition new_Cache (appRootPath dir : path) : M R Fields.t :=
  cachePath ← createCacheDir dir;
  terminalOutputsDir ← createTerminalOutputsDir cachePath;
  latestOutputsHashesDir ← ensureLatestOutputsHashesDir cachePath;
  mret {| Fields.root := appRootPath;
          Fields.cachePath := cachePath;
          Fields.terminalOutputsDir := terminalOutputsDir;
          Fields.latestOutputsHashesDir := latestOutputsHashesDir |}.

End Construction.

(** No regular file is at [p] or above it. *)
Definition unblocked (fs : gmap path node) (p : path) : Prop :=
  ∀ q c, q `prefix_of` p → fs !! q ≠ Some (File c).

(** A computation that leaves the entry at [k] as it was, whether it
    returns or throws. *)
Definition untouched {R A} (k : path) (m : M R A) : Prop :=
  ∀ w, files (m w).2 !! k = files w !! k.

(** A computation that, started with nothing at [k], has put nothing
    there when it throws. *)
Definition absent_when_thrown {R A} (k : path) (m : M R A) : Prop :=
  ∀ w e w', files w !! k = None → m w = (Err e, w') → files w' !! k = None.

(** One round of the [for (const f of outputs)] loop of
    [copyFilesFromCache]. *)
Definition restore_output {R} (root : path) (cachedResult : CachedResult)
    (f : string) : M R unit :=
  let cached := join (outputsPath cachedResult) f in
  present ← existsAsync cached (ends_sep f);
  if present : bool then
    isFile ← lstatAsync_isFile cached (ends_sep f);
    let src := join root f in
    removeAsync src (ends_sep f);;
    let directory :=
      if isFile : bool then resolve src ".." else src in
    ensureDirAsync directory;;
    copyAsync cached src (ends_sep f) (ends_sep f)
  else mret tt.

(** No path of the list lies at or below another. *)
Fixpoint pairwise_apart (ps : list path) : Prop :=
  match ps with
  | [] => True
  | p :: rest => Forall (apart p) rest ∧ pairwise_apart rest
  end.

(** The copy of [output] below [base] is found, and is a regular file. *)
Definition found_file (fs : gmap path node) (base : path)
    (output : string) : bool :=
  match found fs base output with
  | Some (File _) => true
  | _ => false
  end.

(** Where the node [n] found at [q] below the entry directory of a
    finished [put] comes from: it is the entry directory itself, one of the
    files [terminalOutput] and [code], the directory [outputs], the copy of
    what the workspace [fs0] held at or below a declared output, or a
    directory on the way to the cached copy of a declared output that the
    workspace held. *)
Definition put_origin (root : path) (fs0 : gmap path node)
    (outputs : list string) (text : option string) (c : number)
    (q : path) (n : node) : Prop :=
  (q = [] ∧ n = Dir) ∨
  (q = ["terminalOutput"] ∧ n = File (default "no terminal output" text)) ∨
  (q = ["code"] ∧ n = File (toString c)) ∨
  (q = ["outputs"] ∧ n = Dir) ∨
  (∃ f rf rel, f ∈ outputs ∧ relpath f = Some rf ∧
     q = "outputs" :: rf ++ rel ∧ fs0 !! (root ++ rf ++ rel) = Some n) ∨
  (∃ f rf p, f ∈ outputs ∧ relpath f = Some rf ∧
     is_Some (fs0 !! (root ++ rf)) ∧ p `prefix_of` rf ∧
     q = "outputs" :: p ∧ n = Dir).

(** A disk with a workspace and no cache directory yet. *)
Definition fresh_world : world unit :=
  World (list_to_map [([], Dir); (["w"], Dir)]) tt [].


(** A cache directory inside the workspace, with a committed entry. *)
Definition nested_cache : path := ["w"; "cache"].

Definition nested_world : world unit :=
  World (list_to_map
           [([], Dir); (["w"], Dir); (["w"; "src.txt"], File "S");
            (["w"; "cache"], Dir);
            (["w"; "cache"; "abc"], Dir);
            (["w"; "cache"; "abc"; "terminalOutput"], File "old");
            (["w"; "cache"; "abc"; "code"], File "0");
            (["w"; "cache"; "abc"; "outputs"], Dir);
            (["w"; "cache"; "abc.commit"], File "true")])
        tt [].

(** The cached file [blocked/x], and a regular file at [blocked] in the
    workspace. *)
Definition blocked_world : world unit :=
  World (<[["w"; "blocked"] := File "B"]>
           (<[["c"; "abc"; "outputs"; "blocked"; "x"] := File "X"]>
              (<[["c"; "abc"; "outputs"; "blocked"] := Dir]>
                 (<[["c"; "abc"; "outputs"] := Dir]>
                    (<[["c"; "abc"] := Dir]> demo_files)))))
        tt [].

(** The demo workspace after its [dist] has been stored for [abc], and
    then with [dist] deleted from the workspace. *)
Definition stored_world : world unit :=
  (put demo_root demo_cache None demo_task (Some "hello") ["dist"] (Num 0)
     demo_world).2.

Definition cleaned_world : world unit :=
  World (prune (files stored_world) ["w"; "dist"]) tt [].

(** A half-written entry for [abc] that holds a stale output. *)
Definition stale_world : world unit :=
  World (<[["c"; "abc"; "outputs"; "old.txt"] := File "old"]>
           (<[["c"; "abc"; "outputs"] := Dir]> (files partial_world)))
        tt [].

(** * Properties *)

(** ** Numbers *)

Example Number_42 : Number " 42 " = Num 42.
Proof. reflexivity. Qed.
Example Number_neg : Number (toString (Num (-17))) = Num (-17).
Proof. reflexivity. Qed.
Example Number_hex : Number "0x1f" = Num 31.
Proof. reflexivity. Qed.
Example Number_frac : Number "-1.50e1" = Num (-15).
Proof. reflexivity. Qed.
Example Number_half : Number ".5" = Num (1 # 2).
Proof. reflexivity. Qed.
Example Number_abc : Number "abc" = NaN.
Proof. reflexivity. Qed.
Example Number_dot : Number "." = NaN.
Proof. reflexivity. Qed.
Example Number_12abc : Number "12abc" = NaN.
Proof. reflexivity. Qed.
Example Number_empty : Number "  " = Num 0.
Proof. reflexivity. Qed.
Example Number_inf : Number "-Infinity" = Infinity true.
Proof. reflexivity. Qed.
Example Number_rounds : Number "9007199254740993" = Num 9007199254740992.
Proof. by vm_compute. Qed.
Example Number_overflows : Number "1e1000" = Infinity false.
Proof. by vm_compute. Qed.
Example Number_underflows : Number "1e-400" = Num 0.
Proof. by vm_compute. Qed.
Example Number_tenth :
  Number "0.1" = Num (3602879701896397 # 36028797018963968).
Proof. by vm_compute. Qed.

Example toString_tenth : toString (Number "0.1") = "0.1".
Proof. by vm_compute. Qed.
Example toString_sum : toString (Number "0.30000000000000004")
                       = "0.30000000000000004".
Proof. by vm_compute. Qed.
Example toString_1e21 : toString (Num 1000000000000000000000) = "1e+21".
Proof. by vm_compute. Qed.
Example toString_1e20 : toString (Num 100000000000000000000)
                        = "100000000000000000000".
Proof. by vm_compute. Qed.
Example toString_2p60 : toString (Num 1152921504606846976)
                        = "1152921504606847000".
Proof. by vm_compute. Qed.
Example toString_small : toString (Number "0.00000015") = "1.5e-7".
Proof. by vm_compute. Qed.
Example toString_least : toString (Number "5e-324") = "5e-324".
Proof. by vm_compute. Qed.
Example toString_greatest :
  toString (Number "1.7976931348623157e308") = "1.7976931348623157e+308".
Proof. by vm_compute. Qed.
Example toString_negative : toString (Num (-7 # 2)) = "-3.5".
Proof. by vm_compute. Qed.

(** On the exit codes of a process, the search for the shortest digits
    gives the plain decimal digits. *)
Example shortest_digits_exit_codes :
  forallb (fun n => String.eqb (shortest_digits (inject_Z (Z.of_nat n)))
                               (digits (Z.of_nat n)))
          (seq 1 255) = true.
Proof. by vm_compute. Qed.

Section NumberFacts.

Lemma digit_plain a : digit_char a = true → plain_char a = true.
Proof. destruct a as [[] [] [] [] [] [] [] []]; by vm_compute. Qed.

Lemma digit_unsigned a : digit_char a = true → sign (String a "") = (false, String a "").
Proof. destruct a as [[] [] [] [] [] [] [] []]; by vm_compute. Qed.

Lemma string_of_uint_digits d :
  all_chars digit_char (NilEmpty.string_of_uint d) = true.
Proof. induction d; simpl; done. Qed.

Lemma all_chars_impl (p q : ascii → bool) s :
  (∀ a, p a = true → q a = true) →
  all_chars p s = true → all_chars q s = true.
Proof.
  intros Hpq. induction s as [|a s IH]; simpl; [done|].
  intros [Ha Hs]%andb_prop. by rewrite (Hpq _ Ha), IH.
Qed.

Lemma trim_plain s : all_chars plain_char s = true → trim s = s.
Proof.
  intros H. unfold trim.
  assert (Hl : trim_left s = s).
  { destruct s as [|a s]; simpl in *; [done|].
    apply andb_prop in H as [Ha _]. unfold plain_char in Ha.
    by destruct (is_space a). }
  rewrite Hl. induction s as [|a s IH]; simpl in *; [done|].
  apply andb_prop in H as [Ha Hs]. rewrite IH; [|done|].
  - unfold plain_char in Ha. destruct (is_space a); [done|]. by destruct s.
  - destruct s as [|b s]; simpl in *; [done|].
    apply andb_prop in Hs as [Hb _]. unfold plain_char in Hb.
    by destruct (is_space b).
Qed.

Lemma break_plain (p : ascii → bool) s :
  all_chars (fun a => negb (p a)) s = true → break p s = (s, None).
Proof.
  induction s as [|a s IH]; simpl; [done|].
  intros [Ha Hs]%andb_prop. destruct (p a); [done|]. by rewrite IH.
Qed.

Lemma unsigned_decimal_digits d :
  d ≠ Decimal.Nil →
  unsigned_decimal (NilEmpty.string_of_uint d) = Some (inject_Z (Z.of_uint d)).
Proof.
  intros Hd. unfold unsigned_decimal.
  pose proof (string_of_uint_digits d) as Hdig.
  rewrite (break_plain is_exp).
  2:{ eapply all_chars_impl; [|exact Hdig]. intros a Ha%digit_plain.
      unfold plain_char in Ha. by destruct (is_space a), (is_exp a). }
  rewrite (break_plain is_dot).
  2:{ eapply all_chars_impl; [|exact Hdig]. intros a Ha%digit_plain.
      unfold plain_char in Ha.
      by destruct (is_space a), (is_exp a), (is_dot a). }
  unfold decimal_digits. rewrite NilEmpty.usu.
  destruct (NilEmpty.string_of_uint d) eqn:E.
  - by destruct d.
  - simpl. unfold scale. simpl. by rewrite Z.mul_1_r.
Qed.

Lemma Number_trimmed a s :
  trim (String a s) = String a s →
  Number (String a s) =
  round_value match non_decimal (String a s) with
              | Some v => v
              | None => signed_decimal (String a s)
              end.
Proof. intros H. unfold Number. by rewrite H. Qed.

Lemma Number_digits (neg : bool) d :
  d ≠ Decimal.Nil →
  Number ((if neg then "-" else "") +:+ NilEmpty.string_of_uint d) =
  round (inject_Z (if neg then - Z.of_uint d else Z.of_uint d)).
Proof.
  intros Hd. pose proof (string_of_uint_digits d) as Hdig.
  pose proof (unsigned_decimal_digits d Hd) as Hun.
  destruct (NilEmpty.string_of_uint d) as [|a s] eqn:E; [by destruct d|].
  assert (Hpl : all_chars plain_char (String a s) = true).
  { eapply all_chars_impl; [|exact Hdig]. apply digit_plain. }
  simpl in Hdig. apply andb_prop in Hdig as [Ha Hs].
  assert (Hinf : String.eqb (String a s) "Infinity" = false).
  { simpl. clear -Ha. by destruct a as [[] [] [] [] [] [] [] []]. }
  destruct neg.
  - change ("-" +:+ String a s) with (String "-" (String a s)).
    rewrite Number_trimmed by (apply trim_plain; simpl in *; by rewrite Hpl).
    change (non_decimal (String "-" (String a s))) with (@None number).
    unfold signed_decimal.
    change (sign (String "-" (String a s))) with (true, String a s).
    cbv beta iota. by rewrite Hinf, Hun.
  - change ("" +:+ String a s) with (String a s).
    rewrite Number_trimmed by by apply trim_plain.
    assert (Hnd : non_decimal (String a s) = None).
    { destruct s as [|x s]; simpl; [done|].
      simpl in Hs. apply andb_prop in Hs as [Hx _].
      destruct (Ascii.eqb a "0"); simpl; [|done].
      clear -Hx. by destruct x as [[] [] [] [] [] [] [] []]. }
    rewrite Hnd. unfold signed_decimal.
    assert (Hsg : sign (String a s) = (false, String a s)).
    { pose proof (digit_unsigned a Ha) as H0. unfold sign in *.
      destruct (Ascii.eqb a "+"); [done|]. by destruct (Ascii.eqb a "-"). }
    rewrite Hsg. cbv beta iota. by rewrite Hinf, Hun.
Qed.

(** [Number(text)] for the decimal text of an integer: the double nearest
    to it. *)
Lemma Number_decimal (z : Z) : Number (decimal z) = round (inject_Z z).
Proof.
  assert (Hz : ∀ d, d ≠ Decimal.Nil →
            NilZero.string_of_uint d = NilEmpty.string_of_uint d).
  { by intros []. }
  destruct z as [|p|p]; [reflexivity| |];
    pose proof (Unsigned.to_uint_nonnil p) as Hnn;
    unfold decimal, Z.to_int, NilZero.string_of_int; rewrite (Hz _ Hnn).
  - etrans; [exact (Number_digits false _ Hnn)|].
    unfold Z.of_uint. by rewrite Unsigned.of_to.
  - etrans; [exact (Number_digits true _ Hnn)|].
    unfold Z.of_uint. by rewrite Unsigned.of_to.
Qed.

Local Open Scope Z_scope.

Lemma Qred_integer (z : Z) : Qred (inject_Z z) = inject_Z z.
Proof.
  unfold Qred, inject_Z.
  pose proof (Z.ggcd_correct_divisors z 1) as Hd.
  pose proof (Z.ggcd_gcd z 1) as Hg.
  destruct (Z.ggcd z 1) as [g [aa bb]]. simpl in Hg.
  rewrite Z.gcd_1_r in Hg. subst g. destruct Hd as [-> Hb].
  rewrite !Z.mul_1_l in *. by subst bb.
Qed.

Lemma Qred_multiple (z : Z) (p : positive) :
  Qred (Qmake (z * Zpos p) p) = inject_Z z.
Proof.
  rewrite <- Qred_integer. apply Qred_complete.
  unfold Qeq, inject_Z. simpl. lia.
Qed.

Lemma half_even_whole (n : Z) : half_even n 1 = n.
Proof.
  unfold half_even. rewrite Z.mod_1_r, Z.div_1_r. reflexivity.
Qed.

Lemma round_pos_safe (z : Z) :
  0 < z → z ≤ 2 ^ 53 → round_pos z 1 = Num (inject_Z z).
Proof.
  intros Hpos Hle. unfold round_pos, floor_log2.
  change (Z.log2 (Z.pos 1)) with 0. rewrite Z.sub_0_r.
  pose proof (Z.log2_nonneg z) as Hl0.
  pose proof (Z.log2_spec z Hpos) as [Hlo Hhi].
  assert (Hl53 : Z.log2 z ≤ 53).
  { destruct (Z.le_gt_cases (Z.log2 z) 53) as [?|Hgt]; [done|exfalso].
    assert (2 ^ 54 ≤ 2 ^ Z.log2 z) by (apply Z.pow_le_mono_r; lia).
    assert (2 ^ 53 < 2 ^ 54) by (apply Z.pow_lt_mono_r; lia). lia. }
  rewrite (proj2 (Z.leb_le 0 _) Hl0). rewrite Z.mul_1_l.
  rewrite (proj2 (Z.leb_le _ _) Hlo).
  rewrite Z.max_l by lia.
  destruct (Z.leb_spec 0 (Z.log2 z - 52)) as [He|He].
  - assert (Z.log2 z = 52 ∨ Z.log2 z = 53) as [E|E] by lia; rewrite E in *.
    + change (52 - 52) with 0. change (2 ^ 0) with 1.
      rewrite Z.mul_1_l, half_even_whole, Z.mul_1_r.
      destruct (Z.leb_spec (2 ^ 1024) z) as [Hbig|_]; [|done].
      assert (2 ^ 53 < 2 ^ 1024) by (apply Z.pow_lt_mono_r; lia). lia.
    + assert (z = 2 ^ 53) as -> by lia. by vm_compute.
  - rewrite half_even_whole.
    rewrite (Z.pow_neg_r 2 (Z.log2 z - 52)) by lia.
    rewrite Z.mul_0_r. change (2 ^ 1024 <=? 0) with false.
    f_equal.
    assert (Hp : 0 < 2 ^ (- (Z.log2 z - 52)))
      by (apply Z.pow_pos_nonneg; lia).
    destruct (2 ^ (- (Z.log2 z - 52))) as [|p|p] eqn:Ep; try lia.
    simpl Z.to_pos. apply Qred_multiple.
Qed.

(** An integer of magnitude up to [2^53] is a double. *)
Lemma round_safe_integer (z : Z) :
  Z.abs z ≤ 2 ^ 53 → round (inject_Z z) = Num (inject_Z z).
Proof.
  intros Hz. unfold round. destruct z as [|p|p]; simpl Qnum; cbv iota.
  - done.
  - apply round_pos_safe; lia.
  - simpl Qden. rewrite round_pos_safe by lia. done.
Qed.

Lemma toString_safe_integer (z : Z) :
  Z.abs z ≤ 2 ^ 53 → toString (Num (inject_Z z)) = decimal z.
Proof.
  intros Hz. unfold toString. destruct z as [|p|p]; simpl Qnum; cbv iota.
  - done.
  - unfold positive_toString. simpl Qnum. simpl Qden.
    rewrite Z.mod_1_r, Z.div_1_r. simpl (0 =? 0).
    rewrite (proj2 (Z.leb_le _ _)) by lia. done.
  - unfold positive_toString. simpl Qnum. simpl Qden.
    rewrite Z.mod_1_r, Z.div_1_r. simpl (0 =? 0).
    rewrite (proj2 (Z.leb_le _ _)) by lia. done.
Qed.

(** [Number(n.toString())] is [n]: the round trip of an integer exit code
    through the [code] file. *)
Lemma Number_toString (z : Z) :
  Z.abs z ≤ 2 ^ 53 → Number (toString (Num (inject_Z z))) = Num (inject_Z z).
Proof.
  intros Hz.
  by rewrite toString_safe_integer, Number_decimal, round_safe_integer.
Qed.
End NumberFacts.

(** ** Paths *)

Section PathFacts.

Lemma strip_app (p r : path) : strip p (p ++ r) = Some r.
Proof.
  induction p as [|a p IH]; simpl; [done|].
  by rewrite String.eqb_refl.
Qed.

Lemma strip_Some (p q r : path) : strip p q = Some r ↔ q = p ++ r.
Proof.
  split; [|intros ->; apply strip_app].
  revert q; induction p as [|a p IH]; intros [|b q]; simpl; try done.
  - by intros [= ->].
  - by intros [= ->].
  - destruct (String.eqb_spec a b) as [->|]; [|done].
    intros ?%IH. by subst.
Qed.

Lemma strip_None (p q : path) : strip p q = None ↔ ¬ p `prefix_of` q.
Proof.
  split.
  - intros Hn [r ->]. by rewrite strip_app in Hn.
  - intros Hn. destruct (strip p q) as [r|] eqn:E; [|done].
    apply strip_Some in E. destruct Hn. by exists r.
Qed.

Lemma prefix_of_app_apart (p q r : path) :
  ¬ p `prefix_of` q → ¬ q `prefix_of` p → ¬ p `prefix_of` q ++ r.
Proof.
  intros Hpq Hqp Hp.
  destruct (prefix_weak_total p q (q ++ r)) as [?|?]; try done.
  by apply prefix_app_r.
Qed.

Lemma split_nonempty (c : ascii) (s : string) : split c s ≠ [].
Proof.
  destruct s as [|a s]; simpl; [done|].
  destruct (Ascii.eqb a c); [done|]. by destruct (split c s).
Qed.

Lemma split_whole_app (s t : string) :
  split sep s = [s] → split sep t = [t] → split sep (s +:+ t) = [s +:+ t].
Proof.
  intros Hs Ht. induction s as [|a s IH]; simpl in *; [done|].
  destruct (Ascii.eqb a sep); [by inversion Hs|].
  pose proof (split_nonempty sep s) as Hne.
  destruct (split sep s) as [|h [|??]] eqn:E; try done.
  injection Hs as ->. by rewrite IH.
Qed.

Lemma step_name (base : path) (s : string) :
  s ≠ "" → s ≠ "." → s ≠ ".." → step base s = base ++ [s].
Proof.
  intros H1 H2 H3. unfold step.
  destruct (String.eqb_spec s ""); [done|].
  destruct (String.eqb_spec s "."); [done|].
  by destruct (String.eqb_spec s "..").
Qed.

Lemma join_plain (base : path) (h : string) :
  plain_name h → join base h = base ++ [h].
Proof.
  intros (Hs & H1 & H2 & H3). unfold join. rewrite Hs. simpl.
  by apply step_name.
Qed.

Lemma join_plain_suffix (base : path) (h : string) :
  plain_name h → join base (h +:+ ".commit") = base ++ [h +:+ ".commit"].
Proof.
  intros (Hs & _). unfold join.
  rewrite (split_whole_app h ".commit" Hs eq_refl). simpl.
  apply step_name; by destruct h as [|a [|b [|c h]]].
Qed.

Lemma fold_step_rel_None (segs : list string) :
  fold_left step_rel segs None = None.
Proof. by induction segs. Qed.

Lemma fold_step_confined (segs : list string) (base r0 r : path) :
  fold_left step_rel segs (Some r0) = Some r →
  fold_left step segs (base ++ r0) = base ++ r.
Proof.
  revert r0. induction segs as [|seg segs IH]; intros r0; simpl.
  - by intros [= ->].
  - unfold step. destruct (String.eqb seg ""); [apply IH|].
    destruct (String.eqb seg "."); [apply IH|].
    destruct (String.eqb seg "..").
    + destruct r0 as [|x r0]; [by rewrite fold_step_rel_None|].
      intros H. rewrite removelast_app by done. by apply IH.
    + intros H. rewrite <- (assoc_L (++)). by apply IH.
Qed.

Lemma join_confined (base : path) (f : string) (r : path) :
  relpath f = Some r → join base f = base ++ r.
Proof.
  intros H. unfold join.
  rewrite <- (app_nil_r base) at 1. by apply fold_step_confined.
Qed.

Lemma resolve_parent (p : path) : resolve p ".." = dirname p.
Proof. reflexivity. Qed.

(** A path on the branch of [td]: below it or above it. *)
Lemma prefix_of_branch (td x q : path) :
  q `prefix_of` td ++ x → td `prefix_of` q ∨ q `prefix_of` td.
Proof.
  intros Hq. destruct (prefix_weak_total td q (td ++ x)); auto.
  by apply prefix_app_r.
Qed.


End PathFacts.

(** ** The file system *)

Section FsFacts.
Implicit Types (fs : gmap path node) (p q src dest : path) (n : node).

Lemma lookup_prune fs p q :
  prune fs p !! q = if decide (p `prefix_of` q) then None else fs !! q.
Proof.
  unfold prune. case_decide as Hp.
  - apply map_lookup_filter_None. right. intros n _ Hn. by apply Hn.
  - destruct (fs !! q) as [n|] eqn:E.
    + by apply map_lookup_filter_Some.
    + apply map_lookup_filter_None. by left.
Qed.

Lemma remove_Ok fs p slash fs' :
  remove fs p slash = Ok fs' → fs' = prune fs p.
Proof.
  unfold remove. destruct (fs !! p) as [[]|]; [destruct slash|..];
    try done; by intros [= <-].
Qed.

Lemma remove_plain fs p : remove fs p false = Ok (prune fs p).
Proof. unfold remove. by destruct (fs !! p) as [[]|]. Qed.

Lemma exists_None fs p slash : fs !! p = None → exists_ fs p slash = false.
Proof. unfold exists_. by intros ->. Qed.

Lemma exists_lookup fs p slash :
  exists_ fs p slash = true → is_Some (fs !! p).
Proof. unfold exists_. destruct (fs !! p); [by eexists|done]. Qed.

Lemma exists_plain fs p : exists_ fs p false = bool_decide (is_Some (fs !! p)).
Proof.
  unfold exists_. destruct (fs !! p) as [[]|] eqn:E; symmetry.
  - by apply bool_decide_eq_true.
  - by apply bool_decide_eq_true.
  - apply bool_decide_eq_false. by intros [??].
Qed.

Lemma mkdirs_from_keeps base rest fs fs' :
  mkdirs_from base rest fs = Ok fs' →
  ∀ q n, fs !! q = Some n → fs' !! q = Some n.
Proof.
  revert base fs. induction rest as [|x rest IH]; intros base fs; simpl.
  - destruct (fs !! base) as [[c|]|] eqn:E; intros [= <-] q n Hq; try done.
    rewrite lookup_insert_ne; [done|]. intros ->. congruence.
  - destruct (fs !! base) as [[c|]|] eqn:E; [done| |]; intros H q n Hq.
    + by eapply IH.
    + eapply IH; [done|]. rewrite lookup_insert_ne; [done|].
      intros ->. congruence.
Qed.

Lemma mkdirs_from_adds base rest fs fs' :
  mkdirs_from base rest fs = Ok fs' →
  ∀ q n, fs' !! q = Some n →
    fs !! q = Some n ∨
    (n = Dir ∧ fs !! q = None ∧ base `prefix_of` q ∧ q `prefix_of` base ++ rest).
Proof.
  revert base fs. induction rest as [|x rest IH]; intros base fs; simpl.
  - destruct (fs !! base) as [[c|]|] eqn:E; intros [= <-] q n Hq; auto.
    destruct (decide (base = q)) as [<-|Hne].
    + rewrite lookup_insert_eq in Hq. injection Hq as <-.
      right. rewrite app_nil_r. done.
    + rewrite lookup_insert_ne in Hq by done. by left.
  - destruct (fs !! base) as [[c|]|] eqn:E; [done| |]; intros H q n Hq.
    + destruct (IH _ _ H q n Hq) as [?|(-> & ? & Hb & Hq')]; [by left|].
      right. rewrite <- (assoc_L (++)) in Hq'. repeat split; try done.
      by eapply prefix_app_l.
    + destruct (IH _ _ H q n Hq) as [Hq1|(-> & Hq1 & Hb & Hq')].
      * destruct (decide (base = q)) as [<-|Hne].
        -- rewrite lookup_insert_eq in Hq1. injection Hq1 as <-.
           right. repeat split; try done. by apply prefix_app_r.
        -- rewrite lookup_insert_ne in Hq1 by done. by left.
      * right. rewrite <- (assoc_L (++)) in Hq'.
        destruct (decide (base = q)) as [<-|Hne].
        -- by rewrite lookup_insert_eq in Hq1.
        -- rewrite lookup_insert_ne in Hq1 by done.
           repeat split; try done. by eapply prefix_app_l.
Qed.

Lemma ensureDir_keeps fs p fs' :
  ensureDir fs p = Ok fs' → ∀ q n, fs !! q = Some n → fs' !! q = Some n.
Proof. apply mkdirs_from_keeps. Qed.

Lemma ensureDir_adds fs p fs' :
  ensureDir fs p = Ok fs' →
  ∀ q n, fs' !! q = Some n →
    fs !! q = Some n ∨ (n = Dir ∧ fs !! q = None ∧ q `prefix_of` p).
Proof.
  intros H q n Hq.
  destruct (mkdirs_from_adds _ _ _ _ H q n Hq) as [?|(?&?&?&?)]; auto.
Qed.

Lemma elem_of_subtree fs src rel n :
  (rel, n) ∈ subtree fs src ↔ fs !! (src ++ rel) = Some n.
Proof.
  unfold subtree. rewrite list_elem_of_omap. split.
  - intros ([q m] & Hin & Hs). apply elem_of_map_to_list in Hin.
    simpl in Hs. destruct (strip src q) as [r|] eqn:E; [|done].
    injection Hs as -> ->. apply strip_Some in E. by subst.
  - intros H. exists (src ++ rel, n). split.
    + by apply elem_of_map_to_list.
    + simpl. by rewrite strip_app.
Qed.

Lemma lookup_graft fs src dest k :
  graft dest (subtree fs src) !! k =
  match strip dest k with
  | Some rel => fs !! (src ++ rel)
  | None => None
  end.
Proof.
  unfold graft. destruct (strip dest k) as [rel|] eqn:E.
  - apply strip_Some in E as ->.
    destruct (fs !! (src ++ rel)) as [n|] eqn:En.
    + apply elem_of_list_to_map_1'.
      * intros m Hm. apply list_elem_of_fmap in Hm as ([r' n'] & Heq & Hin).
        simpl in Heq. injection Heq as Hr ->. apply app_inv_head in Hr as <-.
        apply elem_of_subtree in Hin. congruence.
      * apply list_elem_of_fmap. exists (rel, n). split; [done|].
        by apply elem_of_subtree.
    + apply not_elem_of_list_to_map_1. intros Hin.
      apply list_elem_of_fmap in Hin as ([k' m] & Hk & Hin); simpl in Hk; subst k'.
      apply list_elem_of_fmap in Hin as ([r' n'] & Heq & Hin).
      simpl in Heq. injection Heq as Hr ->. apply app_inv_head in Hr as <-.
      apply elem_of_subtree in Hin. congruence.
  - apply not_elem_of_list_to_map_1. intros Hin.
    apply list_elem_of_fmap in Hin as ([k' m] & Hk & Hin); simpl in Hk; subst k'.
    apply list_elem_of_fmap in Hin as ([r' n'] & Heq & Hin).
    simpl in Heq. injection Heq as -> ->. by rewrite strip_app in E.
Qed.

Lemma copy_lookup fs src dest ss ds fs' :
  copy fs src dest ss ds = Ok fs' →
  ∃ fs1, ensureDir fs (dirname dest) = Ok fs1 ∧
    ∀ k, fs' !! k =
         match strip dest k with
         | Some rel => match fs1 !! (src ++ rel) with
                       | Some n => Some n
                       | None => fs1 !! k
                       end
         | None => fs1 !! k
         end.
Proof.
  unfold copy. destruct (fs !! src) as [sn|]; [|done].
  destruct (ss && _); [done|]. destruct (ds && _); [done|].
  destruct (ds && _ && _); [done|].
  case_bool_decide; [done|]. destruct (clashes _ _ _); [done|].
  destruct (_ && _); [done|].
  destruct (ensureDir fs (dirname dest)) as [fs1|]; [|done].
  destruct (existsb _ _); [done|]. intros [= <-].
  exists fs1. split; [done|]. intros k.
  rewrite lookup_union, lookup_graft.
  destruct (strip dest k) as [rel|].
  - destruct (fs1 !! (src ++ rel)); by destruct (fs1 !! k).
  - by destruct (fs1 !! k).
Qed.
(** A copy that goes through found no entry of the other kind at its
    destination. *)
Lemma copy_kind fs src dest ss ds fs' sn m :
  copy fs src dest ss ds = Ok fs' →
  fs !! src = Some sn → fs !! dest = Some m → is_dir m = is_dir sn.
Proof.
  unfold copy. intros H Hs Hd. rewrite Hs in H.
  destruct (ss && _); [done|]. destruct (ds && _); [done|].
  destruct (ds && _ && _); [done|].
  case_bool_decide; [done|].
  unfold clashes in H at 1. simpl in H. rewrite app_nil_r, Hd in H.
  destruct m, sn; simpl in *; done.
Qed.

Lemma lstat_isFile_false fs p slash :
  lstat_isFile fs p slash = Ok false → fs !! p = Some Dir.
Proof.
  unfold lstat_isFile. destruct (fs !! p) as [[]|]; [destruct slash|..];
    done.
Qed.

Lemma well_formedb_correct fs : well_formedb fs = true → well_formed fs.
Proof.
  unfold well_formedb. intros H p n Hp q [x Hq] Hne.
  rewrite forallb_forall in H.
  specialize (H (p, n)). simpl in H. rewrite forallb_forall in H.
  assert (Hin : In q (ancestors p)).
  { apply list_elem_of_In. unfold ancestors. apply list_elem_of_fmap.
    exists (length q). subst p. split; [by rewrite take_app_length|].
    apply list_elem_of_In, in_seq. rewrite length_app.
    destruct x; [by rewrite app_nil_r in Hne|]. simpl. lia. }
  specialize (H ltac:(by apply list_elem_of_In, elem_of_map_to_list) q Hin).
  by destruct (fs !! q) as [[]|].
Qed.

Lemma writeFile_Ok fs p data fs' :
  writeFile fs p data = Ok fs' → fs' = <[p := File data]> fs.
Proof.
  unfold writeFile. destruct (fs !! p) as [[]|]; try done;
    destruct (parent_error fs p); try done; by intros [= <-].
Qed.

Lemma mkdir_Ok fs p fs' :
  mkdir fs p = Ok fs' → fs' = <[p := Dir]> fs.
Proof.
  unfold mkdir. destruct (fs !! p); [done|].
  destruct (parent_error fs p); [done|]. by intros [= <-].
Qed.
End FsFacts.

(** ** Runs of the monad *)

Section RunFacts.
Context {R : Type}.
Implicit Types (w : world R) (fs : gmap path node).

Lemma bind_run {A B} (m : M R A) (k : A → M R B) w :
  (m ≫= k) w = match m w with
               | (Ok a, w') => k a w'
               | (Err e, w') => (Err e, w')
               end.
Proof. reflexivity. Qed.

Lemma bind_Ok {A B} (m : M R A) (k : A → M R B) w b w' :
  (m ≫= k) w = (Ok b, w') ↔
  ∃ a w1, m w = (Ok a, w1) ∧ k a w1 = (Ok b, w').
Proof.
  rewrite bind_run. destruct (m w) as [[a|e] w1]; split.
  - intros H. by exists a, w1.
  - by intros (? & ? & [= <- <-] & ?).
  - done.
  - by intros (? & ? & ? & ?).
Qed.

Lemma update_Ok (ev : event) f w u w' :
  update ev f w = (Ok u, w') ↔
  ∃ fs', f (files w) = Ok fs' ∧ w' = logged ev w fs'.
Proof.
  unfold update. destruct (f (files w)) as [fs'|e]; split.
  - intros [= <-]. by exists fs'.
  - intros (? & [= <-] & ->). by destruct u.
  - done.
  - by intros (? & ? & ?).
Qed.

Lemma query_Ok {A} (ev : event) (f : gmap path node → outcome A) w (a : A) w' :
  query ev f w = (Ok a, w') ↔ f (files w) = Ok a ∧ w' = logged ev w (files w).
Proof.
  unfold query. split.
  - by intros [= -> <-].
  - by intros [-> ->].
Qed.

Lemma ret_Ok {A} (a b : A) w w' :
  (mret a : M R A) w = (Ok b, w') ↔ a = b ∧ w' = w.
Proof.
  split.
  - by intros [= -> ->].
  - by intros [-> ->].
Qed.
End RunFacts.

(** Two paths that part ways after a common start, or that differ in
    length, are different. *)
Ltac path_neq :=
  let Heq := fresh "Heq" in
  intros Heq;
  first
    [ rewrite <- ?(assoc_L (++)) in Heq;
      apply app_inv_head in Heq; simpl in Heq; congruence
    | apply (f_equal length) in Heq; rewrite ?length_app in Heq;
      simpl in Heq; lia ].

(** ** What a successful [put] leaves on disk *)

Section PutFacts.
Context {R : Type}.
Variables root cachePath : path.
Implicit Types (w : world R) (fs : gmap path node) (td : path).

Lemma join_name (base : path) : join base "outputs" = base ++ ["outputs"].
Proof. reflexivity. Qed.

(** What one round of the loop of [put] does when it goes through. *)
Lemma put_output_Ok td f w w' :
  put_output root td f w = (Ok tt, w') →
  let src := join root f in
  let cached := join (join td "outputs") f in
  remote_state w' = remote_state w ∧
  (exists_ (files w) src (ends_sep f) = false ∧ files w' = files w ∨
   exists_ (files w) src (ends_sep f) = true ∧
   ∃ isFile fsa,
     lstat_isFile (files w) src (ends_sep f) = Ok isFile ∧
     ensureDir (files w) (if isFile : bool then dirname cached else cached)
       = Ok fsa ∧
     copy fsa src cached (ends_sep f) (ends_sep f) = Ok (files w')).
Proof.
  intros H src cached. unfold put_output in H. fold src cached in H.
  unfold existsAsync, lstatAsync_isFile, ensureDirAsync, copyAsync in H.
  apply bind_Ok in H as (present & w1 & Hex & H).
  apply query_Ok in Hex as [[= <-] ->].
  destruct (exists_ (files w) src (ends_sep f)) eqn:Esrc.
  2:{ apply ret_Ok in H as [_ ->]. simpl. split; [done|]. by left. }
  apply bind_Ok in H as (isFile & w2 & Hst & H).
  apply query_Ok in Hst as [Hst ->].
  apply bind_Ok in H as ([] & w3 & Hen & H).
  apply update_Ok in Hen as (fsa & Hen & ->).
  apply update_Ok in H as (fsb & Hcp & ->). simpl in *.
  split; [done|]. right. split; [done|]. exists isFile, fsa.
  split; [done|]. split; [|done].
  rewrite <- Hen. by destruct isFile.
Qed.

Lemma put_output_spec td f r w w' :
  relpath f = Some r →
  put_output root td f w = (Ok tt, w') →
  remote_state w' = remote_state w ∧
  (∀ k n, files w !! k = Some n → ¬ td ++ ["outputs"] `prefix_of` k →
          files w' !! k = Some n).
Proof.
  intros Hr H. apply put_output_Ok in H as [H1 H]. split; [done|].
  rewrite (join_confined root f r Hr), join_name in H.
  rewrite (join_confined _ f r Hr) in H.
  destruct H as [[_ ->]|(_ & isFile & fsa & _ & Hen & Hcp)]; [done|].
  apply copy_lookup in Hcp as (fs1 & Hen1 & Hlk).
  intros k n Hk Hout. rewrite Hlk.
  destruct (strip _ k) as [rel|] eqn:E.
  - apply strip_Some in E as ->. destruct Hout.
    by do 2 apply prefix_app_r.
  - eapply ensureDir_keeps; [exact Hen1|].
    eapply ensureDir_keeps; [exact Hen|done].
Qed.

Lemma put_outputs_spec td outputs w w' :
  Forall confined outputs →
  put_outputs root td outputs w = (Ok tt, w') →
  remote_state w' = remote_state w ∧
  (∀ k n, files w !! k = Some n → ¬ td ++ ["outputs"] `prefix_of` k →
          files w' !! k = Some n).
Proof.
  intros Hconf. revert w.
  induction Hconf as [|f rest [r0 Hr0] Hrest IH]; intros w H; simpl in H.
  - apply ret_Ok in H as [_ ->]. by split.
  - apply bind_Ok in H as ([] & w1 & Hstep & H).
    destruct (put_output_spec _ _ _ _ _ Hr0 Hstep) as (S1 & SA).
    destruct (IH _ H) as (I1 & IA).
    split; [congruence|].
    intros k n Hk Hout. apply IA; [|done]. by apply SA.
Qed.

Lemma join_terminalOutput (base : path) :
  join base "terminalOutput" = base ++ ["terminalOutput"].
Proof. reflexivity. Qed.

Lemma join_code (base : path) : join base "code" = base ++ ["code"].
Proof. reflexivity. Qed.

(** A plain name has no separator, at its end or elsewhere. *)
Lemma split_ends_sep (s : string) :
  ends_sep s = true → ∃ x y rest, split sep s = x :: y :: rest.
Proof.
  induction s as [|a s IH]; [done|].
  destruct s as [|b s].
  - simpl. intros ->. by eexists _, _, _.
  - intros Hs.
    change (ends_sep (String a (String b s)))
      with (ends_sep (String b s)) in Hs.
    destruct (IH Hs) as (x & y & rest & E).
    change (split sep (String a (String b s)))
      with (if Ascii.eqb a sep then "" :: split sep (String b s)
            else match split sep (String b s) with
                 | h :: t => String a h :: t
                 | [] => [String a ""]
                 end).
    rewrite E. destruct (Ascii.eqb a sep); by eexists _, _, _.
Qed.

Lemma plain_ends_sep (h : string) : plain_name h → ends_sep h = false.
Proof.
  intros (Hs & _). destruct (ends_sep h) eqn:E; [|done].
  apply split_ends_sep in E as (x & y & rest & E). congruence.
Qed.

(** The steps of [put] before its loop, and the state they leave. *)
Lemma put_front_Ok task text outputs code w w' :
  plain_name (hash task) →
  put root cachePath None task text outputs code w = (Ok tt, w') →
  let td := cachePath ++ [hash task] in
  let marker := cachePath ++ [hash task +:+ ".commit"] in
  let start :=
    <[td ++ ["outputs"] := Dir]>
      (<[td ++ ["terminalOutput"] :=
           File (default "no terminal output" text)]>
         (<[td := Dir]> (prune (prune (files w) marker) td))) in
  prune (prune (files w) marker) td !! cachePath = Some Dir ∧
  ∃ w0 wf,
    files w0 = start ∧ remote_state w0 = remote_state w ∧
    put_outputs root td outputs w0 = (Ok tt, wf) ∧
    remote_state w' = remote_state wf ∧
    files w' = <[marker := File "true"]>
                 (<[td ++ ["code"] := File (toString code)]> (files wf)).
Proof.
  intros Hplain H td marker start. unfold put, entryDir, commitMarker in H.
  rewrite (join_plain _ _ Hplain), (join_plain_suffix _ _ Hplain) in H.
  rewrite join_terminalOutput, join_code, join_name in H.
  rewrite (plain_ends_sep _ Hplain) in H.
  fold td marker in H.
  unfold removeAsync, mkdirAsync, writeFileAsync in H.
  apply bind_Ok in H as ([] & wa & Ha & H).
  apply update_Ok in Ha as (fsa & ->%remove_Ok & ->).
  apply bind_Ok in H as ([] & wb & Hb & H).
  apply update_Ok in Hb as (fsb & ->%remove_Ok & ->).
  apply bind_Ok in H as ([] & wc & Hc & H).
  apply update_Ok in Hc as (fsc & Hmk & ->).
  assert (Hroot : prune (prune (files w) marker) td !! cachePath = Some Dir).
  { simpl in Hmk. unfold mkdir, parent_error in Hmk.
    destruct (_ !! td); [done|]. unfold td, dirname in Hmk.
    rewrite removelast_last in Hmk.
    by destruct (_ !! cachePath) as [[]|]. }
  apply mkdir_Ok in Hmk as ->.
  apply bind_Ok in H as ([] & wd & Hd & H).
  apply update_Ok in Hd as (fsd & ->%writeFile_Ok & ->).
  apply bind_Ok in H as ([] & we & He & H).
  apply update_Ok in He as (fse & ->%mkdir_Ok & ->).
  apply bind_Ok in H as ([] & wf & Hloop & H).
  apply bind_Ok in H as ([] & wg & Hg & H).
  apply update_Ok in Hg as (fsg & ->%writeFile_Ok & ->).
  apply bind_Ok in H as ([] & wh & Hh & H).
  apply update_Ok in Hh as (fsh & ->%writeFile_Ok & ->).
  apply ret_Ok in H as [_ ->].
  split; [done|]. eexists _, wf. split; [|split; [|split; [exact Hloop|]]];
    done.
Qed.

Lemma put_local_spec task text outputs code w w' :
  plain_name (hash task) →
  Forall confined outputs →
  put root cachePath None task text outputs code w = (Ok tt, w') →
  let td := cachePath ++ [hash task] in
  let marker := cachePath ++ [hash task +:+ ".commit"] in
  remote_state w' = remote_state w ∧
  files w' !! marker = Some (File "true") ∧
  files w' !! (td ++ ["terminalOutput"]) =
    Some (File (default "no terminal output" text)) ∧
  files w' !! (td ++ ["code"]) = Some (File (toString code)).
Proof.
  intros Hplain Hconf H td marker.
  destruct (put_front_Ok _ _ _ _ _ _ Hplain H)
    as (_ & w0 & wf & Hw0 & Hr0 & Hloop & Hr & ->).
  fold td marker in Hw0, Hloop |- *.
  destruct (put_outputs_spec _ _ _ _ Hconf Hloop) as (L1 & LA).
  split; [congruence|]. split; [by rewrite lookup_insert_eq|].
  split.
  - rewrite lookup_insert_ne by (subst td marker; path_neq).
    rewrite lookup_insert_ne by path_neq.
    apply LA.
    + rewrite Hw0.
      rewrite lookup_insert_ne by path_neq. by rewrite lookup_insert_eq.
    + intros [x Hx]. revert Hx. path_neq.
  - rewrite lookup_insert_ne by (subst td marker; path_neq).
    by rewrite lookup_insert_eq.
Qed.
End PutFacts.

(** ** The copies under [outputs/] mirror the workspace *)

Section Mirror.
Context {R : Type}.
Variables root : path.
Implicit Types (w : world R) (fs : gmap path node) (td : path).

(** One round of the loop keeps the outputs directory a mirror of the
    workspace as it was when the loop started ([fs0]). *)
Lemma put_output_mirror td f r fs0 w w' :
  let O := td ++ ["outputs"] in
  relpath f = Some r →
  apart td (root ++ r) →
  directory_at fs0 td →
  (is_Some (fs0 !! (root ++ r)) →
   ∀ q, q `prefix_of` root ++ r → q ≠ root ++ r → fs0 !! q = Some Dir) →
  (∀ k, ¬ O `prefix_of` k → files w !! k = fs0 !! k) →
  files w !! O = Some Dir →
  (∀ q n, q ≠ [] → files w !! (O ++ q) = Some n →
          fs0 !! (root ++ q) = Some n) →
  put_output root td f w = (Ok tt, w') →
  remote_state w' = remote_state w ∧
  (∀ k, ¬ O `prefix_of` k → files w' !! k = fs0 !! k) ∧
  files w' !! O = Some Dir ∧
  (∀ q n, q ≠ [] → files w' !! (O ++ q) = Some n →
          fs0 !! (root ++ q) = Some n) ∧
  (∀ q n, files w !! (O ++ q) = Some n → fs0 !! (root ++ q) = Some n →
          files w' !! (O ++ q) = Some n) ∧
  (exists_ fs0 (root ++ r) (ends_sep f) = true →
   ∀ rel n, fs0 !! ((root ++ r) ++ rel) = Some n →
            files w' !! ((O ++ r) ++ rel) = Some n).
Proof.
  intros O Hr [Htd1 Htd2] HW HAnc HA HD HB H.
  assert (Hout : ∀ x, ¬ O `prefix_of` (root ++ r) ++ x).
  { intros x Hp. apply (prefix_of_app_apart td (root ++ r) x Htd1 Htd2).
    etrans; [|exact Hp]. by apply prefix_app_r. }
  assert (Hsrc : files w !! (root ++ r) = fs0 !! (root ++ r)).
  { apply HA. specialize (Hout []). by rewrite app_nil_r in Hout. }
  apply put_output_Ok in H as [H1 H].
  rewrite (join_confined root f r Hr), join_name in H.
  rewrite (join_confined _ f r Hr) in H. fold O in H.
  split; [done|].
  destruct H as [[Hex ->]|(Hex & isFile & fsa & Hst & Hen & Hcp)].
  { split; [done|]. split; [done|]. split; [done|]. split; [done|].
    unfold exists_ in *. rewrite <- Hsrc. by rewrite Hex. }
  pose proof Hcp as Hkind.
  apply copy_lookup in Hcp as (fs1 & Hen1 & Hlk).
  assert (Hkeep : ∀ k n, files w !! k = Some n → fs1 !! k = Some n).
  { intros k n Hk. eapply ensureDir_keeps; [exact Hen1|].
    eapply ensureDir_keeps; [exact Hen|done]. }
  assert (Hdirs : ∀ q, q `prefix_of` O → files w !! q = Some Dir).
  { intros q [x Hq]. destruct x as [|a x] using rev_ind.
    - rewrite app_nil_r in Hq. by subst q.
    - clear IHx. unfold O in Hq. rewrite (assoc_L (++)) in Hq.
      apply app_inj_tail in Hq as [-> _].
      rewrite HA; [apply HW; by apply prefix_app_r|].
      intros [y Hy]. apply (f_equal length) in Hy.
      unfold O in Hy. rewrite !length_app in Hy. simpl in Hy. lia. }
  assert (Hnew : ∀ k n, fs1 !! k = Some n →
            files w !! k = Some n ∨
            (n = Dir ∧ ∃ x, k = O ++ x ∧ x ≠ [] ∧ x `prefix_of` r ∧
                            (x = r → isFile = false))).
  { intros k n Hk.
    assert (Hcase : files w !! k = Some n ∨
              (n = Dir ∧ files w !! k = None ∧
               (k `prefix_of` dirname (O ++ r)
                ∨ k `prefix_of`
                    (if isFile then dirname (O ++ r) else O ++ r)))).
    { destruct (ensureDir_adds _ _ _ Hen1 k n Hk) as [Ha|(-> & Ha & Hq)].
      - destruct (ensureDir_adds _ _ _ Hen k n Ha) as [?|(-> & ? & Hq)];
          [by left|]. right. auto.
      - right. split; [done|]. split; [|by left].
        destruct (files w !! k) as [m|] eqn:E; [|done].
        rewrite (ensureDir_keeps _ _ _ Hen _ _ E) in Ha. done. }
    destruct Hcase as [?|(-> & Hnone & Hq)]; [by left|]. right.
    split; [done|].
    assert (Hq' : k `prefix_of` O ++ r).
    { destruct Hq as [Hq|Hq]; [|destruct isFile]; try done;
        (etrans; [exact Hq|]); unfold dirname;
        destruct r as [|a r'] using rev_ind;
        rewrite ?app_nil_r; try (unfold O; rewrite removelast_last;
                                 by apply prefix_app_r);
        rewrite (assoc_L (++)), removelast_last; by apply prefix_app_r. }
    destruct (prefix_of_branch O r k Hq') as [[x ->]|Hk'].
    2:{ rewrite (Hdirs _ Hk') in Hnone. done. }
    exists x. split; [done|].
    split; [intros ->; rewrite app_nil_r, HD in Hnone; done|].
    split; [by apply prefix_app_inv in Hq'|].
    intros ->. destruct isFile; [exfalso|done].
    assert (Hd : O ++ r `prefix_of` dirname (O ++ r)) by (by destruct Hq).
    destruct Hd as [y Hy]. apply (f_equal length) in Hy.
    assert (r ≠ []).
    { intros ->. rewrite app_nil_r, HD in Hnone. done. }
    unfold dirname in Hy. destruct r as [|a r'] using rev_ind; [done|].
    rewrite (assoc_L (++)), removelast_last in Hy.
    rewrite !length_app in Hy. simpl in Hy. lia. }
  assert (Hsame : ∀ k, ¬ O `prefix_of` k → fs1 !! k = files w !! k).
  { intros k Hk. destruct (fs1 !! k) as [n|] eqn:E.
    - destruct (Hnew _ _ E) as [?|(_ & x & -> & _)]; [done|].
      destruct Hk. by apply prefix_app_r.
    - destruct (files w !! k) as [m|] eqn:E'; [|done].
      by rewrite (Hkeep _ _ E') in E. }
  assert (Hmirror : ∀ q n, q ≠ [] → fs1 !! (O ++ q) = Some n →
            fs0 !! (root ++ q) = Some n).
  { intros q n Hq Hk.
    destruct (Hnew _ _ Hk) as [?|(-> & x & Hx & _ & Hpre & Hfile)];
      [by eapply HB|].
    apply app_inv_head in Hx as <-.
    assert (Hs : is_Some (fs0 !! (root ++ r))).
    { rewrite <- Hsrc. by eapply exists_lookup. }
    destruct (decide (q = r)) as [->|Hne].
    - rewrite <- Hsrc. eapply lstat_isFile_false.
      by rewrite Hst, Hfile.
    - apply HAnc; [done|by apply prefix_app|].
      by intros ?%app_inv_head. }
  split; [|split; [|split; [|split]]].
  - intros k Hk. rewrite Hlk.
    assert (strip (O ++ r) k = None) as ->.
    { apply strip_None. intros Hp. apply Hk. etrans; [|exact Hp].
      by apply prefix_app_r. }
    rewrite Hsame by done. by apply HA.
  - rewrite Hlk. destruct (strip (O ++ r) O) as [rel|] eqn:E.
    + apply strip_Some in E.
      assert (r = [] ∧ rel = []) as [-> ->].
      { rewrite <- (assoc_L (++)) in E. rewrite <- (app_nil_r O) in E at 1.
        apply app_inv_head in E. symmetry in E.
        by apply app_eq_nil in E. }
      rewrite !app_nil_r in *.
      destruct (exists_lookup _ _ _ Hex) as [sn Hsn].
      rewrite (Hkeep _ _ Hsn).
      pose proof (ensureDir_keeps _ _ _ Hen _ _ Hsn) as Hs1.
      pose proof (ensureDir_keeps _ _ _ Hen _ _ HD) as Hd1.
      pose proof (copy_kind _ _ _ _ _ _ _ _ Hkind Hs1 Hd1) as Hk.
      destruct sn; [done|done].
    + by apply Hkeep.
  - intros q n Hq. rewrite Hlk.
    destruct (strip (O ++ r) (O ++ q)) as [rel|] eqn:E.
    + apply strip_Some in E. rewrite <- (assoc_L (++)) in E.
      apply app_inv_head in E as ->.
      destruct (fs1 !! ((root ++ r) ++ rel)) as [m|] eqn:E1.
      * intros [= <-]. rewrite Hsame in E1 by done.
        rewrite HA in E1 by done. by rewrite (assoc_L (++)).
      * by apply Hmirror.
    + by apply Hmirror.
  - intros q n Hq H0. rewrite Hlk.
    destruct (strip (O ++ r) (O ++ q)) as [rel|] eqn:E.
    + apply strip_Some in E. rewrite <- (assoc_L (++)) in E.
      apply app_inv_head in E as ->.
      rewrite Hsame by done. rewrite HA by done.
      rewrite (assoc_L (++)) in H0. by rewrite H0.
    + by apply Hkeep.
  - intros _ rel n Hk. rewrite Hlk, strip_app.
    rewrite Hsame by done. rewrite HA by done. by rewrite Hk.
Qed.
End Mirror.

Section MirrorLoop.
Context {R : Type}.
Variables root cachePath : path.
Implicit Types (w : world R) (fs : gmap path node) (td : path).

Lemma put_outputs_mirror td fs0 outputs w w' :
  let O := td ++ ["outputs"] in
  directory_at fs0 td →
  Forall (λ f, ∃ r, relpath f = Some r ∧ apart td (root ++ r) ∧
                    (is_Some (fs0 !! (root ++ r)) →
                     ∀ q, q `prefix_of` root ++ r → q ≠ root ++ r →
                          fs0 !! q = Some Dir)) outputs →
  (∀ k, ¬ O `prefix_of` k → files w !! k = fs0 !! k) →
  files w !! O = Some Dir →
  (∀ q n, q ≠ [] → files w !! (O ++ q) = Some n →
          fs0 !! (root ++ q) = Some n) →
  put_outputs root td outputs w = (Ok tt, w') →
  remote_state w' = remote_state w ∧
  (∀ k, ¬ O `prefix_of` k → files w' !! k = fs0 !! k) ∧
  (∀ q n, q ≠ [] → files w' !! (O ++ q) = Some n →
          fs0 !! (root ++ q) = Some n) ∧
  (∀ q n, files w !! (O ++ q) = Some n → fs0 !! (root ++ q) = Some n →
          files w' !! (O ++ q) = Some n) ∧
  (∀ f r, f ∈ outputs → relpath f = Some r →
     exists_ fs0 (root ++ r) (ends_sep f) = true →
     ∀ rel n, fs0 !! ((root ++ r) ++ rel) = Some n →
              files w' !! ((O ++ r) ++ rel) = Some n).
Proof.
  intros O HW Hall. revert w.
  induction Hall as [|f rest (r0 & Hr0 & Hap & Hanc) _ IH];
    intros w HA HD HB H; simpl in H.
  - apply ret_Ok in H as [_ ->]. repeat split; try done.
    intros f r Hf. by apply elem_of_nil in Hf.
  - apply bind_Ok in H as ([] & w1 & Hstep & H).
    destruct (put_output_mirror root td f r0 fs0 w w1
                Hr0 Hap HW Hanc HA HD HB Hstep)
      as (S1 & SA & SD & SB & SP & SF).
    destruct (IH w1 SA SD SB H) as (I1 & IA & IB & IP & IF).
    split; [congruence|]. split; [done|]. split; [done|]. split.
    + intros q n Hq H0. apply IP; [|done]. by apply SP.
    + intros f' r Hf' Hr Hex rel n Hk.
      apply elem_of_cons in Hf' as [->|Hf']; [|by eapply IF].
      assert (r = r0) as -> by congruence.
      rewrite <- (assoc_L (++) O). apply IP.
      * rewrite (assoc_L (++)). by apply SF.
      * by rewrite (assoc_L (++)).
Qed.

(** What the local steps of [put] leave, for outputs that are apart from
    the entry being written. *)
Lemma put_local_content task text outputs code w w1 :
  let td := entryDir cachePath (hash task) in
  let marker := commitMarker cachePath (hash task) in
  plain_name (hash task) →
  well_formed (files w) →
  Forall (λ f, confined f ∧ apart td (join root f) ∧
               ¬ marker `prefix_of` join root f) outputs →
  put root cachePath None task text outputs code w = (Ok tt, w1) →
  remote_state w1 = remote_state w ∧
  files w1 !! marker = Some (File "true") ∧
  files w1 !! join td "terminalOutput" =
    Some (File (default "no terminal output" text)) ∧
  files w1 !! join td "code" = Some (File (toString code)) ∧
  ∀ f, f ∈ outputs →
    exists_ (files w) (join root f) (ends_sep f) = true →
    ∀ rel, files w1 !! (join (join td "outputs") f ++ rel)
           = files w !! (join root f ++ rel).
Proof.
  intros td marker Hplain Hwf Hall H.
  assert (Hconf : Forall confined outputs).
  { eapply Forall_impl; [exact Hall|]. by intros f [? _]. }
  destruct (put_local_spec root cachePath _ _ _ _ _ _ Hplain Hconf H)
    as (L1 & Lm & Lt & Lc).
  destruct (put_front_Ok root cachePath _ _ _ _ _ _ Hplain H)
    as (Hroot & w0 & wf & Hw0 & Hrs0 & Hloop & Hrs & Hfiles).
  unfold td, marker, entryDir, commitMarker in *.
  rewrite (join_plain _ _ Hplain), (join_plain_suffix _ _ Hplain) in *.
  rewrite join_terminalOutput, join_code, join_name.
  clear td marker.
  set (td := cachePath ++ [hash task]) in *.
  set (marker := cachePath ++ [hash task +:+ ".commit"]) in *.
  split; [done|]. split; [done|]. split; [done|]. split; [done|].
  set (base := prune (prune (files w) marker) td) in *.
  assert (Hbase : ∀ k, ¬ td `prefix_of` k → ¬ marker `prefix_of` k →
            files w0 !! k = files w !! k).
  { intros k Hk1 Hk2. rewrite Hw0.
    rewrite lookup_insert_ne
      by (intros <-; apply Hk1; by apply prefix_app_r).
    rewrite lookup_insert_ne
      by (intros <-; apply Hk1; by apply prefix_app_r).
    rewrite lookup_insert_ne by (by intros <-).
    unfold base. rewrite !lookup_prune. by rewrite !decide_False. }
  assert (Habove : ∀ q, q `prefix_of` cachePath →
            ¬ td `prefix_of` q ∧ ¬ marker `prefix_of` q).
  { intros q [x Hq]. split; intros [y Hy]; subst q;
      apply (f_equal length) in Hq; unfold td, marker in Hq;
      rewrite !length_app in Hq; simpl in Hq; lia. }
  assert (HW : directory_at (files w0) td).
  { intros q [x Hq]. destruct x as [|a x _] using rev_ind.
    - rewrite app_nil_r in Hq. subst q. rewrite Hw0.
      rewrite !lookup_insert_ne by path_neq. by rewrite lookup_insert_eq.
    - unfold td in Hq. rewrite (assoc_L (++)) in Hq.
      apply app_inj_tail in Hq as [Hcp _].
      destruct (Habove q) as [Hq1 Hq2]; [by exists x|].
      rewrite (Hbase _ Hq1 Hq2).
      assert (Hc : files w !! cachePath = Some Dir).
      { destruct (Habove cachePath) as [Hc1 Hc2]; [done|].
        unfold base in Hroot. rewrite !lookup_prune in Hroot.
        by rewrite !decide_False in Hroot. }
      destruct x as [|b x].
      + rewrite app_nil_r in Hcp. by subst q.
      + apply (Hwf _ _ Hc); [by exists (b :: x)|].
        intros Heq. rewrite Heq in Hcp. apply (f_equal length) in Hcp.
        rewrite length_app in Hcp. simpl in Hcp. lia. }
  assert (Hin : ∀ f r x, f ∈ outputs → relpath f = Some r →
            ¬ td `prefix_of` (root ++ r) ++ x ∧
            ¬ marker `prefix_of` (root ++ r) ++ x ∧
            apart td (root ++ r)).
  { intros f r x Hf Hr.
    destruct (proj1 (Forall_forall _ _) Hall f Hf) as (_ & Hap & Hmk).
    rewrite (join_confined root f r Hr) in Hap, Hmk.
    destruct Hap as [Ha1 Ha2]. split; [|split; [|done]].
    - by apply prefix_of_app_apart.
    - intros Hp. destruct (prefix_weak_total marker (root ++ r)
                             ((root ++ r) ++ x)) as [?|Hq]; try done.
      + by apply prefix_app_r.
      + apply Ha2. destruct Hq as [y Hy]. unfold marker in Hy.
        destruct y as [|b y _] using rev_ind.
        * rewrite app_nil_r in Hy. destruct Hmk. unfold marker.
          by rewrite Hy.
        * rewrite (assoc_L (++)) in Hy. apply app_inj_tail in Hy as [Hcp _].
          exists (y ++ [hash task]). unfold td. rewrite Hcp.
          by rewrite <- !(assoc_L (++)). }
  assert (Hloop' : Forall (λ f, ∃ r, relpath f = Some r ∧
                      apart td (root ++ r) ∧
                      (is_Some (files w0 !! (root ++ r)) →
                       ∀ q, q `prefix_of` root ++ r → q ≠ root ++ r →
                            files w0 !! q = Some Dir)) outputs).
  { apply Forall_forall. intros f Hf.
    destruct (proj1 (Forall_forall _ _) Hall f Hf) as ([r Hr] & _).
    exists r. split; [done|].
    destruct (Hin f r [] Hf Hr) as (Hs1 & Hs2 & Hap).
    rewrite app_nil_r in Hs1, Hs2. split; [done|].
    intros [n Hn] q Hq Hne. rewrite (Hbase _ Hs1 Hs2) in Hn.
    rewrite Hbase.
    - by apply (Hwf _ _ Hn).
    - intros Hp. apply Hs1. by etrans.
    - intros Hp. apply Hs2. by etrans. }
  destruct (put_outputs_mirror td (files w0) outputs w0 wf
              HW Hloop') as (_ & _ & MB & _ & MF); try done.
  { rewrite Hw0. by rewrite lookup_insert_eq. }
  { intros q n Hq. rewrite Hw0.
    rewrite lookup_insert_ne
      by (intros Heq; rewrite <- (app_nil_r (td ++ ["outputs"])) in Heq at 1;
          apply app_inv_head in Heq; done).
    rewrite lookup_insert_ne by path_neq.
    rewrite lookup_insert_ne by path_neq.
    unfold base. rewrite lookup_prune, decide_True; [done|].
    rewrite <- (assoc_L (++)). by apply prefix_app_r. }
  intros f Hf Hex rel.
  destruct (proj1 (Forall_forall _ _) Hall f Hf) as ([r Hr] & _).
  rewrite (join_confined root f r Hr) in *.
  rewrite (join_confined _ f r Hr).
  destruct (Hin f r rel Hf Hr) as (Hs1 & Hs2 & Hap).
  destruct (Hin f r [] Hf Hr) as (Hs1' & Hs2' & _).
  rewrite app_nil_r in Hs1', Hs2'.
  rewrite Hfiles.
  rewrite lookup_insert_ne by (subst td marker; path_neq).
  rewrite lookup_insert_ne by path_neq.
  destruct (files w !! ((root ++ r) ++ rel)) as [n|] eqn:En.
  - apply (MF f r Hf Hr).
    + unfold exists_ in *. by rewrite (Hbase _ Hs1' Hs2').
    + by rewrite (Hbase _ Hs1 Hs2).
  - destruct (files wf !! _) as [n|] eqn:Ef; [exfalso|done].
    destruct (decide (r ++ rel = [])) as [Hnil|Hne].
    + apply app_eq_nil in Hnil as [-> ->]. rewrite !app_nil_r in *.
      apply exists_lookup in Hex as [m Hm]. congruence.
    + rewrite <- (assoc_L (++)) in Ef. apply (MB _ _ Hne) in Ef.
      rewrite (assoc_L (++)), (Hbase _ Hs1 Hs2) in Ef. congruence.
Qed.
End MirrorLoop.

(** ** The local store's [get] and the orchestrator's *)

Section GetFacts.
Context {R : Type}.
Variables root cachePath : path.
Variable remoteCache : option (RemoteCache R).
Implicit Types (w : world R) (task : Task).

Lemma getFromLocalDir_run task w :
  let marker := commitMarker cachePath (hash task) in
  let td := entryDir cachePath (hash task) in
  getFromLocalDir cachePath task w =
  match files w !! marker with
  | None => (Ok None, World (files w) (remote_state w)
                        (trace w ++ [EvExists marker]))
  | Some _ =>
      match readFile (files w) (join td "terminalOutput") with
      | Err e =>
          (Err e, World (files w) (remote_state w)
                    (trace w ++ [EvExists marker;
                                 EvReadFile (join td "terminalOutput")]))
      | Ok text =>
          (Ok (Some {| terminalOutput := text;
                       outputsPath := join td "outputs";
                       code := code_read (files w) td |}),
           World (files w) (remote_state w)
             (trace w ++ [EvExists marker;
                          EvReadFile (join td "terminalOutput");
                          EvReadFile (join td "code")]))
      end
  end.
Proof.
  intros marker td. unfold getFromLocalDir. fold marker td.
  rewrite bind_run. unfold existsAsync, query, logged. simpl.
  rewrite exists_plain.
  destruct (files w !! marker) as [m|] eqn:Em.
  2:{ by rewrite bool_decide_eq_false_2 by (by intros [??]). }
  rewrite bool_decide_eq_true_2 by done.
  rewrite bind_run. unfold readFileAsync, query, logged. simpl.
  destruct (readFile (files w) (join td "terminalOutput")) as [text|e];
    [|by rewrite <- (assoc_L (++))].
  rewrite bind_run. unfold try_catch. rewrite bind_run. simpl.
  unfold code_read.
  destruct (readFile (files w) (join td "code")) as [c|e]; simpl;
    by rewrite <- !(assoc_L (++)).
Qed.

(** C1.  Commit atomicity: for every hash, if the commit marker
    [<hash>.commit] does not exist under the cache root, the local store's
    [get] returns absent, whatever files exist under the entry directory
    [<hash>/] (or anywhere else).  The absence is an ordinary result, not a
    thrown error; the only call made is the existence check of the marker,
    and no file is changed. *)
Theorem get_without_marker_is_miss task w :
  files w !! commitMarker cachePath (hash task) = None →
  getFromLocalDir cachePath task w =
  (Ok None, World (files w) (remote_state w)
              (trace w ++ [EvExists (commitMarker cachePath (hash task))])).
Proof. intros H. rewrite getFromLocalDir_run. simpl. by rewrite H. Qed.

(** C6.  A committed entry whose [terminalOutput] cannot be read: when the
    commit marker exists and reading [<hash>/terminalOutput] fails with an
    error, the local store's [get] throws that same error, neither
    swallowing it nor answering absent, and so does the orchestrator's
    [get]. *)
Theorem get_unreadable_terminal_output_raises task w e :
  is_Some (files w !! commitMarker cachePath (hash task)) →
  readFile (files w)
    (join (entryDir cachePath (hash task)) "terminalOutput") = Err e →
  (getFromLocalDir cachePath task w).1 = Err e ∧
  (get cachePath remoteCache task w).1 = Err e.
Proof.
  intros [m Hm] Hread.
  assert (H1 : (getFromLocalDir cachePath task w).1 = Err e).
  { rewrite getFromLocalDir_run. simpl. by rewrite Hm, Hread. }
  split; [done|]. unfold get. rewrite bind_run.
  destruct (getFromLocalDir cachePath task w) as [[res|e'] w1]; [done|].
  done.
Qed.

(** C5, as amended.  For every committed entry (marker present) whose
    [terminalOutput] can be read, [get] returns a result whose code is 0
    when the [code] file is absent or cannot be read, and otherwise
    [Number(text)] of the text it holds: for the decimal text of an integer
    [n], the double nearest to [n], which is [n] itself when [n] is at most
    [2^53] in magnitude; and [NaN], not 0, for text that is no numeric
    literal. *)
Theorem get_code_of_committed_entry task w text :
  is_Some (files w !! commitMarker cachePath (hash task)) →
  readFile (files w)
    (join (entryDir cachePath (hash task)) "terminalOutput") = Ok text →
  ∃ r w', getFromLocalDir cachePath task w = (Ok (Some r), w') ∧
    code r = match readFile (files w)
                     (join (entryDir cachePath (hash task)) "code") with
             | Ok content => Number content
             | Err _ => Num 0
             end ∧
    ∀ n : Z,
      readFile (files w) (join (entryDir cachePath (hash task)) "code")
        = Ok (decimal n) →
      code r = round (inject_Z n) ∧
      ((Z.abs n ≤ 2 ^ 53)%Z → code r = Num (inject_Z n)).
Proof.
  intros [m Hm] Hread. rewrite getFromLocalDir_run. simpl.
  rewrite Hm, Hread. eexists _, _. split; [done|]. simpl.
  split; [done|]. intros n Hn. unfold code_read. rewrite Hn.
  rewrite Number_decimal. split; [done|]. apply round_safe_integer.
Qed.

(** C7, as amended.  The orchestrator's [get] first asks the local
    store.  If that answers absent and a remote cache is configured, it
    calls the remote [retrieve] for the task's hash and the cache root
    exactly once; when that call returns, it asks the local store once
    more and returns that second answer, and when [retrieve] throws, [get]
    throws the same error and the local store is not asked again.  In
    every other case (a hit, a thrown error, or no remote cache) the first
    local answer is returned as it is.  The trace of the run holds at most
    one remote call and one or two checks of the commit marker, as these
    cases say. *)
Theorem get_consults_remote_once task w :
  let marker := commitMarker cachePath (hash task) in
  let '(r1, w1) := getFromLocalDir cachePath task w in
  ∃ evs, trace (get cachePath remoteCache task w).2 = trace w ++ evs ∧
  match r1, remoteCache with
  | Ok None, Some rc =>
      let '(r, fs2, st2) :=
        retrieve rc (hash task) cachePath (files w1) (remote_state w1) in
      let w2 := World fs2 st2
                  (trace w1 ++ [EvRetrieve (hash task) cachePath]) in
      List.filter is_remote_call evs = [EvRetrieve (hash task) cachePath] ∧
      match r with
      | Ok _ =>
          get cachePath remoteCache task w
            = getFromLocalDir cachePath task w2 ∧
          List.filter is_existence_check evs = [EvExists marker; EvExists marker]
      | Err e =>
          get cachePath remoteCache task w = (Err e, w2) ∧
          List.filter is_existence_check evs = [EvExists marker]
      end
  | _, _ =>
      get cachePath remoteCache task w = (r1, w1) ∧
      List.filter is_remote_call evs = [] ∧
      List.filter is_existence_check evs = [EvExists marker]
  end.
Proof.
  intros marker.
  assert (Hloc : ∀ w0, ∃ evs,
            trace (getFromLocalDir cachePath task w0).2 = trace w0 ++ evs ∧
            List.filter is_remote_call evs = [] ∧
            List.filter is_existence_check evs = [EvExists marker]).
  { intros w0. rewrite getFromLocalDir_run. simpl. fold marker.
    destruct (files w0 !! marker); [|by eexists].
    destruct (readFile _ _); by eexists. }
  unfold get. rewrite bind_run.
  destruct (Hloc w) as (evs1 & Ht1 & Hr1 & He1).
  destruct (getFromLocalDir cachePath task w) as [[[res|]|e] w1] eqn:E1;
    simpl in Ht1.
  - exists evs1. by destruct remoteCache.
  - destruct remoteCache as [rc|]; [|by exists evs1].
    rewrite bind_run. unfold remote_call.
    destruct (retrieve rc (hash task) cachePath (files w1) (remote_state w1))
      as [[r fs2] st2] eqn:E2.
    destruct r as [[]|e].
    + set (w2 := World fs2 st2 _).
      destruct (Hloc w2) as (evs2 & Ht2 & Hr2 & He2).
      exists (evs1 ++ [EvRetrieve (hash task) cachePath] ++ evs2).
      rewrite Ht2. subst w2. simpl. rewrite Ht1.
      rewrite !List.filter_app. simpl. rewrite Hr1, Hr2, He1, He2.
      by rewrite <- !(assoc_L (++)).
    + exists (evs1 ++ [EvRetrieve (hash task) cachePath]).
      simpl. rewrite Ht1. rewrite !List.filter_app, Hr1, He1. simpl.
      by rewrite <- !(assoc_L (++)).
  - by exists evs1.
Qed.
End GetFacts.

(** ** The order of the steps of [put] *)

Section TraceFacts.
Context {R : Type}.
Variables root cachePath : path.
Variable remoteCache : option (RemoteCache R).
Implicit Types (w : world R) (task : Task).

Lemma update_trace (ev : event) f w :
  trace (update ev f w).2 = trace w ++ [ev].
Proof. unfold update. by destruct (f (files w)). Qed.








End TraceFacts.

(** ** Runs that make no remote call *)

Section Quiet.
Context {R : Type}.
Implicit Types (w : world R).

Lemma quiet_ret {A} (a : A) : quiet (mret a : M R A).
Proof. intros w. exists []. by rewrite app_nil_r. Qed.

Lemma quiet_bind {A B} (m : M R A) (k : A → M R B) :
  quiet m → (∀ a, quiet (k a)) → quiet (m ≫= k).
Proof.
  intros Hm Hk w. rewrite bind_run.
  destruct (Hm w) as (evs1 & Ht1 & Hq1).
  destruct (m w) as [[a|e] w1]; simpl in Ht1; [|by exists evs1].
  destruct (Hk a w1) as (evs2 & Ht2 & Hq2).
  exists (evs1 ++ evs2). rewrite Ht2, Ht1, (assoc_L (++)).
  split; [done|]. by rewrite List.filter_app, Hq1, Hq2.
Qed.

Lemma quiet_query {A} (ev : event) (f : gmap path node → outcome A) :
  is_remote_call ev = false → quiet (query (R:=R) ev f).
Proof. intros Hev w. exists [ev]. simpl. by rewrite Hev. Qed.

Lemma quiet_update (ev : event)
    (f : gmap path node → outcome (gmap path node)) :
  is_remote_call ev = false → quiet (update (R:=R) ev f).
Proof.
  intros Hev w. exists [ev]. rewrite update_trace. simpl. by rewrite Hev.
Qed.

Lemma quiet_put_outputs (root td : path) (outputs : list string) :
  quiet (put_outputs (R:=R) root td outputs).
Proof.
  induction outputs as [|f rest IH]; simpl; [apply quiet_ret|].
  apply quiet_bind; [|by intros _].
  unfold put_output, existsAsync, lstatAsync_isFile, ensureDirAsync,
    copyAsync.
  apply quiet_bind; [by apply quiet_query|]. intros [|]; [|apply quiet_ret].
  apply quiet_bind; [by apply quiet_query|]. intros isFile.
  apply quiet_bind; [by apply quiet_update|]. intros _.
  by apply quiet_update.
Qed.

(** Without a remote cache configured, [put] calls none. *)
Lemma quiet_put_local (root cachePath : path) (task : Task)
    (text : option string) (outputs : list string) (c : number) :
  quiet (put (R:=R) root cachePath None task text outputs c).
Proof.
  unfold put, removeAsync, mkdirAsync, writeFileAsync.
  repeat (apply quiet_bind; [first [by apply quiet_update
                                   | apply quiet_put_outputs]|intros _]).
  apply quiet_ret.
Qed.
End Quiet.

(** ** [put] followed by [get] *)

Section RoundTrip.
Context {R : Type}.
Variables root cachePath : path.
Variable remoteCache : option (RemoteCache R).
Implicit Types (w : world R) (task : Task).

Lemma put_remote_split task text outputs code w :
  put root cachePath remoteCache task text outputs code w =
  match put root cachePath None task text outputs code w with
  | (Ok _, w1) =>
      match remoteCache with
      | Some rc => remote_call (EvStore (hash task) cachePath)
                     (store rc (hash task) cachePath) w1
      | None => (Ok tt, w1)
      end
  | (Err e, w1) => (Err e, w1)
  end.
Proof.
  unfold put, mbind, M_bind, bind.
  repeat match goal with
  | |- context [match ?m ?w0 with _ => _ end] =>
      lazymatch m with
      | removeAsync _ _ => idtac
      | mkdirAsync _ => idtac
      | writeFileAsync _ _ => idtac
      | put_outputs _ _ _ => idtac
      end;
      destruct (m w0) as [[[]|?] ?]; try reflexivity
  end.
  by destruct remoteCache.
Qed.

Lemma get_hit task w r w' :
  getFromLocalDir cachePath task w = (Ok (Some r), w') →
  get cachePath remoteCache task w = (Ok (Some r), w').
Proof. intros H. unfold get. rewrite bind_run, H. done. Qed.

Lemma getFromLocalDir_hit task w text content :
  is_Some (files w !! commitMarker cachePath (hash task)) →
  files w !! join (entryDir cachePath (hash task)) "terminalOutput"
    = Some (File text) →
  files w !! join (entryDir cachePath (hash task)) "code"
    = Some (File content) →
  ∃ w', getFromLocalDir cachePath task w =
          (Ok (Some {| terminalOutput := text;
                       outputsPath :=
                         join (entryDir cachePath (hash task)) "outputs";
                       code := Number content |}), w') ∧
        files w' = files w.
Proof.
  intros [m Hm] Ht Hc. rewrite getFromLocalDir_run. simpl.
  unfold code_read, readFile. rewrite Hm, Ht, Hc. by eexists.
Qed.

(** What the local store's [get] answers in a state with the files that
    the local steps of [put] left. *)
Lemma put_local_entry task t outputs (c : Z) w w1 w' :
  let td := entryDir cachePath (hash task) in
  let marker := commitMarker cachePath (hash task) in
  plain_name (hash task) →
  (Z.abs c ≤ 2 ^ 53)%Z →
  well_formed (files w) →
  Forall (λ f, confined f ∧ apart td (join root f) ∧
               ¬ marker `prefix_of` join root f) outputs →
  put root cachePath None task (Some t) outputs (Num (inject_Z c)) w
    = (Ok tt, w1) →
  files w' = files w1 →
  ∃ r w'',
    getFromLocalDir cachePath task w' = (Ok (Some r), w'') ∧
    files w'' = files w' ∧
    terminalOutput r = t ∧
    code r = Num (inject_Z c) ∧
    outputsPath r = join td "outputs" ∧
    ∀ f, f ∈ outputs →
      exists_ (files w) (join root f) (ends_sep f) = true →
      ∀ rel, files w'' !! (join (outputsPath r) f ++ rel)
             = files w !! (join root f ++ rel).
Proof.
  intros td marker Hplain Hc Hwf Hall Hput Hsame.
  destruct (put_local_content root cachePath _ _ _ _ _ _ Hplain Hwf Hall Hput)
    as (_ & Hm & Ht & Hcode & Hout).
  fold td marker in Hm, Ht, Hcode, Hout.
  rewrite <- Hsame in Hm, Ht, Hcode, Hout.
  destruct (getFromLocalDir_hit task w' t
              (toString (Num (inject_Z c))))
    as (w2 & Hget & Hfiles);
    [by exists (File "true")|exact Ht|exact Hcode|].
  fold td in Hget.
  eexists _, w2. split; [exact Hget|]. simpl.
  split; [done|]. split; [done|]. split; [by apply Number_toString|].
  split; [done|]. intros f Hf Hex rel. rewrite Hfiles. by apply Hout.
Qed.

(** C3, as amended.  Round trip.  For a path-safe hash, an integer exit
    code [c] of magnitude at most [2^53], a file system in which every
    entry lies in directories, declared outputs that are relative paths
    staying inside the workspace, each of them apart from the entry
    directory (neither inside nor above it) and not below the commit
    marker, and a remote cache (if any) whose [store] leaves the local
    files alone: after a successful [put] of the terminal output [t] and
    the exit code [c], [get] (with no write in between) changes no file and
    returns a result with [terminalOutput = t] and [code = c]; and for
    every declared output that [put] found in the workspace (a path
    written with a separator at its end is found only as a directory),
    what is at and below its copy under the returned [outputsPath] is
    exactly what is at and below the workspace original: the same files
    with the same contents and the same directories, and nothing else. *)
Theorem put_then_get_round_trip task t outputs (c : Z) w w' :
  let td := entryDir cachePath (hash task) in
  let marker := commitMarker cachePath (hash task) in
  plain_name (hash task) →
  (Z.abs c ≤ 2 ^ 53)%Z →
  well_formed (files w) →
  Forall (λ f, confined f ∧ apart td (join root f) ∧
               ¬ marker `prefix_of` join root f) outputs →
  (∀ rc, remoteCache = Some rc → store_keeps_files rc) →
  put root cachePath remoteCache task (Some t) outputs (Num (inject_Z c)) w
    = (Ok tt, w') →
  ∃ r w'',
    get cachePath remoteCache task w' = (Ok (Some r), w'') ∧
    files w'' = files w' ∧
    terminalOutput r = t ∧
    code r = Num (inject_Z c) ∧
    outputsPath r = join td "outputs" ∧
    ∀ f, f ∈ outputs →
      exists_ (files w) (join root f) (ends_sep f) = true →
      ∀ rel, files w'' !! (join (outputsPath r) f ++ rel)
             = files w !! (join root f ++ rel).
Proof.
  intros td marker Hplain Hc Hwf Hall Hkeep Hput.
  rewrite put_remote_split in Hput.
  destruct (put root cachePath None task (Some t) outputs _ w)
    as [[[]|e] w1] eqn:Hlocal; [|done].
  assert (Hsame : files w' = files w1).
  { destruct remoteCache as [rc|]; [|by injection Hput as <-].
    unfold remote_call in Hput. pose proof (Hkeep rc eq_refl) as Hrc.
    specialize (Hrc (hash task) cachePath (files w1) (remote_state w1)).
    destruct (store rc _ _ _ _) as [[r fs'] st']. simpl in Hrc.
    injection Hput as _ <-. done. }
  destruct (put_local_entry _ _ _ _ _ _ w' Hplain Hc Hwf Hall Hlocal Hsame)
    as (r & w2 & Hget & Hrest).
  exists r, w2. split; [by apply get_hit|]. done.
Qed.

Lemma remote_calls_none (e : event) (evs : list event) :
  List.filter is_remote_call evs = [] → is_remote_call e = true → e ∉ evs.
Proof.
  intros Hf He Hin. apply list_elem_of_In in Hin.
  assert (Hin' : In e (List.filter is_remote_call evs)).
  { apply filter_In. done. }
  by rewrite Hf in Hin'.
Qed.
End RoundTrip.

(** ** A remote cache that fails to mirror *)

Section MirroringFails.
Context {R : Type}.
Variables root cachePath : path.
Implicit Types (w : world R) (task : Task).

(** C10, as amended.  When a remote cache is configured, the local steps
    of [put] go through and the remote [store] then fails, [put] throws the
    error of [store], in the state [store] left.  For a [store] that leaves
    the local files alone (and a path-safe hash, an integer exit code of
    magnitude at most [2^53], a file system in which every entry lies in
    directories, and declared outputs inside the workspace that are apart
    from the entry directory and not below the commit marker), the local
    entry stays committed: a local [get] for the same hash in the state
    [put] left returns the result just written, terminal output, exit code
    and the copies of the outputs found in the workspace. *)
Theorem put_keeps_entry_when_store_fails
    (rc : RemoteCache R) task t outputs (c : Z) w w1 e fs' st' :
  let td := entryDir cachePath (hash task) in
  let marker := commitMarker cachePath (hash task) in
  let w' := World fs' st' (trace w1 ++ [EvStore (hash task) cachePath]) in
  put root cachePath None task (Some t) outputs (Num (inject_Z c)) w
    = (Ok tt, w1) →
  store rc (hash task) cachePath (files w1) (remote_state w1)
    = (Err e, fs', st') →
  put root cachePath (Some rc) task (Some t) outputs (Num (inject_Z c)) w
    = (Err e, w') ∧
  (plain_name (hash task) →
   (Z.abs c ≤ 2 ^ 53)%Z →
   well_formed (files w) →
   Forall (λ f, confined f ∧ apart td (join root f) ∧
                ¬ marker `prefix_of` join root f) outputs →
   store_keeps_files rc →
   ∃ r w'',
     getFromLocalDir cachePath task w' = (Ok (Some r), w'') ∧
     files w'' = files w1 ∧
     terminalOutput r = t ∧
     code r = Num (inject_Z c) ∧
     outputsPath r = join td "outputs" ∧
     ∀ f, f ∈ outputs →
       exists_ (files w) (join root f) (ends_sep f) = true →
       ∀ rel, files w'' !! (join (outputsPath r) f ++ rel)
              = files w !! (join root f ++ rel)).
Proof.
  intros td marker w' Hlocal Hstore. split.
  - rewrite put_remote_split, Hlocal. unfold remote_call.
    by rewrite Hstore.
  - intros Hplain Hc Hwf Hall Hkeep.
    pose proof (Hkeep (hash task) cachePath (files w1) (remote_state w1))
      as Hrc.
    rewrite Hstore in Hrc. simpl in Hrc.
    destruct (put_local_entry root cachePath _ _ _ _ _ _ w'
                Hplain Hc Hwf Hall Hlocal Hrc)
      as (r & w2 & Hget & Hf & Hrest).
    exists r, w2. split; [done|]. split; [by rewrite Hf|done].
Qed.
End MirroringFails.

(** ** The records of the outputs' hashes *)

Section HashRecords.
Context {R : Type}.
Variables root cachePath : path.
Implicit Types (w : world R) (fs : gmap path node).

Lemma mkdirs_from_existing base rest fs :
  (∀ q, base `prefix_of` q → q `prefix_of` base ++ rest →
        fs !! q = Some Dir) →
  mkdirs_from base rest fs = Ok fs.
Proof.
  revert base. induction rest as [|x rest IH]; intros base H; simpl.
  - rewrite (H base); [done..|]. by rewrite app_nil_r.
  - rewrite (H base); [|done|by apply prefix_app_r].
    apply IH. intros q Hb Hq. apply H.
    + etrans; [|exact Hb]. by apply prefix_app_r.
    + by rewrite <- (assoc_L (++)) in Hq.
Qed.

Lemma ensureDir_existing fs p : directory_at fs p → ensureDir fs p = Ok fs.
Proof.
  intros H. apply mkdirs_from_existing. intros q _ Hq. by apply H.
Qed.

(** C9.  The name of the record file of an output is not injective in the
    output: ["a/b"] and ["a-b"] are different outputs with the same record
    file under [latestOutputsHashes/].  So recording a hash for ["a-b"]
    (with [latestOutputsHashes/] in place and no directory squatting on the
    record's name) overwrites what is read back for ["a/b"], and removing
    the record of ["a-b"] removes the one of ["a/b"]. *)
Theorem hash_record_names_collide w (h : string) :
  let name := getFileNameWithLatestRecordedHashForOutput cachePath in
  "a/b" ≠ "a-b" ∧
  name "a/b" = name "a-b" ∧
  (directory_at (files w) (latestOutputsHashesDir cachePath) →
   files w !! name "a-b" ≠ Some Dir →
   (getLatestRecordedHashForTask cachePath "a/b"
      (recordOutputsHash cachePath ["a-b"] h w).2).1 = Ok (Some h)) ∧
  (getLatestRecordedHashForTask cachePath "a/b"
     (removeRecordedOutputsHashes cachePath ["a-b"] w).2).1 = Ok None.
Proof.
  intros name. split; [done|]. split; [reflexivity|].
  assert (Hname : name "a/b" = latestOutputsHashesDir cachePath ++ ["a-b.hash"])
    by reflexivity.
  assert (Hname' : name "a-b" = latestOutputsHashesDir cachePath ++ ["a-b.hash"])
    by reflexivity.
  unfold getLatestRecordedHashForTask, recordOutputsHash,
    removeRecordedOutputsHashes.
  fold name. rewrite Hname, Hname'.
  unfold mbind, M_bind, bind, try_catch, ensureDirAsync, writeFileAsync,
    unlinkAsync, readFileAsync, update, query, logged, mret, M_ret, ret.
  split.
  - intros Hdir Hnd. simpl.
    unfold dirname. rewrite removelast_last.
    rewrite (ensureDir_existing _ _ Hdir). simpl.
    unfold writeFile, parent_error, dirname. rewrite removelast_last.
    rewrite (Hdir _ (reflexivity _)).
    destruct (files w !! (latestOutputsHashesDir cachePath ++ ["a-b.hash"]))
      as [[]|] eqn:E; try done; simpl;
      unfold readFile; by rewrite lookup_insert_eq.
  - simpl. unfold unlink, readFile.
    destruct (files w !! (latestOutputsHashesDir cachePath ++ ["a-b.hash"]))
      as [[]|] eqn:E; simpl; rewrite ?E, ?lookup_delete_eq; done.
Qed.
End HashRecords.

(** ** Whether the outputs must be copied from the cache *)

Section Staleness.
Context {R : Type}.
Variables root cachePath : path.
Implicit Types (w : world R) (fs : gmap path node).

Lemma getLatestRecordedHashForTask_run output w :
  ∃ w', getLatestRecordedHashForTask cachePath output w =
          (Ok (recorded_hash cachePath (files w) output), w') ∧
        same_state w' w.
Proof.
  unfold getLatestRecordedHashForTask, recorded_hash, try_catch.
  unfold mbind, M_bind, bind, readFileAsync, query, logged.
  destruct (readFile (files w) _); by eexists.
Qed.

Lemma areLatestOutputsHashesDifferent_run outputs h w :
  ∃ w', areLatestOutputsHashesDifferentThanTaskHash cachePath outputs h w =
          (Ok (existsb (hash_differs cachePath (files w) h) outputs), w') ∧
        same_state w' w.
Proof.
  revert w. induction outputs as [|o rest IH]; intros w; simpl.
  - by eexists.
  - rewrite bind_run.
    destruct (getLatestRecordedHashForTask_run o w) as (w1 & -> & Hf & Hr).
    unfold hash_differs at 1. case_bool_decide; simpl.
    + by eexists.
    + destruct (IH w1) as (w' & -> & Hf' & Hr'). rewrite Hf.
      eexists. split; [done|]. split; congruence.
Qed.

Lemma output_missing_run (cr : CachedResult) output w :
  ∃ w', same_state w' w ∧
    output_missing root cr output w =
    (if unlistable root (outputsPath cr) (files w) output
     then Err ENOTDIR
     else Ok (copy_missing root (outputsPath cr) (files w) output), w').
Proof.
  unfold output_missing, unlistable, copy_missing, entries_differ, found.
  unfold andM, orM, notM.
  unfold mbind, M_bind, bind, existsAsync, lstatAsync_isFile, readdirAsync,
    query, logged, mret, M_ret, ret, exists_, lstat_isFile, readdir.
  simpl.
  destruct (files w !! join (outputsPath cr) output) as [[c|]|] eqn:E1;
    destruct (files w !! join root output) as [[c'|]|] eqn:E2;
    destruct (ends_sep output);
    repeat (simpl; rewrite ?E1, ?E2);
    (eexists; split; [|reflexivity]; by split).
Qed.

Lemma isAnyOutputMissing_run (cr : CachedResult) outputs w b w' :
  isAnyOutputMissing root cr outputs w = (Ok b, w') →
  b = existsb (copy_missing root (outputsPath cr) (files w)) outputs ∧
  same_state w' w.
Proof.
  revert w. induction outputs as [|o rest IH]; intros w; simpl.
  - by intros [= <- <-].
  - rewrite bind_run.
    destruct (output_missing_run cr o w) as (w1 & [Hf Hr] & ->).
    destruct (unlistable _ _ _ _); [done|].
    destruct (copy_missing _ _ _ o); simpl.
    + by intros [= <- <-].
    + intros [-> [Hf' Hr']]%IH. rewrite Hf. split; [done|].
      split; congruence.
Qed.

Lemma isAnyOutputMissing_returns (cr : CachedResult) outputs w :
  existsb (unlistable root (outputsPath cr) (files w)) outputs = false →
  ∃ b w', isAnyOutputMissing root cr outputs w = (Ok b, w').
Proof.
  revert w. induction outputs as [|o rest IH]; intros w; simpl.
  - by eexists _, _.
  - intros [Ho Hrest]%orb_false_elim. rewrite bind_run.
    destruct (output_missing_run cr o w) as (w1 & [Hf Hr] & ->).
    rewrite Ho. destruct (copy_missing _ _ _ o); [by eexists _, _|].
    apply IH. by rewrite Hf.
Qed.

(** C4, as amended.  Whenever [shouldCopyOutputsFromCache] returns a
    boolean, it is true if and only if (a) the recorded hash of some
    declared output is absent or differs from the task's hash, or (b') some
    declared output's cached copy exists while its workspace copy does not
    (be the cached copy a file or a directory), or both copies are
    directories with a different number of entries; and no file is
    changed.  It does return a boolean when (a) holds, or when no declared
    output has both copies present with one of them a file. *)
Theorem shouldCopyOutputsFromCache_spec
    (twcr : TaskWithCachedResult) outputs w :
  let fs := files w in
  let differs := existsb (hash_differs cachePath fs (hash (task twcr))) in
  let missing :=
    existsb (copy_missing root (outputsPath (cachedResult twcr)) fs) in
  let unlistable :=
    existsb (unlistable root (outputsPath (cachedResult twcr)) fs) in
  (∀ b w', shouldCopyOutputsFromCache root cachePath twcr outputs w
             = (Ok b, w') →
           b = differs outputs || missing outputs ∧ files w' = files w) ∧
  (differs outputs = true ∨ unlistable outputs = false →
   ∃ b w', shouldCopyOutputsFromCache root cachePath twcr outputs w
             = (Ok b, w')).
Proof.
  cbv zeta. unfold shouldCopyOutputsFromCache, orM, bind.
  destruct (areLatestOutputsHashesDifferent_run outputs
              (hash (task twcr)) w) as (w1 & -> & Hf & Hr).
  destruct (existsb (hash_differs _ _ _) outputs) eqn:Hd; simpl.
  - split; [|by eexists _, _]. by intros b w' [= <- <-].
  - split.
    + intros b w' [-> [Hf' _]]%isAnyOutputMissing_run.
      rewrite Hf. split; [done|congruence].
    + intros [?|Hu]; [done|]. apply isAnyOutputMissing_returns.
      by rewrite Hf.
Qed.
End Staleness.

(** ** Runs that differ only in the calls logged before them *)

Section Oblivious.
Context {R : Type}.
Implicit Types (w : world R).







Lemma agree_refl {A} (x : outcome A * world R) : agree x x.
Proof. done. Qed.
End Oblivious.


(** ** Declared outputs that were not produced *)

Section Tolerance.
Context {R : Type}.
Variables root cachePath : path.
Variable remoteCache : option (RemoteCache R).
Implicit Types (w : world R) (task : Task) (td : path).






Lemma append_same (s t : string) : s +:+ t = s → t = "".
Proof. induction s as [|a s IH]; simpl; [done|]. by intros [= ?%IH]. Qed.

Lemma mkdir_fresh (fs : gmap path node) (p : path) :
  fs !! p = None → fs !! dirname p = Some Dir →
  mkdir fs p = Ok (<[p := Dir]> fs).
Proof. intros H1 H2. unfold mkdir, parent_error. by rewrite H1, H2. Qed.

Lemma writeFile_fresh (fs : gmap path node) (p : path) (data : string) :
  fs !! p = None → fs !! dirname p = Some Dir →
  writeFile fs p data = Ok (<[p := File data]> fs).
Proof.
  intros H1 H2. unfold writeFile, parent_error. by rewrite H1, H2.
Qed.




End Tolerance.

Section MissingOutputs.
Context {R : Type}.
Variables root cachePath : path.
Variable remoteCache : option (RemoteCache R).
Implicit Types (w : world R) (task : Task).

End MissingOutputs.

(** * Further properties of the class *)

Section EnsureDirFacts.
Implicit Types (fs : gmap path node) (p q base rest : path).

Lemma prefix_of_step base x rest q :
  base `prefix_of` q → q `prefix_of` base ++ x :: rest →
  q = base ∨ base ++ [x] `prefix_of` q.
Proof.
  intros [r ->] Hq. apply prefix_app_inv in Hq.
  destruct r as [|y r]; [left; by rewrite app_nil_r|right].
  apply prefix_cons_inv_1 in Hq. subst.
  exists r. by rewrite <- (assoc_L (++)).
Qed.

Lemma prefix_of_same base q :
  base `prefix_of` q → q `prefix_of` base ++ [] → q = base.
Proof.
  rewrite app_nil_r. intros H1 H2. by apply (anti_symm prefix).
Qed.

Lemma mkdirs_from_dirs base rest fs fs' :
  mkdirs_from base rest fs = Ok fs' →
  ∀ q, base `prefix_of` q → q `prefix_of` base ++ rest →
       fs' !! q = Some Dir.
Proof.
  revert base fs. induction rest as [|x rest IH]; intros base fs; simpl.
  - intros H q Hb Hq. rewrite (prefix_of_same _ _ Hb Hq).
    destruct (fs !! base) as [[c|]|] eqn:E; try done; injection H as <-;
      [done|by rewrite lookup_insert_eq].
  - intros H q Hb Hq.
    assert (Hbase : ∃ fs1, mkdirs_from (base ++ [x]) rest fs1 = Ok fs' ∧
                           fs1 !! base = Some Dir).
    { destruct (fs !! base) as [[c|]|] eqn:E; try done.
      - by exists fs.
      - eexists. split; [exact H|]. by rewrite lookup_insert_eq. }
    destruct Hbase as (fs1 & H1 & Hd).
    destruct (prefix_of_step _ _ _ _ Hb Hq) as [->|Hq'].
    + by eapply mkdirs_from_keeps.
    + eapply IH; [exact H1|done|]. by rewrite <- (assoc_L (++)).
Qed.

Lemma ensureDir_directory_at fs p fs' :
  ensureDir fs p = Ok fs' → directory_at fs' p.
Proof.
  intros H q Hq. eapply mkdirs_from_dirs; [exact H| |done].
  apply prefix_nil.
Qed.

Lemma mkdirs_from_clear base rest fs :
  (∀ q c, base `prefix_of` q → q `prefix_of` base ++ rest →
          fs !! q ≠ Some (File c)) →
  ∃ fs', mkdirs_from base rest fs = Ok fs'.
Proof.
  revert base fs. induction rest as [|x rest IH]; intros base fs H; simpl.
  - destruct (fs !! base) as [[c|]|] eqn:E; [|by eexists..].
    destruct (H base c); [done|by rewrite app_nil_r|done].
  - assert (Hnext : ∀ fs1, (∀ q, q ≠ base → fs1 !! q = fs !! q) →
              ∃ fs', mkdirs_from (base ++ [x]) rest fs1 = Ok fs').
    { intros fs1 Hsame. apply IH. intros q c Hb Hq.
      rewrite Hsame.
      - apply H; [|by rewrite <- (assoc_L (++)) in Hq].
        etrans; [|exact Hb]. by apply prefix_app_r.
      - intros ->. apply prefix_length in Hb. rewrite length_app in Hb.
        simpl in Hb. lia. }
    destruct (fs !! base) as [[c|]|] eqn:E.
    + destruct (H base c); [done|by apply prefix_app_r|done].
    + by apply Hnext.
    + apply Hnext. intros q Hq. by rewrite lookup_insert_ne.
Qed.

Lemma mkdirs_from_blocked base rest fs q c :
  base `prefix_of` q → q `prefix_of` base ++ rest →
  fs !! q = Some (File c) →
  ∃ e, mkdirs_from base rest fs = Err e.
Proof.
  revert base fs. induction rest as [|x rest IH]; intros base fs Hb Hq Hf;
    simpl.
  - rewrite (prefix_of_same _ _ Hb Hq) in Hf. rewrite Hf. by eexists.
  - destruct (prefix_of_step _ _ _ _ Hb Hq) as [->|Hq'].
    + rewrite Hf. by eexists.
    + assert (Hne : base ≠ q).
      { intros ->. apply prefix_length in Hq'. rewrite length_app in Hq'.
        simpl in Hq'. lia. }
      destruct (fs !! base) as [[c'|]|] eqn:E; [by eexists|..];
        (apply IH; [done|by rewrite <- (assoc_L (++))|]); [done|].
      by rewrite lookup_insert_ne.
Qed.

Lemma ensureDir_Ok fs p :
  unblocked fs p ↔ ∃ fs', ensureDir fs p = Ok fs'.
Proof.
  split.
  - intros H. apply mkdirs_from_clear. intros q c _ Hq. by apply H.
  - intros [fs' H] q c Hq Hf.
    unfold ensureDir in H.
    destruct (mkdirs_from_blocked [] p fs q c) as [e He]; try done.
    + apply prefix_nil.
    + congruence.
Qed.

(** [ensureDir] fails with [EEXIST] for a file at the path itself and with
    [ENOTDIR] for a file above it. *)
Lemma mkdirs_from_Err base rest fs e :
  mkdirs_from base rest fs = Err e →
  (e = EEXIST ∧ ∃ c, fs !! (base ++ rest) = Some (File c)) ∨
  (e = ENOTDIR ∧ ∃ q c, q `prefix_of` base ++ rest ∧ q ≠ base ++ rest ∧
                        fs !! q = Some (File c)).
Proof.
  revert base fs. induction rest as [|x rest IH]; intros base fs; simpl.
  - destruct (fs !! base) as [[c|]|] eqn:E; try done. intros [= <-].
    left. split; [done|]. exists c. by rewrite app_nil_r.
  - assert (Hne : ∀ y, base ≠ (base ++ [x]) ++ y).
    { intros y Heq. apply (f_equal length) in Heq.
      rewrite !length_app in Heq. simpl in Heq. lia. }
    assert (Hmid : base ++ x :: rest = (base ++ [x]) ++ rest)
      by (by rewrite <- (assoc_L (++))).
    rewrite Hmid.
    destruct (fs !! base) as [[c|]|] eqn:E.
    + intros [= <-]. right. split; [done|]. exists base, c.
      split; [rewrite <- Hmid; by apply prefix_app_r|]. split; [|done].
      apply Hne.
    + intros H.
      destruct (IH _ _ H) as [?|(-> & q & c & ? & ? & ?)]; [by left|].
      right. split; [done|]. by exists q, c.
    + intros H.
      destruct (IH _ _ H) as [(-> & c & Hc)|(-> & q & c & Hq & Hn & Hc)].
      * left. split; [done|]. exists c.
        by rewrite lookup_insert_ne in Hc by apply Hne.
      * right. split; [done|]. exists q, c. split; [done|]. split; [done|].
        destruct (decide (base = q)) as [<-|?];
          [by rewrite lookup_insert_eq in Hc|].
        by rewrite lookup_insert_ne in Hc.
Qed.

Lemma ensureDir_Err fs p e :
  ensureDir fs p = Err e → (e = EEXIST ∨ e = ENOTDIR) ∧ ¬ unblocked fs p.
Proof.
  intros H. split.
  - destruct (mkdirs_from_Err _ _ _ _ H) as [[-> _]|[-> _]]; auto.
  - intros [fs' H']%ensureDir_Ok. congruence.
Qed.
End EnsureDirFacts.

Section ConstructionFacts.
Context {R : Type}.
Implicit Types (w : world R) (fs : gmap path node).

Lemma new_Cache_run (appRootPath dir : path) w :
  new_Cache appRootPath dir w =
  match ensureDir (files w) dir with
  | Err e => (Err e, logged (EvEnsureDir dir) w (files w))
  | Ok fs1 =>
      let w1 := logged (EvEnsureDir dir) w fs1 in
      match ensureDir fs1 (terminalOutputsDir dir) with
      | Err e => (Err e, logged (EvEnsureDir (terminalOutputsDir dir)) w1 fs1)
      | Ok fs2 =>
          let w2 := logged (EvEnsureDir (terminalOutputsDir dir)) w1 fs2 in
          match ensureDir fs2 (latestOutputsHashesDir dir) with
          | Err e =>
              (Err e,
               logged (EvEnsureDir (latestOutputsHashesDir dir)) w2 fs2)
          | Ok fs3 =>
              (Ok {| Fields.root := appRootPath;
                     Fields.cachePath := dir;
                     Fields.terminalOutputsDir := terminalOutputsDir dir;
                     Fields.latestOutputsHashesDir :=
                       latestOutputsHashesDir dir |},
               logged (EvEnsureDir (latestOutputsHashesDir dir)) w2 fs3)
          end
      end
  end.
Proof.
  unfold new_Cache, createCacheDir, createTerminalOutputsDir,
    ensureLatestOutputsHashesDir, ensureDirSync.
  unfold mbind, M_bind, bind, update, mret, M_ret, ret.
  destruct (ensureDir (files w) dir) as [fs1|e]; [|done]. simpl.
  fold (terminalOutputsDir dir).
  destruct (ensureDir fs1 (terminalOutputsDir dir)) as [fs2|e]; [|done].
  simpl. fold (latestOutputsHashesDir dir).
  by destruct (ensureDir fs2 (latestOutputsHashesDir dir)) as [fs3|e].
Qed.

Lemma new_Cache_Ok (appRootPath dir : path) w c w' :
  new_Cache appRootPath dir w = (Ok c, w') →
  ∃ fs1 fs2,
    ensureDir (files w) dir = Ok fs1 ∧
    ensureDir fs1 (terminalOutputsDir dir) = Ok fs2 ∧
    ensureDir fs2 (latestOutputsHashesDir dir) = Ok (files w') ∧
    remote_state w' = remote_state w ∧
    c = {| Fields.root := appRootPath;
           Fields.cachePath := dir;
           Fields.terminalOutputsDir := terminalOutputsDir dir;
           Fields.latestOutputsHashesDir := latestOutputsHashesDir dir |}.
Proof.
  rewrite new_Cache_run.
  destruct (ensureDir (files w) dir) as [fs1|e] eqn:E1; [|done]. simpl.
  destruct (ensureDir fs1 (terminalOutputsDir dir)) as [fs2|e] eqn:E2;
    [|done].
  simpl.
  destruct (ensureDir fs2 (latestOutputsHashesDir dir)) as [fs3|e] eqn:E3;
    [|done].
  intros [= <- <-]. by exists fs1, fs2.
Qed.

Lemma directory_at_prefix fs p q :
  directory_at fs p → q `prefix_of` p → directory_at fs q.
Proof. intros H Hq k Hk. apply H. by etrans. Qed.

Lemma directory_at_keeps fs fs' p :
  (∀ k n, fs !! k = Some n → fs' !! k = Some n) →
  directory_at fs p → directory_at fs' p.
Proof. intros Hk H q Hq. by apply Hk, H. Qed.

(** X1.  When [new Cache(options)] returns, the instance holds the cache
    directory it was given and the two directories [terminalOutputs] and
    [latestOutputsHashes] inside it; these three exist on disk as
    directories, with every directory above them; nothing that existed
    before was changed or removed, and all that was added are the
    directories on the way to these two. *)
Theorem new_Cache_creates_directories (appRootPath dir : path) w c w' :
  new_Cache appRootPath dir w = (Ok c, w') →
  Fields.root c = appRootPath ∧
  Fields.cachePath c = dir ∧
  Fields.terminalOutputsDir c = dir ++ ["terminalOutputs"] ∧
  Fields.latestOutputsHashesDir c = dir ++ ["latestOutputsHashes"] ∧
  directory_at (files w') (Fields.cachePath c) ∧
  directory_at (files w') (Fields.terminalOutputsDir c) ∧
  directory_at (files w') (Fields.latestOutputsHashesDir c) ∧
  (∀ k n, files w !! k = Some n → files w' !! k = Some n) ∧
  (∀ k n, files w' !! k = Some n →
     files w !! k = Some n ∨
     n = Dir ∧ (k `prefix_of` Fields.terminalOutputsDir c ∨
                k `prefix_of` Fields.latestOutputsHashesDir c)).
Proof.
  intros (fs1 & fs2 & H1 & H2 & H3 & _ & ->)%new_Cache_Ok. simpl.
  assert (Hdir : dir `prefix_of` terminalOutputsDir dir)
    by (by apply prefix_app_r).
  assert (Ht : directory_at (files w') (terminalOutputsDir dir)).
  { eapply directory_at_keeps; [by eapply ensureDir_keeps|].
    by eapply ensureDir_directory_at. }
  do 4 (split; [done|]).
  split; [by eapply directory_at_prefix|]. split; [done|].
  split; [by eapply ensureDir_directory_at|]. split.
  - intros k n Hk. eapply ensureDir_keeps; [exact H3|].
    eapply ensureDir_keeps; [exact H2|]. by eapply ensureDir_keeps.
  - intros k n Hk.
    destruct (ensureDir_adds _ _ _ H3 k n Hk) as [Hk2|(-> & _ & Hp)];
      [|by right; split; [|right]].
    destruct (ensureDir_adds _ _ _ H2 k n Hk2) as [Hk1|(-> & _ & Hp)];
      [|by right; split; [|left]].
    destruct (ensureDir_adds _ _ _ H1 k n Hk1) as [Hk0|(-> & _ & Hp)];
      [by left|].
    right; split; [done|left]. by etrans.
Qed.

(** X2.  Constructing a second instance over the same cache directory
    changes no file: with the directories in place every [ensureDirSync]
    finds its directory, and the instance has the same fields. *)
Theorem new_Cache_idempotent (appRootPath dir : path) w c w' :
  new_Cache appRootPath dir w = (Ok c, w') →
  ∃ w'', new_Cache appRootPath dir w' = (Ok c, w'') ∧
         files w'' = files w' ∧ remote_state w'' = remote_state w'.
Proof.
  intros (fs1 & fs2 & H1 & H2 & H3 & _ & ->)%new_Cache_Ok.
  assert (Hl : directory_at (files w') (latestOutputsHashesDir dir))
    by (by eapply ensureDir_directory_at).
  assert (Ht : directory_at (files w') (terminalOutputsDir dir)).
  { eapply directory_at_keeps; [by eapply ensureDir_keeps|].
    by eapply ensureDir_directory_at. }
  assert (Hd : directory_at (files w') dir).
  { eapply directory_at_prefix; [exact Ht|]. by apply prefix_app_r. }
  rewrite new_Cache_run.
  rewrite (ensureDir_existing _ _ Hd). simpl.
  rewrite (ensureDir_existing _ _ Ht). simpl.
  rewrite (ensureDir_existing _ _ Hl). by eexists.
Qed.

Lemma unblocked_keeps fs fs' p :
  (∀ k n, fs' !! k = Some n → fs !! k = Some n ∨ n = Dir) →
  unblocked fs p → unblocked fs' p.
Proof.
  intros Hadd H q c Hq Hf. destruct (Hadd _ _ Hf) as [?|?]; [|done].
  by apply (H q c).
Qed.

(** X3.  [new Cache(options)] throws exactly when a regular file sits at
    or above [terminalOutputs] or [latestOutputsHashes] of the cache
    directory, and what it throws then is the error of [ensureDirSync]:
    EEXIST or ENOTDIR. *)
Theorem new_Cache_throws_iff_blocked (appRootPath dir : path) w :
  ((∃ c w', new_Cache appRootPath dir w = (Ok c, w')) ↔
   unblocked (files w) (dir ++ ["terminalOutputs"]) ∧
   unblocked (files w) (dir ++ ["latestOutputsHashes"])) ∧
  (∀ e w', new_Cache appRootPath dir w = (Err e, w') →
           e = EEXIST ∨ e = ENOTDIR).
Proof.
  split; [split|].
  - intros (c & w' & (fs1 & fs2 & H1 & H2 & H3 & _)%new_Cache_Ok).
    assert (Hb1 : ∀ p, unblocked fs1 p → unblocked (files w) p).
    { intros p Hp q x Hq Hf. apply (Hp q x Hq).
      by eapply ensureDir_keeps. }
    assert (Hb2 : ∀ p, unblocked fs2 p → unblocked fs1 p).
    { intros p Hp q x Hq Hf. apply (Hp q x Hq).
      by eapply ensureDir_keeps. }
    split.
    + apply Hb1, ensureDir_Ok. eauto.
    + apply Hb1, Hb2, ensureDir_Ok. eauto.
  - intros [Ht Hl]. rewrite new_Cache_run.
    assert (Hd : unblocked (files w) dir).
    { intros q x Hq. apply Ht. etrans; [exact Hq|]. by apply prefix_app_r. }
    apply ensureDir_Ok in Hd as [fs1 H1]. rewrite H1. simpl.
    assert (Ht1 : unblocked fs1 (terminalOutputsDir dir)).
    { eapply unblocked_keeps; [|exact Ht]. intros k n Hk.
      destruct (ensureDir_adds _ _ _ H1 k n Hk) as [?|(? & _)]; auto. }
    assert (Hl1 : unblocked fs1 (latestOutputsHashesDir dir)).
    { eapply unblocked_keeps; [|exact Hl]. intros k n Hk.
      destruct (ensureDir_adds _ _ _ H1 k n Hk) as [?|(? & _)]; auto. }
    apply ensureDir_Ok in Ht1 as [fs2 H2]. rewrite H2. simpl.
    assert (Hl2 : unblocked fs2 (latestOutputsHashesDir dir)).
    { eapply unblocked_keeps; [|exact Hl1]. intros k n Hk.
      destruct (ensureDir_adds _ _ _ H2 k n Hk) as [?|(? & _)]; auto. }
    apply ensureDir_Ok in Hl2 as [fs3 H3]. rewrite H3. by eexists _, _.
  - intros e w'. rewrite new_Cache_run.
    destruct (ensureDir (files w) dir) as [fs1|e1] eqn:E1; simpl.
    2:{ intros [= <- _]. by eapply ensureDir_Err. }
    destruct (ensureDir fs1 _) as [fs2|e2] eqn:E2; simpl.
    2:{ intros [= <- _]. by eapply ensureDir_Err. }
    destruct (ensureDir fs2 _) as [fs3|e3] eqn:E3; simpl; [done|].
    intros [= <- _]. by eapply ensureDir_Err.
Qed.
End ConstructionFacts.

Section StringFacts.

Lemma length_append (s t : string) :
  String.length (s +:+ t) = String.length s + String.length t.
Proof. induction s as [|a s IH]; simpl; [done|]. by rewrite IH. Qed.

Lemma append_same_length (s s' t t' : string) :
  String.length t = String.length t' →
  s +:+ t = s' +:+ t' → s = s' ∧ t = t'.
Proof.
  intros Hlen. revert s'. induction s as [|a s IH]; intros [|b s']; try done.
  - intros H%(f_equal String.length).
    rewrite !length_append in H. simpl in H. lia.
  - intros H%(f_equal String.length).
    rewrite !length_append in H. simpl in H. lia.
  - intros [= -> [-> ->]%IH]. done.
Qed.

Lemma append_cancel_r (s s' t : string) : s +:+ t = s' +:+ t → s = s'.
Proof. by intros [? _]%append_same_length. Qed.

End StringFacts.

Section RecordNames.

Lemma all_chars_app (p : ascii → bool) (s t : string) :
  all_chars p (s +:+ t) = all_chars p s && all_chars p t.
Proof.
  induction s as [|a s IH]; simpl; [done|].
  by rewrite IH, andb_assoc.
Qed.

Lemma split_free (s : string) :
  all_chars no_sep s = true → split sep s = [s].
Proof.
  induction s as [|a s IH]; simpl; [done|].
  intros [Ha Hs]%andb_prop. unfold no_sep in Ha.
  destruct (Ascii.eqb a sep); [done|]. by rewrite (IH Hs).
Qed.

Lemma concat_cons (a : ascii) (h : string) (t : list string) :
  join_with "-" (String a h :: t) = String a (join_with "-" (h :: t)).
Proof. by destruct t. Qed.

Lemma join_split_free (s : string) :
  all_chars no_sep (join_with "-" (split sep s)) = true.
Proof.
  induction s as [|a s IH]; simpl; [done|].
  pose proof (split_nonempty sep s) as Hne.
  destruct (Ascii.eqb a sep) eqn:Ea.
  - destruct (split sep s) as [|h t]; [done|]. exact IH.
  - destruct (split sep s) as [|h t]; [done|].
    rewrite concat_cons. simpl. unfold no_sep at 1. by rewrite Ea.
Qed.

Lemma record_name_plain (output : string) :
  plain_name (record_name output).
Proof.
  unfold record_name, plain_name. split.
  - apply split_free. rewrite all_chars_app, join_split_free. done.
  - by destruct (join_with "-" (split sep output)) as [|a [|b [|c s]]].
Qed.

Lemma hashFile_name (cachePath : path) (output : string) :
  getFileNameWithLatestRecordedHashForOutput cachePath output =
  latestOutputsHashesDir cachePath ++ [record_name output].
Proof.
  unfold getFileNameWithLatestRecordedHashForOutput.
  apply join_plain, record_name_plain.
Qed.

Lemma latestOutputsHashesDir_name (cachePath : path) :
  latestOutputsHashesDir cachePath = cachePath ++ ["latestOutputsHashes"].
Proof. reflexivity. Qed.


Lemma join_split_dashed (s : string) :
  join_with "-" (split sep s) = dashed s.
Proof.
  induction s as [|a s IH]; simpl; [done|].
  pose proof (split_nonempty sep s) as Hne.
  destruct (Ascii.eqb a sep) eqn:Ea.
  - destruct (split sep s) as [|h t]; [done|]. by rewrite <- IH.
  - destruct (split sep s) as [|h t]; [done|].
    by rewrite concat_cons, IH.
Qed.

(** X4.  The record file of an output lies directly inside
    [latestOutputsHashes/], whatever the output is: separators, [.] and
    [..] in it lead nowhere else.  Its name is the output with every
    separator replaced by a dash, followed by [.hash]; so two outputs
    share a record file exactly when they are equal up to dashes in the
    place of separators. *)
Theorem record_file_is_dashed_output (cachePath : path) (output : string) :
  getFileNameWithLatestRecordedHashForOutput cachePath output =
    cachePath ++ ["latestOutputsHashes"; dashed output +:+ ".hash"] ∧
  dirname (getFileNameWithLatestRecordedHashForOutput cachePath output) =
    latestOutputsHashesDir cachePath ∧
  ∀ other,
    getFileNameWithLatestRecordedHashForOutput cachePath output =
    getFileNameWithLatestRecordedHashForOutput cachePath other
    ↔ dashed output = dashed other.
Proof.
  assert (Hname : ∀ o,
            getFileNameWithLatestRecordedHashForOutput cachePath o =
            cachePath ++ ["latestOutputsHashes"; dashed o +:+ ".hash"]).
  { intros o. rewrite hashFile_name, latestOutputsHashesDir_name.
    unfold record_name. by rewrite join_split_dashed, <- (assoc_L (++)). }
  split; [done|]. split.
  - rewrite hashFile_name. unfold dirname. by rewrite removelast_last.
  - intros other. rewrite !Hname. split.
    + intros H. apply app_inv_head in H. injection H as H.
      by apply append_cancel_r in H.
    + by intros ->.
Qed.
End RecordNames.

Section Records.
Context {R : Type}.
Variables root cachePath : path.
Implicit Types (w : world R) (fs : gmap path node).

Lemma try_unlink_run (p : path) w :
  try_catch (unlinkAsync p) (λ _, mret tt) w =
  (Ok tt, World (unlinked (files w) p) (remote_state w)
            (trace w ++ [EvUnlink p])).
Proof.
  unfold try_catch, unlinkAsync, update, unlinked, logged.
  by destruct (unlink (files w) p).
Qed.

Lemma removeRecordedOutputsHashes_run outputs w :
  removeRecordedOutputsHashes cachePath outputs w =
  (Ok tt,
   World (foldl (λ fs o,
            unlinked fs (getFileNameWithLatestRecordedHashForOutput
                           cachePath o)) (files w) outputs)
         (remote_state w)
         (trace w ++
          ((λ o, EvUnlink (getFileNameWithLatestRecordedHashForOutput
                             cachePath o)) <$> outputs))).
Proof.
  revert w. induction outputs as [|o rest IH]; intros w; simpl.
  - rewrite app_nil_r. by destruct w.
  - rewrite bind_run, try_unlink_run, IH. simpl.
    by rewrite <- (assoc_L (++)).
Qed.

Lemma unlinked_lookup fs p k :
  unlinked fs p !! k =
  if decide (k = p) then unless_file (fs !! k) else fs !! k.
Proof.
  unfold unlinked, unlink, unless_file.
  case_decide as Hd.
  - subst k. destruct (fs !! p) as [[c|]|] eqn:E; try done.
    by rewrite lookup_delete_eq.
  - destruct (fs !! p) as [[c|]|] eqn:E; try done.
    by rewrite lookup_delete_ne.
Qed.

Lemma unless_file_idemp (o : option node) :
  unless_file (unless_file o) = unless_file o.
Proof. by destruct o as [[]|]. Qed.

Lemma unlinked_all_lookup (ps : list path) fs k :
  foldl unlinked fs ps !! k =
  if decide (k ∈ ps) then unless_file (fs !! k) else fs !! k.
Proof.
  revert fs. induction ps as [|p ps IH]; intros fs.
  - case_decide as Hd; [by apply elem_of_nil in Hd|done].
  - cbn [foldl]. rewrite IH, unlinked_lookup.
    destruct (decide (k = p)) as [->|Hne].
    + rewrite (decide_True (P := p ∈ p :: ps)) by left.
      case_decide; [apply unless_file_idemp|done].
    + destruct (decide (k ∈ ps)) as [Hin|Hin].
      * rewrite decide_True; [done|by right].
      * rewrite decide_False; [done|].
        intros [?|?]%elem_of_cons; done.
Qed.

Lemma foldl_fmap_paths {A} (f : A → path) (l : list A) fs :
  foldl (λ fs o, unlinked fs (f o)) fs l = foldl unlinked fs (f <$> l).
Proof.
  revert fs. induction l as [|a l IH]; intros fs; simpl; [done|apply IH].
Qed.

(** X5.  [removeRecordedOutputsHashes] never throws; it makes one [unlink]
    call per declared output, in order, and changes nothing except that the
    record files of the declared outputs are gone; afterwards no declared
    output has a hash on record. *)
Theorem removeRecordedOutputsHashes_only_unlinks outputs w :
  let name := getFileNameWithLatestRecordedHashForOutput cachePath in
  ∃ w', removeRecordedOutputsHashes cachePath outputs w = (Ok tt, w') ∧
    remote_state w' = remote_state w ∧
    trace w' = trace w ++ ((λ o, EvUnlink (name o)) <$> outputs) ∧
    (∀ k, files w' !! k =
          if decide (k ∈ name <$> outputs) then unless_file (files w !! k)
          else files w !! k) ∧
    (∀ o, o ∈ outputs → recorded_hash cachePath (files w') o = None).
Proof.
  intros name. rewrite removeRecordedOutputsHashes_run.
  eexists. split; [done|]. simpl. split; [done|]. split; [done|].
  fold name. rewrite foldl_fmap_paths.
  split; [apply unlinked_all_lookup|].
  intros o Ho. unfold recorded_hash, readFile. fold name.
  rewrite unlinked_all_lookup.
  rewrite decide_True by (by apply list_elem_of_fmap_2).
  by destruct (files w !! name o) as [[c|]|].
Qed.

(** X6.  Once [removeRecordedOutputsHashes] has run for a non-empty list of
    outputs, [shouldCopyOutputsFromCache] answers true for these outputs
    and any task, whatever the state of the cached and workspace copies:
    it does not throw and it changes no file. *)
Theorem removed_records_force_copy
    (twcr : TaskWithCachedResult) outputs w :
  outputs ≠ [] →
  let w1 := (removeRecordedOutputsHashes cachePath outputs w).2 in
  ∃ w2, shouldCopyOutputsFromCache root cachePath twcr outputs w1
          = (Ok true, w2) ∧
        files w2 = files w1.
Proof.
  intros Hne w1.
  assert (Hclear : ∀ o, o ∈ outputs →
            recorded_hash cachePath (files w1) o = None).
  { intros o Ho. subst w1. rewrite removeRecordedOutputsHashes_run. simpl.
    unfold recorded_hash, readFile.
    rewrite foldl_fmap_paths, unlinked_all_lookup.
    rewrite decide_True
      by (by apply (list_elem_of_fmap_2
                      (getFileNameWithLatestRecordedHashForOutput cachePath))).
    by destruct (files w !! _) as [[c|]|]. }
  unfold shouldCopyOutputsFromCache, orM, bind.
  destruct (areLatestOutputsHashesDifferent_run cachePath outputs
              (hash (task twcr)) w1) as (w2 & -> & Hf & _).
  destruct outputs as [|o rest]; [done|]. simpl.
  unfold hash_differs at 1. rewrite (Hclear o) by left.
  simpl. by exists w2.
Qed.

Lemma try_record_run (p : path) (h : string) w :
  ∃ evs,
    try_catch (ensureDirAsync (dirname p);; writeFileAsync p h)
      (λ _, mret tt) w =
    (Ok tt, World (recorded (files w) p h) (remote_state w) (trace w ++ evs)).
Proof.
  unfold try_catch, ensureDirAsync, writeFileAsync, recorded.
  unfold mbind, M_bind, bind, update, logged.
  destruct (ensureDir (files w) (dirname p)) as [fs1|e]; simpl.
  - destruct (writeFile fs1 p h) as [fs2|e]; simpl;
      rewrite <- (assoc_L (++)); by eexists.
  - by eexists.
Qed.

Lemma recordOutputsHash_run outputs h w :
  ∃ evs,
    recordOutputsHash cachePath outputs h w =
    (Ok tt,
     World (foldl (λ fs o,
              recorded fs (getFileNameWithLatestRecordedHashForOutput
                             cachePath o) h) (files w) outputs)
           (remote_state w) (trace w ++ evs)).
Proof.
  revert w. induction outputs as [|o rest IH]; intros w; simpl.
  - exists []. rewrite app_nil_r. by destruct w.
  - rewrite bind_run.
    destruct (try_record_run
                (getFileNameWithLatestRecordedHashForOutput cachePath o) h w)
      as (evs1 & ->).
    destruct (IH (World (recorded (files w)
                           (getFileNameWithLatestRecordedHashForOutput
                              cachePath o) h)
                    (remote_state w) (trace w ++ evs1))) as (evs2 & ->).
    simpl. exists (evs1 ++ evs2). by rewrite <- (assoc_L (++)).
Qed.

Lemma recorded_good fs (dir : path) (x h : string) :
  directory_at fs dir → fs !! (dir ++ [x]) ≠ Some Dir →
  recorded fs (dir ++ [x]) h = <[dir ++ [x] := File h]> fs.
Proof.
  intros Hdir Hx. unfold recorded, dirname. rewrite removelast_last.
  rewrite (ensureDir_existing _ _ Hdir).
  unfold writeFile, parent_error, dirname. rewrite removelast_last.
  rewrite (Hdir dir) by done.
  by destruct (fs !! (dir ++ [x])) as [[]|].
Qed.

Lemma record_all_good outputs h fs :
  let name := getFileNameWithLatestRecordedHashForOutput cachePath in
  directory_at fs (latestOutputsHashesDir cachePath) →
  (∀ o, o ∈ outputs → fs !! name o ≠ Some Dir) →
  ∀ k, foldl (λ fs o, recorded fs (name o) h) fs outputs !! k =
       if decide (k ∈ name <$> outputs) then Some (File h) else fs !! k.
Proof.
  intros name. revert fs.
  induction outputs as [|o rest IH]; intros fs Hdir Hnd k.
  - case_decide as Hd; [by apply elem_of_nil in Hd|done].
  - cbn [foldl]. unfold name at 2. rewrite hashFile_name.
    assert (Hname : ∀ o', name o' =
              latestOutputsHashesDir cachePath ++ [record_name o'])
      by (intros o'; apply hashFile_name).
    rewrite recorded_good; [|done|].
    2:{ rewrite <- Hname. apply Hnd. left. }
    rewrite <- Hname. rewrite IH.
    + rewrite fmap_cons. destruct (decide (k ∈ name <$> rest)) as [Hin|Hin].
      * rewrite decide_True; [done|by right].
      * destruct (decide (k = name o)) as [->|Hne].
        -- rewrite decide_True by left. by rewrite lookup_insert_eq.
        -- rewrite decide_False by (intros [?|?]%elem_of_cons; done).
           by rewrite lookup_insert_ne.
    + intros q Hq. rewrite lookup_insert_ne; [by apply Hdir|].
      rewrite Hname. intros <-. apply prefix_length in Hq.
      rewrite length_app in Hq. simpl in Hq. lia.
    + intros o' Ho'. destruct (decide (name o = name o')) as [<-|Hne].
      * by rewrite lookup_insert_eq.
      * rewrite lookup_insert_ne by done. apply Hnd. by right.
Qed.

(** X7.  With [latestOutputsHashes/] in place and no directory squatting on
    a record's name, [recordOutputsHash] writes the hash [h] to the record
    file of every declared output and changes nothing else; the hash read
    back for each output is [h], so the comparison with [h] finds no
    difference, and the comparison with any other hash finds one. *)
Theorem recorded_hashes_are_read_back outputs h w :
  let name := getFileNameWithLatestRecordedHashForOutput cachePath in
  directory_at (files w) (latestOutputsHashesDir cachePath) →
  (∀ o, o ∈ outputs → files w !! name o ≠ Some Dir) →
  let w1 := (recordOutputsHash cachePath outputs h w).2 in
  (∀ k, files w1 !! k =
        if decide (k ∈ name <$> outputs) then Some (File h)
        else files w !! k) ∧
  (∀ o, o ∈ outputs →
     (getLatestRecordedHashForTask cachePath o w1).1 = Ok (Some h)) ∧
  (areLatestOutputsHashesDifferentThanTaskHash cachePath outputs h w1).1
    = Ok false ∧
  (∀ h', h' ≠ h → outputs ≠ [] →
     (areLatestOutputsHashesDifferentThanTaskHash cachePath outputs h' w1).1
       = Ok true).
Proof.
  intros name Hdir Hnd w1.
  assert (Hfiles : ∀ k, files w1 !! k =
            if decide (k ∈ name <$> outputs) then Some (File h)
            else files w !! k).
  { intros k. subst w1.
    destruct (recordOutputsHash_run outputs h w) as (evs & ->). simpl.
    by apply record_all_good. }
  assert (Hrec : ∀ o, o ∈ outputs →
            recorded_hash cachePath (files w1) o = Some h).
  { intros o Ho. unfold recorded_hash, readFile. fold name.
    rewrite Hfiles, decide_True; [done|]. by apply list_elem_of_fmap_2. }
  split; [done|]. split; [|split].
  - intros o Ho.
    destruct (getLatestRecordedHashForTask_run cachePath o w1)
      as (w2 & -> & _). simpl. by rewrite Hrec.
  - destruct (areLatestOutputsHashesDifferent_run cachePath outputs h w1)
      as (w2 & -> & _). simpl. f_equal.
    apply not_true_is_false. intros (o & Ho & Hd)%existsb_exists.
    apply list_elem_of_In in Ho. unfold hash_differs in Hd.
    rewrite (Hrec o Ho) in Hd. by apply bool_decide_eq_true in Hd.
  - intros h' Hh' Hne.
    destruct (areLatestOutputsHashesDifferent_run cachePath outputs h' w1)
      as (w2 & -> & _). simpl. f_equal.
    destruct outputs as [|o rest]; [done|]. simpl.
    unfold hash_differs at 1. rewrite (Hrec o) by left.
    rewrite bool_decide_eq_true_2; [done|]. congruence.
Qed.

Lemma recorded_keeps fs p h k n :
  fs !! k = Some n →
  recorded fs p h !! k = Some n ∨
  (k = p ∧ recorded fs p h !! k = Some (File h)).
Proof.
  intros Hk. unfold recorded.
  destruct (ensureDir fs (dirname p)) as [fs1|e] eqn:E1; [|by left].
  pose proof (ensureDir_keeps _ _ _ E1 k n Hk) as H1.
  destruct (writeFile fs1 p h) as [fs2|e] eqn:E2; [|by left].
  apply writeFile_Ok in E2 as ->.
  destruct (decide (k = p)) as [->|Hne].
  - right. by rewrite lookup_insert_eq.
  - left. by rewrite lookup_insert_ne.
Qed.

Lemma recorded_adds fs p h k n :
  recorded fs p h !! k = Some n →
  fs !! k = Some n ∨
  (n = Dir ∧ k `prefix_of` dirname p) ∨
  (n = File h ∧ k = p).
Proof.
  unfold recorded.
  destruct (ensureDir fs (dirname p)) as [fs1|e] eqn:E1; [|by left].
  assert (H1 : fs1 !! k = Some n →
            fs !! k = Some n ∨ (n = Dir ∧ k `prefix_of` dirname p)).
  { intros Hk.
    destruct (ensureDir_adds _ _ _ E1 k n Hk) as [?|(? & _ & ?)]; auto. }
  destruct (writeFile fs1 p h) as [fs2|e] eqn:E2.
  - apply writeFile_Ok in E2 as ->.
    destruct (decide (k = p)) as [->|Hne].
    + rewrite lookup_insert_eq. intros [= <-]. auto.
    + rewrite lookup_insert_ne by done. intros Hk.
      destruct (H1 Hk); auto.
  - intros Hk. destruct (H1 Hk); auto.
Qed.

(** X8.  [recordOutputsHash] never throws, whatever the state of the disk:
    a record that cannot be written is skipped in silence.  It deletes
    nothing: every entry stays as it was, except a record file of a
    declared output, which may now hold the hash [h].  What it adds are
    record files holding [h] and directories on the way to
    [latestOutputsHashes/]. *)
Theorem recordOutputsHash_never_throws outputs h w :
  let name := getFileNameWithLatestRecordedHashForOutput cachePath in
  ∃ w', recordOutputsHash cachePath outputs h w = (Ok tt, w') ∧
    remote_state w' = remote_state w ∧
    (∀ k n, files w !! k = Some n →
       files w' !! k = Some n ∨
       (k ∈ name <$> outputs ∧ files w' !! k = Some (File h))) ∧
    (∀ k n, files w' !! k = Some n →
       files w !! k = Some n ∨
       (n = Dir ∧ k `prefix_of` latestOutputsHashesDir cachePath) ∨
       (n = File h ∧ k ∈ name <$> outputs)).
Proof.
  intros name. destruct (recordOutputsHash_run outputs h w) as (evs & ->).
  eexists. split; [done|]. simpl. split; [done|]. fold name.
  generalize (files w) as fs. clear w evs.
  induction outputs as [|o rest IH]; intros fs; cbn [foldl].
  - split; intros k n Hk; by left.
  - destruct (IH (recorded fs (name o) h)) as [IHk IHa]. split.
    + intros k n Hk.
      destruct (recorded_keeps fs (name o) h k n Hk) as [H1|[-> H1]].
      * destruct (IHk k n H1) as [?|[? ?]]; [by left|].
        right. split; [|done]. rewrite fmap_cons. by right.
      * right. split; [rewrite fmap_cons; by left|].
        destruct (IHk _ _ H1) as [?|[? ?]]; done.
    + intros k n Hk.
      destruct (IHa k n Hk) as [H1|[[-> H1]|[-> H1]]].
      * destruct (recorded_adds _ _ _ _ _ H1) as [?|[[-> Hp]|[-> ->]]].
        -- by left.
        -- right; left. split; [done|]. unfold name in Hp.
           rewrite hashFile_name in Hp. unfold dirname in Hp.
           by rewrite removelast_last in Hp.
        -- right; right. split; [done|]. rewrite fmap_cons. by left.
      * by right; left.
      * right; right. split; [done|]. rewrite fmap_cons. by right.
Qed.
End Records.

Section Untouched.
Context {R : Type}.
Implicit Types (w : world R) (fs : gmap path node) (k p : path).

Lemma untouched_ret {A} k (a : A) : untouched k (mret a : M R A).
Proof. by intros w. Qed.

Lemma untouched_bind {A B} k (m : M R A) (f : A → M R B) :
  untouched k m → (∀ a, untouched k (f a)) → untouched k (m ≫= f).
Proof.
  intros Hm Hf w. rewrite bind_run. specialize (Hm w).
  destruct (m w) as [[a|e] w1]; simpl in *; [|done].
  by rewrite Hf.
Qed.

Lemma untouched_query {A} k (ev : event) (f : gmap path node → outcome A) :
  untouched k (query (R:=R) ev f).
Proof. by intros w. Qed.

Lemma untouched_update k (ev : event)
    (f : gmap path node → outcome (gmap path node)) :
  (∀ fs fs', f fs = Ok fs' → fs' !! k = fs !! k) →
  untouched k (update (R:=R) ev f).
Proof.
  intros Hf w. unfold update.
  destruct (f (files w)) as [fs'|e] eqn:E; simpl; [by apply Hf|done].
Qed.

Lemma untouched_remove k p slash :
  ¬ p `prefix_of` k → untouched k (removeAsync (R:=R) p slash).
Proof.
  intros Hp. apply untouched_update. intros fs fs' ->%remove_Ok.
  by rewrite lookup_prune, decide_False.
Qed.

Lemma untouched_mkdir k p : k ≠ p → untouched k (mkdirAsync (R:=R) p).
Proof.
  intros Hp. apply untouched_update. intros fs fs' ->%mkdir_Ok.
  by rewrite lookup_insert_ne.
Qed.

Lemma untouched_writeFile k p data :
  k ≠ p → untouched k (writeFileAsync (R:=R) p data).
Proof.
  intros Hp. apply untouched_update. intros fs fs' ->%writeFile_Ok.
  by rewrite lookup_insert_ne.
Qed.

Lemma ensureDir_frame fs p fs' k :
  ensureDir fs p = Ok fs' → ¬ k `prefix_of` p → fs' !! k = fs !! k.
Proof.
  intros H Hk. destruct (fs !! k) as [n|] eqn:E.
  - by eapply ensureDir_keeps.
  - destruct (fs' !! k) as [n|] eqn:E'; [|done].
    destruct (ensureDir_adds _ _ _ H k n E') as [?|(_ & _ & ?)];
      [congruence|done].
Qed.

Lemma untouched_ensureDir k p :
  ¬ k `prefix_of` p → untouched k (ensureDirAsync (R:=R) p).
Proof.
  intros Hp. apply untouched_update. intros fs fs' H.
  by eapply ensureDir_frame.
Qed.

Lemma prefix_dirname k p : k `prefix_of` dirname p → k `prefix_of` p.
Proof.
  unfold dirname. intros [x Hx]. destruct p as [|a p] using rev_ind.
  - simpl in Hx. destruct k; [by exists []|done].
  - rewrite removelast_last in Hx. subst p. exists (x ++ [a]).
    by rewrite (assoc_L (++)).
Qed.

Lemma copy_frame fs src dest ss ds fs' k :
  copy fs src dest ss ds = Ok fs' →
  ¬ dest `prefix_of` k → ¬ k `prefix_of` dest → fs' !! k = fs !! k.
Proof.
  intros (fs1 & H1 & Hlk)%copy_lookup Hd Hk. rewrite Hlk.
  apply strip_None in Hd. rewrite Hd.
  eapply ensureDir_frame; [exact H1|].
  intros ?%prefix_dirname. done.
Qed.

Lemma untouched_copy k src dest ss ds :
  ¬ dest `prefix_of` k → ¬ k `prefix_of` dest →
  untouched k (copyAsync (R:=R) src dest ss ds).
Proof.
  intros Hd Hk. apply untouched_update. intros fs fs' H.
  by eapply copy_frame.
Qed.

Lemma absent_when_thrown_update k (ev : event)
    (f : gmap path node → outcome (gmap path node)) :
  absent_when_thrown k (update (R:=R) ev f ≫= λ _, mret tt).
Proof.
  intros w e w' Hk. rewrite bind_run. unfold update.
  destruct (f (files w)) as [fs'|e'] eqn:E; [done|].
  by intros [= _ <-].
Qed.

Lemma absent_when_thrown_bind {A B} k (m : M R A) (f : A → M R B) :
  untouched k m → (∀ a, absent_when_thrown k (f a)) →
  absent_when_thrown k (m ≫= f).
Proof.
  intros Hm Hf w e w' Hk. rewrite bind_run. specialize (Hm w).
  destruct (m w) as [[a|e1] w1]; simpl in Hm.
  - apply Hf. by rewrite Hm.
  - intros [= _ <-]. by rewrite Hm.
Qed.
End Untouched.

Section PutFrame.
Context {R : Type}.
Variables root cachePath : path.
Variable remoteCache : option (RemoteCache R).
Implicit Types (w : world R) (task : Task) (td k : path).

Lemma not_prefix_longer (p x : path) : x ≠ [] → ¬ p ++ x `prefix_of` p.
Proof.
  intros Hx H%prefix_length. rewrite length_app in H.
  destruct x; [done|]. simpl in H. lia.
Qed.

Lemma not_prefix_below td x k : apart td k → ¬ k `prefix_of` td ++ x.
Proof.
  intros [H1 H2] Hk. by destruct (prefix_of_branch _ _ _ Hk).
Qed.

Lemma not_below_prefix td x k : ¬ td `prefix_of` k → ¬ td ++ x `prefix_of` k.
Proof. intros H1 Hk. apply H1. etrans; [|exact Hk]. by apply prefix_app_r. Qed.

Lemma untouched_put_output td f k :
  confined f → apart td k → untouched k (put_output (R:=R) root td f).
Proof.
  intros [r Hr] Hk. unfold put_output.
  rewrite (join_confined root f r Hr).
  rewrite (join_confined _ f r Hr), join_name, <- (assoc_L (++)).
  apply untouched_bind; [apply untouched_query|intros present].
  destruct present; [|apply untouched_ret].
  apply untouched_bind; [apply untouched_query|intros isFile].
  apply untouched_bind; [|intros _].
  - apply untouched_ensureDir. destruct isFile.
    + rewrite resolve_parent. intros ?%prefix_dirname.
      by eapply not_prefix_below.
    + by apply not_prefix_below.
  - apply untouched_copy.
    + apply not_below_prefix, Hk.
    + by apply not_prefix_below.
Qed.

Lemma untouched_put_outputs td outputs k :
  Forall confined outputs → apart td k →
  untouched k (put_outputs (R:=R) root td outputs).
Proof.
  intros Hconf Hk. induction Hconf as [|f rest Hf _ IH]; simpl.
  - apply untouched_ret.
  - apply untouched_bind; [by apply untouched_put_output|by intros _].
Qed.

Lemma below_neq td x k : ¬ td `prefix_of` k → k ≠ td ++ x.
Proof. intros H ->. apply H. by apply prefix_app_r. Qed.

Lemma self_neq td k : ¬ td `prefix_of` k → k ≠ td.
Proof. by intros H ->. Qed.

Lemma untouched_put_local task text outputs c k :
  Forall confined outputs →
  apart (entryDir cachePath (hash task)) k →
  ¬ commitMarker cachePath (hash task) `prefix_of` k →
  untouched k (put (R:=R) root cachePath None task text outputs c).
Proof.
  intros Hconf Hk Hm. unfold put.
  set (td := entryDir cachePath (hash task)) in *.
  set (marker := commitMarker cachePath (hash task)) in *.
  rewrite join_terminalOutput, join_code, join_name.
  destruct Hk as [Hk1 Hk2].
  apply untouched_bind; [by apply untouched_remove|intros _].
  apply untouched_bind; [by apply untouched_remove|intros _].
  apply untouched_bind; [by apply untouched_mkdir, self_neq|intros _].
  apply untouched_bind; [by apply untouched_writeFile, below_neq|intros _].
  apply untouched_bind; [by apply untouched_mkdir, below_neq|intros _].
  apply untouched_bind; [by apply untouched_put_outputs|intros _].
  apply untouched_bind; [by apply untouched_writeFile, below_neq|intros _].
  apply untouched_bind; [by apply untouched_writeFile, self_neq|intros _].
  apply untouched_ret.
Qed.

Lemma put_remote_files task text outputs c w :
  (∀ rc, remoteCache = Some rc → store_keeps_files rc) →
  files (put root cachePath remoteCache task text outputs c w).2 =
  files (put root cachePath None task text outputs c w).2.
Proof.
  intros Hkeep. rewrite put_remote_split.
  destruct (put root cachePath None task text outputs c w)
    as [[[]|e] w1]; [|done].
  destruct remoteCache as [rc|]; [|done].
  unfold remote_call.
  pose proof (Hkeep rc eq_refl (hash task) cachePath (files w1)
                (remote_state w1)) as Hrc.
  by destruct (store rc _ _ _ _) as [[r fs'] st'].
Qed.

(** X9.  [put] writes only its own entry.  For declared outputs that stay
    inside the workspace and a remote cache (if any) whose [store] leaves
    the local files alone: every path that is neither inside nor above the
    entry directory [<hash>/], and is not the commit marker [<hash>.commit]
    or below it, holds after [put] what it held before, whether [put]
    returns or throws. *)
Theorem put_touches_only_its_entry task text outputs c w k :
  Forall confined outputs →
  (∀ rc, remoteCache = Some rc → store_keeps_files rc) →
  apart (entryDir cachePath (hash task)) k →
  ¬ commitMarker cachePath (hash task) `prefix_of` k →
  files (put root cachePath remoteCache task text outputs c w).2 !! k
    = files w !! k.
Proof.
  intros Hconf Hkeep Hk Hm.
  rewrite put_remote_files by done.
  by apply untouched_put_local.
Qed.

Lemma sibling_prefix (cp x : path) (a b : string) :
  cp ++ [a] `prefix_of` cp ++ b :: x → a = b.
Proof. intros H%prefix_app_inv. by apply prefix_cons_inv_1 in H. Qed.

Lemma nephew_prefix (cp x : path) (a b y : string) :
  ¬ cp ++ a :: y :: x `prefix_of` cp ++ [b].
Proof.
  intros H%prefix_length. rewrite !length_app in H. simpl in H. lia.
Qed.

Lemma entry_apart (cp x : path) (a b : string) :
  a ≠ b → apart (cp ++ [a]) (cp ++ b :: x) ∧
          ¬ cp ++ [a] `prefix_of` cp ++ b :: x.
Proof.
  intros Hne.
  assert (H1 : ¬ cp ++ [a] `prefix_of` cp ++ b :: x)
    by (by intros ?%sibling_prefix).
  split; [split|]; try done.
  intros H%prefix_app_inv. apply prefix_cons_inv_1 in H. done.
Qed.


Lemma removeAsync_run (p : path) w :
  removeAsync p false w
  = (Ok tt, logged (EvRemove p) w (prune (files w) p)).
Proof. unfold removeAsync, update. by rewrite remove_plain. Qed.

Lemma put_local_thrown task text outputs c w e w' :
  plain_name (hash task) →
  Forall confined outputs →
  put root cachePath None task text outputs c w = (Err e, w') →
  files w' !! commitMarker cachePath (hash task) = None.
Proof.
  intros Hplain Hconf. unfold put.
  rewrite join_terminalOutput, join_code, join_name.
  assert (Hc : hash task +:+ ".commit" ≠ hash task)
    by (by intros ?%append_same).
  assert (Hap : apart (entryDir cachePath (hash task))
                  (commitMarker cachePath (hash task)) ∧
                ¬ entryDir cachePath (hash task)
                    `prefix_of` commitMarker cachePath (hash task)).
  { unfold entryDir, commitMarker.
    rewrite (join_plain _ _ Hplain), (join_plain_suffix _ _ Hplain).
    by apply entry_apart. }
  destruct Hap as [Hap Hnp].
  set (td := entryDir cachePath (hash task)) in *.
  set (marker := commitMarker cachePath (hash task)) in *.
  rewrite bind_run, removeAsync_run. intros H.
  match type of H with
  | ?m _ = _ => assert (Habs : absent_when_thrown marker m)
  end.
  { apply absent_when_thrown_bind; [by apply untouched_remove|intros _].
    apply absent_when_thrown_bind;
      [by apply untouched_mkdir, self_neq|intros _].
    apply absent_when_thrown_bind;
      [by apply untouched_writeFile, below_neq|intros _].
    apply absent_when_thrown_bind;
      [by apply untouched_mkdir, below_neq|intros _].
    apply absent_when_thrown_bind;
      [by apply untouched_put_outputs|intros _].
    apply absent_when_thrown_bind;
      [by apply untouched_writeFile, below_neq|intros _].
    apply absent_when_thrown_update. }
  eapply Habs; [|exact H]. simpl. by rewrite lookup_prune, decide_True.
Qed.

(** X11.  A [put] that throws before reaching the remote [store] leaves no
    committed entry for its hash, even when one was committed before: for
    a path-safe hash and declared outputs that stay inside the workspace,
    the commit marker is absent from the state it leaves, and the local
    store's [get] answers absent. *)
Theorem put_thrown_before_store_is_not_committed
    task text outputs c w e w' evs :
  plain_name (hash task) →
  Forall confined outputs →
  put root cachePath remoteCache task text outputs c w = (Err e, w') →
  trace w' = trace w ++ evs →
  EvStore (hash task) cachePath ∉ evs →
  files w' !! commitMarker cachePath (hash task) = None ∧
  (getFromLocalDir cachePath task w').1 = Ok None.
Proof.
  intros Hplain Hconf Hput Htrace Hstore.
  assert (Hm : files w' !! commitMarker cachePath (hash task) = None).
  { rewrite put_remote_split in Hput.
    destruct (put root cachePath None task text outputs c w)
      as [[[]|e0] w1] eqn:Hlocal.
    - destruct remoteCache as [rc|]; [|done].
      destruct (quiet_put_local root cachePath task text outputs c w)
        as (evs0 & Ht0 & _).
      rewrite Hlocal in Ht0. simpl in Ht0.
      unfold remote_call in Hput.
      destruct (store rc _ _ _ _) as [[r fs'] st'].
      injection Hput as _ <-. simpl in Htrace.
      rewrite Ht0, <- (assoc_L (++)) in Htrace.
      apply app_inv_head in Htrace as <-.
      destruct Hstore. apply elem_of_app. right. left.
    - injection Hput as -> ->. by eapply put_local_thrown. }
  split; [done|]. rewrite getFromLocalDir_run. cbv zeta. by rewrite Hm.
Qed.






End PutFrame.

Section Restore.
Context {R : Type}.
Variables root cachePath : path.
Implicit Types (w : world R) (fs : gmap path node) (k : path)
  (cr : CachedResult).

Lemma restore_outputs_cons cr f rest w :
  restore_outputs root cr (f :: rest) w =
  (restore_output root cr f ≫= λ _, restore_outputs root cr rest) w.
Proof.
  cbn [restore_outputs]. unfold restore_output.
  rewrite !bind_run.
  destruct (existsAsync (join (outputsPath cr) f) (ends_sep f) w)
    as [[present|e] w1]; [|done].
  by rewrite bind_run.
Qed.

Lemma apart_below (p q x : path) : apart p q → apart p (q ++ x).
Proof.
  intros [H1 H2]. split.
  - by apply prefix_of_app_apart.
  - intros H. apply H2. etrans; [|exact H]. by apply prefix_app_r.
Qed.

Lemma apart_sym (p q : path) : apart p q → apart q p.
Proof. by intros [??]. Qed.

Lemma untouched_restore_output cr f k :
  apart (join root f) k → untouched k (restore_output (R:=R) root cr f).
Proof.
  intros [H1 H2]. unfold restore_output.
  apply untouched_bind; [apply untouched_query|intros present].
  destruct present; [|apply untouched_ret].
  apply untouched_bind; [apply untouched_query|intros isFile].
  apply untouched_bind; [by apply untouched_remove|intros _].
  apply untouched_bind; [|intros _].
  - apply untouched_ensureDir. destruct isFile; [|done].
    rewrite resolve_parent. by intros ?%prefix_dirname.
  - by apply untouched_copy.
Qed.

Lemma untouched_restore_outputs cr outputs k :
  (∀ f, f ∈ outputs → apart (join root f) k) →
  untouched k (restore_outputs (R:=R) root cr outputs).
Proof.
  induction outputs as [|f rest IH]; intros H.
  - apply untouched_ret.
  - intros w. rewrite restore_outputs_cons. revert w.
    apply untouched_bind.
    + apply untouched_restore_output, H. left.
    + intros _. apply IH. intros g Hg. apply H. by right.
Qed.

Lemma restore_output_absent cr f w :
  exists_ (files w) (join (outputsPath cr) f) (ends_sep f) = false →
  restore_output root cr f w =
  (Ok tt, logged (EvExists (join (outputsPath cr) f)) w (files w)).
Proof.
  intros H. unfold restore_output. rewrite bind_run.
  unfold existsAsync, query. by rewrite H.
Qed.

Lemma not_prefix_dirname (p x : path) : ¬ p ++ x `prefix_of` dirname p
  ∨ p = [].
Proof.
  destruct p as [|a p] using rev_ind; [by right|left].
  unfold dirname. rewrite removelast_last. intros H%prefix_length.
  rewrite !length_app in H. simpl in H. lia.
Qed.

Lemma restore_output_copies cr f w w' :
  apart (join (outputsPath cr) f) (join root f) →
  exists_ (files w) (join (outputsPath cr) f) (ends_sep f) = true →
  restore_output root cr f w = (Ok tt, w') →
  ∀ rel, files w' !! (join root f ++ rel)
         = files w !! (join (outputsPath cr) f ++ rel).
Proof.
  set (cached := join (outputsPath cr) f). set (src := join root f).
  intros [Hcs Hsc] Hfound H rel. unfold restore_output in H.
  fold cached src in H, Hfound.
  destruct (exists_lookup _ _ _ Hfound) as [cn Hcn].
  unfold existsAsync, lstatAsync_isFile, removeAsync, ensureDirAsync,
    copyAsync in H.
  apply bind_Ok in H as (present & w1 & Hex & H).
  apply query_Ok in Hex as [[= <-] ->].
  rewrite Hfound in H.
  apply bind_Ok in H as (isFile & w2 & Hst & H).
  apply query_Ok in Hst as [Hst ->].
  assert (isFile = is_file cn) as ->.
  { unfold lstat_isFile in Hst. simpl in Hst. rewrite Hcn in Hst.
    destruct cn; [destruct (ends_sep f)|]; simpl in *; congruence. }
  apply bind_Ok in H as ([] & w3 & Hrm & H).
  apply update_Ok in Hrm as (fs1 & ->%remove_Ok & ->).
  apply bind_Ok in H as ([] & w4 & Hen & H).
  apply update_Ok in Hen as (fs2 & Hen & ->).
  apply update_Ok in H as (fs3 & Hcp & ->). simpl in *.
  change (join src "..") with (dirname src) in Hen.
  apply copy_lookup in Hcp as (fs2' & Hen' & Hlk).
  assert (Hsrc_ne : src ≠ []).
  { intros E. apply Hsc. rewrite E. apply prefix_nil. }
  assert (Hc : ∀ x, fs2' !! (cached ++ x) = files w !! (cached ++ x)).
  { intros x.
    assert (Hnp : ∀ d, d `prefix_of` src → ¬ cached ++ x `prefix_of` d).
    { intros d Hd Hp. apply Hcs. etrans; [|exact Hd].
      etrans; [|exact Hp]. by apply prefix_app_r. }
    rewrite (ensureDir_frame _ _ _ _ Hen').
    2:{ apply Hnp. unfold dirname. destruct src as [|a s] using rev_ind;
          [done|]. rewrite removelast_last. by apply prefix_app_r. }
    rewrite (ensureDir_frame _ _ _ _ Hen).
    2:{ apply Hnp. destruct (is_file cn); [|done]. unfold dirname.
        destruct src as [|a s] using rev_ind; [done|].
        rewrite removelast_last. by apply prefix_app_r. }
    rewrite lookup_prune, decide_False; [done|].
    by apply prefix_of_app_apart. }
  rewrite Hlk, strip_app, Hc.
  destruct (files w !! (cached ++ rel)) as [n|] eqn:E; [done|].
  rewrite (ensureDir_frame _ _ _ _ Hen').
  2:{ by destruct (not_prefix_dirname src rel). }
  assert (Hfs1 : prune (files w) src !! (src ++ rel) = None).
  { rewrite lookup_prune, decide_True; [done|]. by apply prefix_app_r. }
  destruct (decide (rel = [])) as [->|Hrel].
  - rewrite app_nil_r in E. congruence.
  - rewrite (ensureDir_frame _ _ _ _ Hen); [done|].
    intros Hp. destruct (is_file cn).
    + apply prefix_dirname in Hp. by apply not_prefix_longer in Hp.
    + by apply not_prefix_longer in Hp.
Qed.

Lemma untouched_run {A} k (m : M R A) w (r : outcome A) w' :
  untouched k m → m w = (r, w') → files w' !! k = files w !! k.
Proof. intros Hm H. specialize (Hm w). by rewrite H in Hm. Qed.

Lemma untouched_try_catch {A} k (m : M R A) (h : error → M R A) :
  untouched k m → (∀ e, untouched k (h e)) → untouched k (try_catch m h).
Proof.
  intros Hm Hh w. unfold try_catch. specialize (Hm w).
  destruct (m w) as [[a|e] w1]; simpl in *; [done|]. by rewrite Hh.
Qed.

Lemma untouched_unlink k p : k ≠ p → untouched k (unlinkAsync (R:=R) p).
Proof.
  intros Hp. apply untouched_update. intros fs fs'. unfold unlink.
  destruct (fs !! p) as [[c|]|]; try done. intros [= <-].
  by rewrite lookup_delete_ne.
Qed.

Lemma untouched_removeRecordedOutputsHashes k outputs :
  ¬ latestOutputsHashesDir cachePath `prefix_of` k →
  untouched k (removeRecordedOutputsHashes (R:=R) cachePath outputs).
Proof.
  intros Hk. induction outputs as [|o rest IH]; simpl.
  - apply untouched_ret.
  - apply untouched_bind; [|by intros _].
    apply untouched_try_catch; [|intros _; apply untouched_ret].
    apply untouched_unlink. rewrite hashFile_name. by apply below_neq.
Qed.

Lemma untouched_recordOutputsHash k outputs h :
  apart (latestOutputsHashesDir cachePath) k →
  untouched k (recordOutputsHash (R:=R) cachePath outputs h).
Proof.
  intros [Hk1 Hk2]. induction outputs as [|o rest IH]; simpl.
  - apply untouched_ret.
  - apply untouched_bind; [|by intros _].
    apply untouched_try_catch; [|intros _; apply untouched_ret].
    rewrite hashFile_name.
    apply untouched_bind; [|intros _].
    + apply untouched_ensureDir. unfold dirname.
      by rewrite removelast_last.
    + by apply untouched_writeFile, below_neq.
Qed.

Lemma restore_outputs_spec cr outputs w w' :
  (∀ f g, f ∈ outputs → g ∈ outputs →
          apart (join (outputsPath cr) f) (join root g)) →
  pairwise_apart (join root <$> outputs) →
  restore_outputs root cr outputs w = (Ok tt, w') →
  ∀ f, f ∈ outputs →
    (exists_ (files w) (join (outputsPath cr) f) (ends_sep f) = true →
     ∀ rel, files w' !! (join root f ++ rel)
            = files w !! (join (outputsPath cr) f ++ rel)) ∧
    (exists_ (files w) (join (outputsPath cr) f) (ends_sep f) = false →
     ∀ rel, files w' !! (join root f ++ rel)
            = files w !! (join root f ++ rel)).
Proof.
  revert w. induction outputs as [|f0 rest IH]; intros w Hcs Hpw H f Hf.
  { by apply elem_of_nil in Hf. }
  rewrite restore_outputs_cons in H.
  apply bind_Ok in H as ([] & w1 & Hround & Hrest).
  rewrite fmap_cons in Hpw. destruct Hpw as [Hhead Hpw].
  assert (Hcached : ∀ g x, g ∈ f0 :: rest →
            files w1 !! (join (outputsPath cr) g ++ x)
            = files w !! (join (outputsPath cr) g ++ x)).
  { intros g x Hg.
    eapply untouched_run; [|exact Hround].
    apply untouched_restore_output.
    apply apart_below, apart_sym, Hcs; [done|left]. }
  assert (Htail : ∀ k, (∀ g, g ∈ rest → apart (join root g) k) →
            files w' !! k = files w1 !! k).
  { intros k Hk. eapply untouched_run; [|exact Hrest].
    by apply untouched_restore_outputs. }
  assert (Hf0 : ∀ g x, g ∈ rest → apart (join root g) (join root f0 ++ x)).
  { intros g x Hg. apply apart_below, apart_sym.
    eapply (proj1 (Forall_forall _ _) Hhead).
    by apply list_elem_of_fmap_2. }
  apply elem_of_cons in Hf as [->|Hf].
  - split.
    + intros Hsome rel. rewrite Htail by (intros g Hg; by apply Hf0).
      eapply restore_output_copies; [|done|done].
      apply Hcs; left.
    + intros Hnone rel. rewrite Htail by (intros g Hg; by apply Hf0).
      rewrite restore_output_absent in Hround by done.
      by injection Hround as <-.
  - assert (Hc0 : files w1 !! join (outputsPath cr) f
                  = files w !! join (outputsPath cr) f).
    { rewrite <- (app_nil_r (join (outputsPath cr) f)).
      apply Hcached. by right. }
    assert (Hs0 : ∀ rel, files w1 !! (join root f ++ rel)
                         = files w !! (join root f ++ rel)).
    { intros rel. eapply untouched_run; [|exact Hround].
      apply untouched_restore_output. apply apart_below.
      eapply (proj1 (Forall_forall _ _) Hhead).
      by apply list_elem_of_fmap_2. }
    destruct (IH w1) with (f := f) as [IH1 IH2]; try done.
    { intros g1 g2 H1 H2. apply Hcs; by right. }
    split.
    + intros Hsome rel. rewrite IH1 by (unfold exists_; by rewrite Hc0).
      apply Hcached. by right.
    + intros Hnone rel. rewrite IH2 by (unfold exists_; by rewrite Hc0).
      apply Hs0.
Qed.

(** X15.  [copyFilesFromCache] puts the cached copy of every declared output
    in the workspace.  Let the workspace paths of the declared outputs lie
    apart from each other, from the cached copies and from
    [latestOutputsHashes/], and the cached copies apart from
    [latestOutputsHashes/].  When [copyFilesFromCache] returns, the cached
    copies are as they were; for a declared output with a cached copy, the
    workspace holds at and below the output's path exactly what the cache
    holds at and below the cached copy (what was there before is gone);
    and a declared output without a cached copy is left in the workspace
    as it was.  A cached copy counts as the existence check of the code
    finds it: a file does not when the output is written with a separator
    at its end. *)
Theorem copyFilesFromCache_restores (h : string) cr outputs w w' :
  let records := latestOutputsHashesDir cachePath in
  let cached f := join (outputsPath cr) f in
  let src f := join root f in
  (∀ f g, f ∈ outputs → g ∈ outputs → apart (cached f) (src g)) →
  (∀ f, f ∈ outputs → apart records (src f) ∧ apart records (cached f)) →
  pairwise_apart (src <$> outputs) →
  copyFilesFromCache root cachePath h cr outputs w = (Ok tt, w') →
  ∀ f, f ∈ outputs →
    (∀ rel, files w' !! (cached f ++ rel) = files w !! (cached f ++ rel)) ∧
    (exists_ (files w) (cached f) (ends_sep f) = true →
     ∀ rel, files w' !! (src f ++ rel) = files w !! (cached f ++ rel)) ∧
    (exists_ (files w) (cached f) (ends_sep f) = false →
     ∀ rel, files w' !! (src f ++ rel) = files w !! (src f ++ rel)).
Proof.
  cbv beta zeta. intros Hcs Hrec Hpw H f Hf.
  unfold copyFilesFromCache in H.
  apply bind_Ok in H as ([] & wa & Ha & H).
  apply bind_Ok in H as ([] & wb & Hb & Hc).
  assert (HA : ∀ g x, g ∈ outputs →
            files wa !! (join (outputsPath cr) g ++ x) = files w !! (join (outputsPath cr) g ++ x) ∧
            files wa !! (join root g ++ x) = files w !! (join root g ++ x)).
  { intros g x Hg. destruct (Hrec g Hg) as [[H1 H1'] [H2 H2']].
    split; (eapply untouched_run; [|exact Ha]);
      apply untouched_removeRecordedOutputsHashes;
      by apply prefix_of_app_apart. }
  assert (HC : ∀ g x, g ∈ outputs →
            files w' !! (join (outputsPath cr) g ++ x) = files wb !! (join (outputsPath cr) g ++ x) ∧
            files w' !! (join root g ++ x) = files wb !! (join root g ++ x)).
  { intros g x Hg. destruct (Hrec g Hg) as [H1 H2].
    split; (eapply untouched_run; [|exact Hc]);
      apply untouched_recordOutputsHash; by apply apart_below. }
  assert (HB : ∀ x, files wb !! (join (outputsPath cr) f ++ x) = files wa !! (join (outputsPath cr) f ++ x)).
  { intros x. eapply untouched_run; [|exact Hb].
    apply untouched_restore_outputs.
    intros g Hg. apply apart_below, apart_sym. by apply Hcs. }
  assert (HA0 : files wa !! join (outputsPath cr) f = files w !! join (outputsPath cr) f).
  { rewrite <- (app_nil_r (join (outputsPath cr) f)). by apply HA. }
  destruct (restore_outputs_spec cr outputs wa wb Hcs Hpw Hb f Hf)
    as [HB1 HB2].
  split; [|split].
  - intros rel. rewrite (proj1 (HC f rel Hf)), HB. by apply HA.
  - intros Hsome rel. rewrite (proj2 (HC f rel Hf)).
    rewrite HB1 by (unfold exists_; by rewrite HA0). by apply HA.
  - intros Hnone rel. rewrite (proj2 (HC f rel Hf)).
    rewrite HB2 by (unfold exists_; by rewrite HA0). by apply HA.
Qed.
End Restore.

Section Children.
Implicit Types (fs : gmap path node) (p q : path).

Lemma NoDup_omap_strong {A B} (f : A → option B) (l : list A) :
  (∀ x y z, x ∈ l → y ∈ l → f x = Some z → f y = Some z → x = y) →
  NoDup l → NoDup (omap f l).
Proof.
  intros Hinj Hnd. induction Hnd as [|x l Hx Hnd IH]; simpl.
  - constructor.
  - assert (IH' : NoDup (omap f l)).
    { apply IH. intros a b z Ha Hb. apply Hinj; by right. }
    destruct (f x) as [z|] eqn:E; [|done].
    constructor; [|done].
    intros (y & Hy & Hfy)%list_elem_of_omap.
    assert (x = y) as -> by (apply (Hinj x y z); [left|by right|done..]).
    done.
Qed.

Lemma child_name p (k : path) (name : string) :
  match strip p k with
  | Some [x] => Some x
  | _ => None
  end = Some name ↔ k = p ++ [name].
Proof.
  split.
  - destruct (strip p k) as [[|x [|y r]]|] eqn:E; try done.
    intros [= ->]. by apply strip_Some.
  - intros ->. by rewrite strip_app.
Qed.

Lemma elem_of_children fs p (name : string) :
  name ∈ children fs p ↔ is_Some (fs !! (p ++ [name])).
Proof.
  unfold children. rewrite list_elem_of_omap. split.
  - intros ([k n] & Hin & Hk). apply elem_of_map_to_list in Hin.
    simpl in Hk. apply child_name in Hk as ->. by exists n.
  - intros [n Hn]. exists (p ++ [name], n). split.
    + by apply elem_of_map_to_list.
    + simpl. by apply child_name.
Qed.

Lemma NoDup_children fs p : NoDup (children fs p).
Proof.
  apply NoDup_omap_strong; [|apply NoDup_map_to_list].
  intros [k1 n1] [k2 n2] z H1 H2 E1 E2. simpl in *.
  apply child_name in E1 as ->. apply child_name in E2 as ->.
  apply elem_of_map_to_list in H1, H2. congruence.
Qed.

Lemma children_length fs p q :
  (∀ name, is_Some (fs !! (p ++ [name])) ↔ is_Some (fs !! (q ++ [name]))) →
  length (children fs p) = length (children fs q).
Proof.
  intros H. apply Permutation_length, NoDup_Permutation;
    [apply NoDup_children..|].
  intros name. by rewrite !elem_of_children.
Qed.
End Children.

Section RestoreThenCheck.
Context {R : Type}.
Variables root cachePath : path.
Implicit Types (w : world R) (fs : gmap path node) (k : path)
  (cr : CachedResult).

Lemma prefix_of_snoc (p q : path) (x : string) :
  p `prefix_of` q ++ [x] → p `prefix_of` q ∨ p = q ++ [x].
Proof.
  intros [r Hr]. destruct r as [|y r _] using rev_ind.
  - right. by rewrite app_nil_r in Hr.
  - left. rewrite (assoc_L (++)) in Hr.
    apply app_inj_tail in Hr as [-> _]. by exists r.
Qed.

Lemma restore_output_keeps cr f w w' k n :
  restore_output root cr f w = (Ok tt, w') →
  ¬ join root f `prefix_of` k →
  files w !! k = Some n → files w' !! k = Some n.
Proof.
  intros H Hk Hn. unfold restore_output in H.
  unfold existsAsync, lstatAsync_isFile, removeAsync, ensureDirAsync,
    copyAsync in H.
  apply bind_Ok in H as (present & w1 & Hex & H).
  apply query_Ok in Hex as [_ ->].
  destruct present; [|by apply ret_Ok in H as [_ ->]].
  apply bind_Ok in H as (isFile & w2 & Hst & H).
  apply query_Ok in Hst as [_ ->].
  apply bind_Ok in H as ([] & w3 & Hrm & H).
  apply update_Ok in Hrm as (fs1 & ->%remove_Ok & ->).
  apply bind_Ok in H as ([] & w4 & Hen & H).
  apply update_Ok in Hen as (fs2 & Hen & ->).
  apply update_Ok in H as (fs3 & Hcp & ->). simpl in *.
  apply copy_lookup in Hcp as (fs2' & Hen' & Hlk).
  rewrite Hlk. apply strip_None in Hk. rewrite Hk.
  eapply ensureDir_keeps; [exact Hen'|].
  eapply ensureDir_keeps; [exact Hen|].
  rewrite lookup_prune, decide_False; [done|]. by apply strip_None.
Qed.

Lemma restore_outputs_keeps cr outputs w w' k n :
  restore_outputs root cr outputs w = (Ok tt, w') →
  (∀ g, g ∈ outputs → ¬ join root g `prefix_of` k) →
  files w !! k = Some n → files w' !! k = Some n.
Proof.
  revert w. induction outputs as [|f rest IH]; intros w H Hk Hn.
  - by apply ret_Ok in H as [_ ->].
  - rewrite restore_outputs_cons in H.
    apply bind_Ok in H as ([] & w1 & Hround & Hrest).
    eapply IH; [exact Hrest| |].
    + intros g Hg. apply Hk. by right.
    + eapply restore_output_keeps; [exact Hround| |done]. apply Hk. left.
Qed.

Lemma existsb_agree {A} (f g : A → bool) (l : list A) :
  (∀ a, a ∈ l → f a = g a) → existsb f l = existsb g l.
Proof.
  induction l as [|a l IH]; intros H; simpl; [done|].
  rewrite (H a) by left. f_equal. apply IH. intros b Hb. apply H. by right.
Qed.

Lemma isAnyOutputMissing_settled cr outputs w :
  (∀ o, o ∈ outputs →
        copy_missing root (outputsPath cr) (files w) o = false) →
  (isAnyOutputMissing root cr outputs w).1 =
  if existsb (unlistable root (outputsPath cr) (files w)) outputs
  then Err ENOTDIR else Ok false.
Proof.
  revert w. induction outputs as [|o rest IH]; intros w H; simpl; [done|].
  rewrite bind_run.
  destruct (output_missing_run root cr o w) as (w1 & [Hf Hr] & ->).
  destruct (unlistable _ _ _ o); [done|].
  rewrite (H o) by left. simpl. rewrite IH, Hf; [done|].
  intros o' Ho'. rewrite Hf. apply H. by right.
Qed.

(** X16.  After [copyFilesFromCache] the outputs need no copy.  Let the
    workspace paths of the declared outputs lie apart from each other, from
    the cached copies and from [latestOutputsHashes/], and the cached
    copies apart from [latestOutputsHashes/], with [latestOutputsHashes/]
    in place and no directory squatting on a record's name.  In the state
    a successful [copyFilesFromCache] leaves, [shouldCopyOutputsFromCache]
    for the same task, cached result and outputs answers false when no
    declared output is found in the cache as a regular file; when one is,
    the call throws ENOTDIR (the copy in the cache and the restored copy in
    the workspace are both files, and the code lists them as
    directories). *)
Theorem restored_outputs_need_no_copy
    (twcr : TaskWithCachedResult) outputs w w' :
  let records := latestOutputsHashesDir cachePath in
  let name := getFileNameWithLatestRecordedHashForOutput cachePath in
  let cached f := join (outputsPath (cachedResult twcr)) f in
  let src f := join root f in
  (∀ f g, f ∈ outputs → g ∈ outputs → apart (cached f) (src g)) →
  (∀ f, f ∈ outputs → apart records (src f) ∧ apart records (cached f)) →
  pairwise_apart (src <$> outputs) →
  directory_at (files w) records →
  (∀ o, o ∈ outputs → files w !! name o ≠ Some Dir) →
  copyFilesFromCache root cachePath (hash (task twcr)) (cachedResult twcr)
    outputs w = (Ok tt, w') →
  (shouldCopyOutputsFromCache root cachePath twcr outputs w').1 =
  if existsb (found_file (files w) (outputsPath (cachedResult twcr)))
       outputs
  then Err ENOTDIR else Ok false.
Proof.
  cbv beta zeta. intros Hcs Hrec Hpw Hdir Hnd H.
  set (cr := cachedResult twcr) in *. set (h := hash (task twcr)) in *.
  unfold copyFilesFromCache in H.
  apply bind_Ok in H as ([] & wa & Ha & H).
  apply bind_Ok in H as ([] & wb & Hb & Hc).
  (* the records, step by step *)
  assert (Hwa : ∀ k, files wa !! k =
            if decide (k ∈ getFileNameWithLatestRecordedHashForOutput
                             cachePath <$> outputs)
            then unless_file (files w !! k) else files w !! k).
  { intros k. rewrite removeRecordedOutputsHashes_run in Ha.
    injection Ha as <-. simpl.
    by rewrite foldl_fmap_paths, unlinked_all_lookup. }
  assert (Hdirb : directory_at (files wb) (latestOutputsHashesDir cachePath)).
  { intros q Hq. eapply restore_outputs_keeps; [exact Hb| |].
    - intros g Hg Hp. destruct (Hrec g Hg) as [[_ Hn] _]. apply Hn.
      by etrans.
    - rewrite Hwa, (Hdir q Hq). by case_decide. }
  assert (Hndb : ∀ o, o ∈ outputs →
            files wb !! getFileNameWithLatestRecordedHashForOutput
                           cachePath o ≠ Some Dir).
  { intros o Ho.
    assert (Hub : files wb !! getFileNameWithLatestRecordedHashForOutput
                                cachePath o
                  = files wa !! getFileNameWithLatestRecordedHashForOutput
                                  cachePath o).
    { eapply untouched_run; [|exact Hb]. apply untouched_restore_outputs.
      intros g Hg. destruct (Hrec g Hg) as [[Hn1 Hn2] _].
      rewrite hashFile_name. split.
      - intros Hp. apply prefix_of_snoc in Hp as [Hp|Hp]; [done|].
        apply Hn1. rewrite Hp. by apply prefix_app_r.
      - intros Hp. apply Hn1. etrans; [|exact Hp]. by apply prefix_app_r. }
    rewrite Hub, Hwa. pose proof (Hnd o Ho) as Hno.
    case_decide; [|done].
    by destruct (files w !! _) as [[]|]. }
  assert (Hw' : ∀ k, files w' !! k =
            if decide (k ∈ getFileNameWithLatestRecordedHashForOutput
                             cachePath <$> outputs)
            then Some (File h) else files wb !! k).
  { intros k. destruct (recordOutputsHash_run cachePath outputs h wb)
      as (evs & Hrun). rewrite Hrun in Hc. injection Hc as <-. simpl.
    by apply record_all_good. }
  (* the comparison of the hashes *)
  unfold shouldCopyOutputsFromCache, orM, bind. fold cr h.
  destruct (areLatestOutputsHashesDifferent_run cachePath outputs h w')
    as (w1 & -> & Hf1 & _).
  assert (Hsame : existsb (hash_differs cachePath (files w') h) outputs
                  = false).
  { apply not_true_is_false. intros (o & Ho & Hd)%existsb_exists.
    apply list_elem_of_In in Ho. unfold hash_differs, recorded_hash in Hd.
    unfold readFile in Hd. rewrite Hw', decide_True in Hd
      by (by apply list_elem_of_fmap_2).
    by apply bool_decide_eq_true in Hd. }
  rewrite Hsame.
  (* the copies *)
  assert (HA : ∀ g x, g ∈ outputs →
            files wa !! (join (outputsPath cr) g ++ x)
              = files w !! (join (outputsPath cr) g ++ x)).
  { intros g x Hg. destruct (Hrec g Hg) as [_ [H2 H2']].
    eapply untouched_run; [|exact Ha].
    apply untouched_removeRecordedOutputsHashes.
    by apply prefix_of_app_apart. }
  assert (HC : ∀ g x, g ∈ outputs →
            files w' !! (join (outputsPath cr) g ++ x)
              = files wb !! (join (outputsPath cr) g ++ x) ∧
            files w' !! (join root g ++ x) = files wb !! (join root g ++ x)).
  { intros g x Hg. destruct (Hrec g Hg) as [H1 H2].
    split; (eapply untouched_run; [|exact Hc]);
      apply untouched_recordOutputsHash; by apply apart_below. }
  assert (HB : ∀ g x, g ∈ outputs →
            files wb !! (join (outputsPath cr) g ++ x)
              = files wa !! (join (outputsPath cr) g ++ x)).
  { intros g x Hg. eapply untouched_run; [|exact Hb].
    apply untouched_restore_outputs.
    intros g' Hg'. apply apart_below, apart_sym. by apply Hcs. }
  assert (Hcached : ∀ g x, g ∈ outputs →
            files w' !! (join (outputsPath cr) g ++ x)
              = files w !! (join (outputsPath cr) g ++ x)).
  { intros g x Hg. rewrite (proj1 (HC g x Hg)), HB by done. by apply HA. }
  assert (Hcopy : ∀ g x, g ∈ outputs →
            exists_ (files w) (join (outputsPath cr) g) (ends_sep g)
              = true →
            files w' !! (join root g ++ x)
              = files w' !! (join (outputsPath cr) g ++ x)).
  { intros g x Hg Hsome.
    destruct (restore_outputs_spec root cr outputs wa wb Hcs Hpw Hb g Hg)
      as [HB1 _].
    rewrite (proj2 (HC g x Hg)), Hcached by done.
    rewrite HB1; [by apply HA|]. unfold exists_.
    rewrite <- (app_nil_r (join (outputsPath cr) g)), HA by done.
    by rewrite app_nil_r. }
  assert (Hfiles1 : files w1 = files w') by done.
  assert (Hone : ∀ g, g ∈ outputs →
            copy_missing root (outputsPath cr) (files w') g = false ∧
            unlistable root (outputsPath cr) (files w') g
              = found_file (files w) (outputsPath cr) g).
  { intros g Hg.
    unfold copy_missing, unlistable, found_file, found, entries_differ.
    pose proof (Hcached g [] Hg) as Hc0. rewrite app_nil_r in Hc0.
    rewrite Hc0.
    pose proof (Hcopy g [] Hg) as Hs0. unfold exists_ in Hs0.
    rewrite !app_nil_r, Hc0 in Hs0.
    destruct (files w !! join (outputsPath cr) g) as [[c|]|] eqn:E;
      [destruct (ends_sep g) eqn:Es| |]; try done.
    - by rewrite Hs0.
    - rewrite Hs0 by done. split; [|done].
      apply negb_false_iff, Nat.eqb_eq, children_length.
      intros nm. rewrite (Hcopy g [nm] Hg); [done|].
      unfold exists_. by rewrite E. }
  rewrite isAnyOutputMissing_settled.
  - rewrite Hfiles1.
    rewrite (existsb_agree _ (found_file (files w) (outputsPath cr)));
      [done|].
    intros o Ho. by apply Hone.
  - intros o Ho. rewrite Hfiles1. by apply Hone.
Qed.
End RestoreThenCheck.

Section RestoreFails.
Context {R : Type}.
Variables root cachePath : path.
Implicit Types (w : world R) (fs : gmap path node) (k : path)
  (cr : CachedResult).

Lemma record_apart (g : string) (o : string) :
  apart (latestOutputsHashesDir cachePath) (join root g) →
  apart (join root g)
    (getFileNameWithLatestRecordedHashForOutput cachePath o).
Proof.
  intros [Hn1 Hn2]. rewrite hashFile_name. split.
  - intros Hp. apply prefix_of_snoc in Hp as [Hp|Hp]; [done|].
    apply Hn1. rewrite Hp. by apply prefix_app_r.
  - intros Hp. apply Hn1. etrans; [|exact Hp]. by apply prefix_app_r.
Qed.

(** X17.  A [copyFilesFromCache] that throws leaves the outputs marked as
    stale.  The records of the declared outputs are removed before
    anything is copied and written only after everything is copied; so
    when the call throws (the workspace paths of the outputs being apart
    from [latestOutputsHashes/]), no declared output has a hash on record
    in the state it leaves, and [shouldCopyOutputsFromCache] for these
    outputs then answers true, for any task. *)
Theorem copyFilesFromCache_thrown_forces_copy
    (h : string) cr outputs w e w' (twcr : TaskWithCachedResult) :
  (∀ g, g ∈ outputs →
        apart (latestOutputsHashesDir cachePath) (join root g)) →
  copyFilesFromCache root cachePath h cr outputs w = (Err e, w') →
  (∀ o, o ∈ outputs → recorded_hash cachePath (files w') o = None) ∧
  ∃ w2, shouldCopyOutputsFromCache root cachePath twcr outputs w'
          = (Ok true, w2) ∧
        files w2 = files w'.
Proof.
  intros Hrec H. unfold copyFilesFromCache in H.
  rewrite bind_run, removeRecordedOutputsHashes_run in H.
  set (wa := World _ _ _) in H.
  rewrite bind_run in H.
  destruct (restore_outputs root cr outputs wa) as [[[]|e1] wb] eqn:Hb.
  { destruct (recordOutputsHash_run cachePath outputs h wb) as (evs & Hc).
    by rewrite Hc in H. }
  injection H as -> ->.
  assert (Hne : outputs ≠ []).
  { intros ->. by simpl in Hb. }
  assert (Hclear : ∀ o, o ∈ outputs →
            recorded_hash cachePath (files w') o = None).
  { intros o Ho. unfold recorded_hash, readFile.
    rewrite (untouched_run _ _ _ _ _
               (untouched_restore_outputs root cr outputs _
                  (λ g Hg, record_apart g o (Hrec g Hg))) Hb).
    subst wa. simpl. rewrite foldl_fmap_paths, unlinked_all_lookup.
    rewrite decide_True
      by (by apply (list_elem_of_fmap_2
                      (getFileNameWithLatestRecordedHashForOutput cachePath))).
    by destruct (files w !! _) as [[c|]|]. }
  split; [done|].
  unfold shouldCopyOutputsFromCache, orM, bind.
  destruct (areLatestOutputsHashesDifferent_run cachePath outputs
              (hash (task twcr)) w') as (w2 & -> & Hf & _).
  destruct outputs as [|o rest]; [done|]. simpl.
  unfold hash_differs at 1. rewrite (Hclear o) by left.
  simpl. by exists w2.
Qed.
End RestoreFails.

Section FullCycle.
Context {R : Type}.
Variables root cachePath : path.
Variable remoteCache : option (RemoteCache R).
Implicit Types (w : world R) (fs : gmap path node) (k : path).

Lemma apart_above (p q x : path) : apart p q → apart (p ++ x) q.
Proof. intros H. by apply apart_sym, apart_below, apart_sym. Qed.

(** X18.  From the workspace to the cache and back.  Take a path-safe hash
    other than [latestOutputsHashes], a file system in which every entry
    lies in directories, declared outputs that stay inside the workspace,
    with workspace paths apart from each other and from the cache
    directory, and a remote cache (if any) whose [store] leaves the local
    files alone.  After a successful [put], let the workspace change in any
    way while the entry stays as [put] left it.  Then a successful
    [copyFilesFromCache] with the [outputsPath] of the entry brings every
    declared output that [put] found in the workspace back to what it was
    when [put] was called: the same files with the same contents and the
    same directories at and below its path, and nothing else. *)
Theorem put_then_copyFilesFromCache_round_trip
    task text outputs c (r : CachedResult) w0 w1 w2 w3 :
  plain_name (hash task) →
  hash task ≠ "latestOutputsHashes" →
  well_formed (files w0) →
  Forall confined outputs →
  (∀ rc, remoteCache = Some rc → store_keeps_files rc) →
  (∀ f, f ∈ outputs → apart cachePath (join root f)) →
  pairwise_apart (join root <$> outputs) →
  put root cachePath remoteCache task text outputs c w0 = (Ok tt, w1) →
  (∀ k, entryDir cachePath (hash task) `prefix_of` k →
        files w2 !! k = files w1 !! k) →
  outputsPath r = join (entryDir cachePath (hash task)) "outputs" →
  copyFilesFromCache root cachePath (hash task) r outputs w2 = (Ok tt, w3) →
  ∀ f, f ∈ outputs →
    exists_ (files w0) (join root f) (ends_sep f) = true →
    ∀ rel, files w3 !! (join root f ++ rel) = files w0 !! (join root f ++ rel).
Proof.
  intros Hplain Hne Hwf Hconf Hkeep Hws Hpw Hput Hentry Hr Hcopy.
  (* what put left in the entry *)
  assert (Hlocal : ∃ w1', put root cachePath None task text outputs c w0
                            = (Ok tt, w1') ∧ files w1 = files w1').
  { rewrite put_remote_split in Hput.
    destruct (put root cachePath None task text outputs c w0)
      as [[[]|e] w1'] eqn:E; [|done].
    exists w1'. split; [done|].
    destruct remoteCache as [rc|]; [|by injection Hput as <-].
    unfold remote_call in Hput.
    pose proof (Hkeep rc eq_refl (hash task) cachePath (files w1')
                  (remote_state w1')) as Hrc.
    destruct (store rc _ _ _ _) as [[res fs'] st']. simpl in Hrc.
    by injection Hput as _ <-. }
  destruct Hlocal as (w1' & Hlocal & Hsame).
  assert (Hall : Forall (λ f, confined f ∧
                    apart (entryDir cachePath (hash task)) (join root f) ∧
                    ¬ commitMarker cachePath (hash task)
                        `prefix_of` join root f) outputs).
  { apply Forall_forall. intros f Hf.
    split; [by apply (proj1 (Forall_forall _ _) Hconf)|].
    unfold entryDir, commitMarker.
    rewrite (join_plain _ _ Hplain), (join_plain_suffix _ _ Hplain).
    split; [by apply apart_above, Hws|].
    intros Hp. destruct (Hws f Hf) as [Hw1 _]. apply Hw1.
    etrans; [|exact Hp]. by apply prefix_app_r. }
  destruct (put_local_content root cachePath _ _ _ _ _ _
              Hplain Hwf Hall Hlocal) as (_ & _ & _ & _ & Hstored).
  rewrite <- Hr in Hstored.
  unfold entryDir in *. rewrite (join_plain _ _ Hplain) in *.
  rewrite join_name in Hr.
  set (td := cachePath ++ [hash task]) in *.
  (* the layout of the cached copies *)
  assert (Hcached : ∀ f, f ∈ outputs → ∃ rf,
            relpath f = Some rf ∧ join root f = root ++ rf ∧
            join (outputsPath r) f = cachePath ++ [hash task; "outputs"] ++ rf).
  { intros f Hf.
    destruct (proj1 (Forall_forall _ _) Hconf f Hf) as [rf Hrf].
    exists rf. split; [done|]. split; [by apply join_confined|].
    rewrite Hr, (join_confined _ _ _ Hrf). unfold td.
    by rewrite <- !(assoc_L (++)). }
  assert (Hcs : ∀ f g, f ∈ outputs → g ∈ outputs →
            apart (join (outputsPath r) f) (join root g)).
  { intros f g Hf Hg. destruct (Hcached f Hf) as (rf & _ & _ & ->).
    by apply apart_above, Hws. }
  assert (Hrec : ∀ f, f ∈ outputs →
            apart (latestOutputsHashesDir cachePath) (join root f) ∧
            apart (latestOutputsHashesDir cachePath)
              (join (outputsPath r) f)).
  { intros f Hf. rewrite latestOutputsHashesDir_name. split.
    - by apply apart_above, Hws.
    - destruct (Hcached f Hf) as (rf & _ & _ & ->).
      by apply entry_apart. }
  intros f Hf Hsrc rel.
  destruct (Hcached f Hf) as (rf & Hrf & Hsf & Hcf).
  assert (Hin : ∀ x, files w2 !! (join (outputsPath r) f ++ x)
                     = files w0 !! (join root f ++ x)).
  { intros x. rewrite Hentry, Hsame; [by apply Hstored|].
    rewrite Hcf. exists ("outputs" :: rf ++ x). unfold td.
    by rewrite <- !(assoc_L (++)). }
  (* the three steps of copyFilesFromCache *)
  unfold copyFilesFromCache in Hcopy.
  apply bind_Ok in Hcopy as ([] & wa & Ha & Hcopy).
  apply bind_Ok in Hcopy as ([] & wb & Hb & Hc).
  assert (HA : ∀ x, files wa !! (join (outputsPath r) f ++ x)
                    = files w2 !! (join (outputsPath r) f ++ x)).
  { intros x. destruct (Hrec f Hf) as [_ [H2 H2']].
    eapply untouched_run; [|exact Ha].
    apply untouched_removeRecordedOutputsHashes.
    by apply prefix_of_app_apart. }
  assert (HC : files w3 !! (join root f ++ rel)
               = files wb !! (join root f ++ rel)).
  { destruct (Hrec f Hf) as [H1 _].
    eapply untouched_run; [|exact Hc].
    apply untouched_recordOutputsHash. by apply apart_below. }
  destruct (restore_outputs_spec root r outputs wa wb Hcs Hpw Hb f Hf)
    as [HB _].
  rewrite HC, HB, HA; [by apply Hin|].
  unfold exists_ in *.
  rewrite <- (app_nil_r (join (outputsPath r) f)), HA, Hin.
  by rewrite app_nil_r.
Qed.
End FullCycle.

Section NoLeftovers.
Context {R : Type}.
Variables root cachePath : path.
Variable remoteCache : option (RemoteCache R).
Implicit Types (w : world R) (fs : gmap path node) (k td : path).

Lemma put_output_origin td g rg w w' :
  relpath g = Some rg →
  apart td (root ++ rg) →
  put_output root td g w = (Ok tt, w') →
  ∀ k n, files w' !! k = Some n →
    files w !! k = Some n ∨
    (n = Dir ∧ k `prefix_of` (td ++ ["outputs"]) ++ rg ∧
     is_Some (files w !! (root ++ rg))) ∨
    (∃ rel, k = ((td ++ ["outputs"]) ++ rg) ++ rel ∧
            files w !! ((root ++ rg) ++ rel) = Some n).
Proof.
  intros Hr Hap H k n Hk. apply put_output_Ok in H as [_ H].
  rewrite (join_confined root g rg Hr), join_name in H.
  rewrite (join_confined _ g rg Hr) in H.
  destruct H as [[_ Hsame]|(Hex & isFile & fsa & _ & Hen & Hcp)].
  { left. by rewrite <- Hsame. }
  destruct (exists_lookup _ _ _ Hex) as [sn Esrc].
  apply copy_lookup in Hcp as (fs1 & Hen1 & Hlk).
  set (cached := (td ++ ["outputs"]) ++ rg) in *.
  assert (Hadds : ∀ k' n', fs1 !! k' = Some n' →
            files w !! k' = Some n' ∨ (n' = Dir ∧ k' `prefix_of` cached)).
  { intros k' n' Hk'.
    destruct (ensureDir_adds _ _ _ Hen1 k' n' Hk') as [Hk2|(-> & _ & Hp)].
    - destruct (ensureDir_adds _ _ _ Hen k' n' Hk2) as [?|(-> & _ & Hp)];
        [by left|right]. split; [done|].
      destruct isFile; [by apply prefix_dirname|done].
    - right. split; [done|]. by apply prefix_dirname. }
  assert (Hws : ∀ rel n', fs1 !! ((root ++ rg) ++ rel) = Some n' →
            files w !! ((root ++ rg) ++ rel) = Some n').
  { intros rel n' Hn'. destruct (Hadds _ _ Hn') as [?|[_ Hp]]; [done|].
    destruct (apart_below _ _ rel Hap) as [_ Hno]. destruct Hno.
    unfold cached in Hp. rewrite <- (assoc_L (++) td) in Hp.
    destruct (prefix_of_branch _ _ _ Hp) as [Hp'|Hp']; [|done].
    by destruct (apart_below _ _ rel Hap). }
  rewrite Hlk in Hk.
  destruct (strip cached k) as [rel|] eqn:E.
  - apply strip_Some in E as ->.
    destruct (fs1 !! ((root ++ rg) ++ rel)) as [m|] eqn:Em.
    + injection Hk as ->. right; right. exists rel. split; [done|].
      by apply Hws.
    + destruct (Hadds _ _ Hk) as [?|[-> Hp]]; [by left|].
      right; left. split; [done|]. split; [done|]. by eexists.
  - destruct (Hadds _ _ Hk) as [?|[-> Hp]]; [by left|].
    right; left. split; [done|]. split; [done|]. by eexists.
Qed.

Lemma put_outputs_origin td outputs rest (text : option string)
    (c : number) fs0 w w' :
  Forall confined rest →
  (∀ f, f ∈ rest → f ∈ outputs) →
  (∀ f rf, f ∈ outputs → relpath f = Some rf → apart td (root ++ rf)) →
  put_outputs root td rest w = (Ok tt, w') →
  (∀ f rf rel, f ∈ outputs → relpath f = Some rf →
     files w !! (root ++ rf ++ rel) = fs0 !! (root ++ rf ++ rel)) →
  (∀ q n, files w !! (td ++ q) = Some n →
          put_origin root fs0 outputs text c q n) →
  ∀ q n, files w' !! (td ++ q) = Some n →
         put_origin root fs0 outputs text c q n.
Proof.
  intros Hconf. revert w.
  induction Hconf as [|g rest [rg Hrg] _ IH];
    intros w Hsub Hap H Hws Hinv; simpl in H.
  - by apply ret_Ok in H as [_ ->].
  - apply bind_Ok in H as ([] & w1 & Hstep & H).
    assert (Hg : g ∈ outputs) by (apply Hsub; left).
    apply (IH w1); try done.
    + intros f Hf. apply Hsub. by right.
    + intros f rf rel Hf Hrf. rewrite <- (Hws f rf rel Hf Hrf).
      eapply untouched_run; [|exact Hstep].
      apply untouched_put_output; [by eexists|].
      rewrite (assoc_L (++)). by apply apart_below, (Hap f rf).
    + intros q n Hq.
      destruct (put_output_origin td g rg w w1 Hrg (Hap g rg Hg Hrg) Hstep
                  _ _ Hq) as [Hold|[(-> & Hp & Hsrc)|(rel & Hk & Hn)]].
      * by apply Hinv.
      * rewrite <- (assoc_L (++) td) in Hp. apply prefix_app_inv in Hp.
        destruct q as [|x p]; [by left|].
        simpl in Hp. pose proof (prefix_cons_inv_1 _ _ _ _ Hp) as ->.
        apply prefix_cons_inv_2 in Hp.
        destruct p as [|y p]; [by right; right; right; left|].
        do 5 right. exists g, rg, (y :: p).
        split; [done|]. split; [done|]. split; [|done].
        pose proof (Hws g rg [] Hg Hrg) as Hw0.
        rewrite app_nil_r in Hw0. by rewrite <- Hw0.
      * rewrite <- !(assoc_L (++) td) in Hk. apply app_inv_head in Hk.
        simpl in Hk. subst q. do 4 right. left. exists g, rg, rel.
        split; [done|]. split; [done|]. split; [done|].
        by rewrite <- (Hws g rg rel Hg Hrg), (assoc_L (++) root).
Qed.

(** X19.  A finished [put] leaves nothing in the entry but what it wrote.
    For a path-safe hash, declared outputs that stay inside the workspace
    and whose workspace paths are apart from the cache directory, and a
    remote cache (if any) whose [store] leaves the local files alone:
    whatever is found at or below the entry directory after a successful
    [put] is the entry directory, [terminalOutput], [code], [outputs/], a
    copy of what the workspace held at or below a declared output, or a
    directory leading to such a copy.  What an earlier [put] or an
    interrupted one had left there is gone. *)
Theorem put_leaves_no_leftovers task text outputs c w w' :
  plain_name (hash task) →
  Forall confined outputs →
  (∀ rc, remoteCache = Some rc → store_keeps_files rc) →
  (∀ f, f ∈ outputs → apart cachePath (join root f)) →
  put root cachePath remoteCache task text outputs c w = (Ok tt, w') →
  ∀ q n, files w' !! (entryDir cachePath (hash task) ++ q) = Some n →
         put_origin root (files w) outputs text c q n.
Proof.
  intros Hplain Hconf Hkeep Hws Hput q n Hq.
  assert (Hfiles : files w' =
            files (put root cachePath None task text outputs c w).2).
  { pose proof (put_remote_files root cachePath remoteCache task text
                  outputs c w Hkeep) as Hf. by rewrite Hput in Hf. }
  rewrite put_remote_split in Hput.
  destruct (put root cachePath None task text outputs c w)
    as [[[]|e] w1] eqn:H; [|done].
  simpl in Hfiles. rewrite Hfiles in Hq. clear Hput Hfiles w'.
  unfold put, entryDir, commitMarker in *.
  rewrite (join_plain _ _ Hplain) in *.
  rewrite (join_plain_suffix _ _ Hplain) in H.
  rewrite join_terminalOutput, join_code, join_name in H.
  set (td := cachePath ++ [hash task]) in *.
  set (marker := cachePath ++ [hash task +:+ ".commit"]) in *.
  unfold removeAsync, mkdirAsync, writeFileAsync in H.
  apply bind_Ok in H as ([] & wa & Ha & H).
  apply update_Ok in Ha as (fsa & ->%remove_Ok & ->).
  apply bind_Ok in H as ([] & wb & Hb & H).
  apply update_Ok in Hb as (fsb & ->%remove_Ok & ->).
  apply bind_Ok in H as ([] & wc & Hc & H).
  apply update_Ok in Hc as (fsc & ->%mkdir_Ok & ->).
  apply bind_Ok in H as ([] & wd & Hd & H).
  apply update_Ok in Hd as (fsd & ->%writeFile_Ok & ->).
  apply bind_Ok in H as ([] & we & He & H).
  apply update_Ok in He as (fse & ->%mkdir_Ok & ->).
  apply bind_Ok in H as ([] & wf & Hloop & H).
  apply bind_Ok in H as ([] & wg & Hg & H).
  apply update_Ok in Hg as (fsg & ->%writeFile_Ok & ->).
  apply bind_Ok in H as ([] & wh & Hh & H).
  apply update_Ok in Hh as (fsh & ->%writeFile_Ok & ->).
  apply ret_Ok in H as [_ ->]. simpl in *.
  assert (Hap : ∀ f rf, f ∈ outputs → relpath f = Some rf →
            apart td (root ++ rf) ∧ apart marker (root ++ rf)).
  { intros f rf Hf Hrf. rewrite <- (join_confined root f rf Hrf).
    split; by apply apart_above, Hws. }
  assert (Hc : hash task +:+ ".commit" ≠ hash task)
    by (by intros ?%append_same).
  rewrite lookup_insert_ne in Hq.
  2:{ unfold marker, td. rewrite <- (assoc_L (++)).
      intros Heq%app_inv_head. by injection Heq. }
  destruct (decide (q = ["code"])) as [->|Hcode].
  { rewrite lookup_insert_eq in Hq. injection Hq as <-.
    right; right; left. done. }
  rewrite lookup_insert_ne in Hq
    by (intros Heq%app_inv_head; congruence).
  eapply (put_outputs_origin td outputs outputs text c (files w) _ wf);
    [exact Hconf|done| |exact Hloop| | |exact Hq].
  - intros f rf Hf Hrf. by destruct (Hap f rf Hf Hrf).
  - intros f rf rel Hf Hrf. simpl.
    destruct (Hap f rf Hf Hrf) as [[Ht1 Ht2] [Hm1 Hm2]].
    rewrite (assoc_L (++) root).
    rewrite !lookup_insert_ne;
      try (intros Heq; apply (prefix_of_app_apart _ _ rel Ht1 Ht2);
           rewrite <- Heq; first [done|by apply prefix_app_r]).
    rewrite !lookup_prune, !decide_False; [done|..];
      by apply prefix_of_app_apart.
  - intros q' n' Hq'. simpl in Hq'.
    destruct (decide (q' = ["outputs"])) as [->|Ho].
    { rewrite lookup_insert_eq in Hq'. injection Hq' as <-.
      right; right; right; left. done. }
    rewrite lookup_insert_ne in Hq'
      by (intros Heq%app_inv_head; congruence).
    destruct (decide (q' = ["terminalOutput"])) as [->|Ht].
    { rewrite lookup_insert_eq in Hq'. injection Hq' as <-.
      right; left. done. }
    rewrite lookup_insert_ne in Hq'
      by (intros Heq%app_inv_head; congruence).
    destruct (decide (q' = [])) as [->|Hnil].
    { rewrite app_nil_r, lookup_insert_eq in Hq'. injection Hq' as <-.
      by left. }
    rewrite lookup_insert_ne in Hq'.
    2:{ intros Heq. apply Hnil.
        rewrite <- (app_nil_r td) in Heq at 1.
        by apply app_inv_head in Heq. }
    rewrite lookup_prune, decide_True in Hq'; [done|].
    by apply prefix_app_r.
Qed.

(** X20.  An output that contains the cache cannot be stored.  When the
    first declared output is a directory of the workspace that lies at or
    above the cache directory (as the workspace root does when the cache
    is kept inside the workspace), [put] throws at the copy of that output,
    which would go into a subdirectory of itself; nothing is committed. *)
Theorem put_rejects_output_containing_cache task text f rf rest c w :
  plain_name (hash task) →
  relpath f = Some rf →
  directory_at (files w) cachePath →
  root ++ rf `prefix_of` cachePath →
  let w' := (put root cachePath remoteCache task text (f :: rest) c w).2 in
  (put root cachePath remoteCache task text (f :: rest) c w).1 = Err ECOPY ∧
  files w' !! commitMarker cachePath (hash task) = None.
Proof.
  intros Hplain Hrf Hdir Hsrc. cbv zeta.
  rewrite put_remote_split.
  assert (Hlocal : ∃ w1, put root cachePath None task text (f :: rest) c w
                         = (Err ECOPY, w1) ∧
                         files w1 !! commitMarker cachePath (hash task)
                         = None).
  { unfold put, entryDir, commitMarker.
    rewrite (join_plain _ _ Hplain), (join_plain_suffix _ _ Hplain).
    rewrite join_terminalOutput, join_code, join_name.
    set (td := cachePath ++ [hash task]).
    set (marker := cachePath ++ [hash task +:+ ".commit"]).
    set (fsb := prune (prune (files w) marker) td).
    assert (Hc : hash task +:+ ".commit" ≠ hash task)
      by (by intros ?%append_same).
    assert (Habove : ∀ q, q `prefix_of` cachePath → fsb !! q = Some Dir).
    { intros q Hq. unfold fsb.
      rewrite !lookup_prune, !decide_False; [by apply Hdir|..];
        (intros Hp; eapply (not_prefix_longer cachePath); [|by etrans];
         done). }
    assert (Hbelow : ∀ x, fsb !! (td ++ x) = None).
    { intros x. unfold fsb. rewrite lookup_prune, decide_True; [done|].
      by apply prefix_app_r. }
    assert (Hdtd : ∀ x, dirname (td ++ [x]) = td).
    { intros x. unfold dirname. by rewrite removelast_last. }
    cbn [put_outputs]. rewrite (plain_ends_sep _ Hplain).
    unfold mbind, M_bind, bind, removeAsync, mkdirAsync, writeFileAsync,
      update, logged, mret, M_ret, ret. simpl.
    rewrite remove_plain. simpl. rewrite remove_plain. simpl. fold fsb.
    rewrite (mkdir_fresh _ td).
    2:{ specialize (Hbelow []). by rewrite app_nil_r in Hbelow. }
    2:{ unfold td, dirname. rewrite removelast_last. by apply Habove. }
    simpl. rewrite writeFile_fresh.
    2:{ rewrite lookup_insert_ne by path_neq. apply Hbelow. }
    2:{ by rewrite Hdtd, lookup_insert_eq. }
    simpl. rewrite mkdir_fresh.
    2:{ rewrite !lookup_insert_ne by path_neq. apply Hbelow. }
    2:{ rewrite Hdtd, lookup_insert_ne by path_neq.
        by rewrite lookup_insert_eq. }
    simpl.
    set (fse := <[td ++ ["outputs"] := Dir]> _).
    assert (Hfse : ∀ q, fse !! q =
              if decide (q = td ++ ["outputs"]) then Some Dir
              else if decide (q = td ++ ["terminalOutput"])
                   then Some (File (default "no terminal output" text))
                   else if decide (q = td) then Some Dir else fsb !! q).
    { intros q. unfold fse. repeat case_decide; subst;
        rewrite ?lookup_insert_eq; try done.
      - rewrite lookup_insert_ne by path_neq. by rewrite lookup_insert_eq.
      - rewrite !lookup_insert_ne by (try path_neq; congruence).
        by rewrite lookup_insert_eq.
      - by rewrite !lookup_insert_ne by congruence. }
    assert (Hshort : ∀ q, q `prefix_of` cachePath → fse !! q = Some Dir).
    { intros q Hq. rewrite Hfse.
      assert (Hlen : (length q <= length cachePath)%nat)
        by (by apply prefix_length).
      rewrite !decide_False; [by apply Habove|..];
        intros ->; unfold td in Hlen; rewrite ?length_app in Hlen;
        simpl in Hlen; lia. }
    unfold put_output.
    rewrite (join_confined root f rf Hrf).
    rewrite (join_confined _ f rf Hrf), join_name.
    set (cached := (td ++ ["outputs"]) ++ rf).
    unfold mbind, M_bind, bind, existsAsync, lstatAsync_isFile,
      ensureDirAsync, copyAsync, query, update, logged, exists_,
      lstat_isFile.
    repeat (simpl; rewrite ?(Hshort _ Hsrc)).
    assert (Hen : unblocked fse cached).
    { intros q x Hq. rewrite Hfse.
      unfold cached in Hq. rewrite <- (assoc_L (++) td) in Hq.
      destruct (decide (q = td ++ ["outputs"])); [done|].
      destruct (decide (q = td ++ ["terminalOutput"])) as [->|].
      { by apply sibling_prefix in Hq. }
      destruct (decide (q = td)); [done|].
      destruct (prefix_of_branch _ _ _ Hq) as [[y ->]|Hq'].
      - by rewrite Hbelow.
      - unfold td in Hq'. apply prefix_of_snoc in Hq' as [Hq'|Hq']; [|done].
        by rewrite (Habove _ Hq'). }
    apply ensureDir_Ok in Hen as [fsa Hen]. rewrite Hen. simpl.
    unfold copy.
    rewrite (ensureDir_keeps _ _ _ Hen _ _ (Hshort _ Hsrc)).
    rewrite (ensureDir_directory_at _ _ _ Hen cached) by done.
    simpl. rewrite !andb_false_r. simpl.
    rewrite bool_decide_eq_false_2.
    2:{ intros Heq. apply (f_equal length) in Heq.
        apply prefix_length in Hsrc. unfold cached, td in Heq.
        rewrite !length_app in Heq. simpl in Heq.
        rewrite length_app in Hsrc. lia. }
    unfold clashes. simpl. rewrite app_nil_r.
    rewrite (ensureDir_directory_at _ _ _ Hen cached) by done. simpl.
    rewrite bool_decide_eq_true_2.
    2:{ etrans; [exact Hsrc|]. unfold cached, td.
        rewrite <- !(assoc_L (++)). by apply prefix_app_r. }
    eexists. split; [reflexivity|]. simpl.
    rewrite (ensureDir_frame _ _ _ _ Hen).
    2:{ unfold cached, marker, td. rewrite <- !(assoc_L (++)).
        by intros ?%sibling_prefix. }
    rewrite Hfse, !decide_False; [|unfold marker, td; path_neq..].
    unfold fsb. rewrite lookup_prune, decide_False
      by (unfold marker, td; by intros ?%sibling_prefix).
    by rewrite lookup_prune, decide_True. }
  destruct Hlocal as (w1 & Hlocal & Hm). by rewrite Hlocal.
Qed.
End NoLeftovers.

(** ** Concrete runs *)

Lemma get_without_marker_is_miss_witness :
  files partial_world !! ["c"; "abc"; "terminalOutput"] = Some (File "half") ∧
  (getFromLocalDir demo_cache demo_task partial_world).1 = Ok None.
Proof.
  split; [reflexivity|].
  rewrite (get_without_marker_is_miss demo_cache demo_task partial_world);
    reflexivity.
Defined.

Lemma get_unreadable_terminal_output_raises_witness :
  (getFromLocalDir demo_cache demo_task headless_world).1 = Err ENOENT ∧
  (get demo_cache None demo_task headless_world).1 = Err ENOENT.
Proof.
  apply (get_unreadable_terminal_output_raises demo_cache None demo_task
           headless_world ENOENT).
  - by eexists.
  - reflexivity.
Defined.

Lemma get_code_of_committed_entry_witness :
  ∃ r w', getFromLocalDir demo_cache demo_task garbled_world
            = (Ok (Some r), w') ∧
          code r = NaN.
Proof.
  destruct (get_code_of_committed_entry demo_cache demo_task garbled_world
              "hello") as (r & w' & Hget & Hcode & _).
  - by eexists.
  - reflexivity.
  - exists r, w'. split; [exact Hget|]. rewrite Hcode. reflexivity.
Defined.

(** The claim C5 as it was stated fails: a committed entry whose [code]
    file holds ["abc"], which is not the text of a decimal integer, is read
    with code [NaN], where the claim says 0. *)
Lemma unparseable_code_is_not_zero :
  is_Some (files garbled_world !! commitMarker demo_cache "abc") ∧
  readFile (files garbled_world) (join (entryDir demo_cache "abc") "code")
    = Ok "abc" ∧
  decimal_integer_text "abc" = false ∧
  ∃ r w', getFromLocalDir demo_cache demo_task garbled_world
            = (Ok (Some r), w') ∧
          code r = NaN ∧
          spec_code (files garbled_world) (entryDir demo_cache "abc") = Num 0 ∧
          code r ≠ spec_code (files garbled_world) (entryDir demo_cache "abc").
Proof.
  split; [by eexists|]. split; [reflexivity|]. split; [reflexivity|].
  eexists _, _. split; [reflexivity|]. split; [reflexivity|].
  split; [reflexivity|]. discriminate.
Qed.

Lemma put_then_get_round_trip_witness :
  ∃ r w'',
    get demo_cache None demo_task
      (put demo_root demo_cache None demo_task (Some "hello")
         ["dist/a.txt"] (Num 0) demo_world).2 = (Ok (Some r), w'') ∧
    terminalOutput r = "hello" ∧
    code r = Num 0 ∧
    files w'' !! (join (outputsPath r) "dist/a.txt") = Some (File "A").
Proof.
  destruct (put_then_get_round_trip demo_root demo_cache None demo_task
              "hello" ["dist/a.txt"] 0 demo_world
              (put demo_root demo_cache None demo_task (Some "hello")
                 ["dist/a.txt"] (Num 0) demo_world).2)
    as (r & w'' & Hget & _ & Ht & Hc & _ & Hout).
  - by repeat split.
  - simpl. lia.
  - apply well_formedb_correct. vm_compute; reflexivity.
  - constructor; [|constructor].
    split; [by eexists|]. split; [|apply strip_None; reflexivity].
    split; apply strip_None; reflexivity.
  - by intros rc.
  - vm_compute; reflexivity.
  - exists r, w''. split; [exact Hget|]. split; [exact Ht|].
    split; [exact Hc|].
    rewrite <- (app_nil_r (join (outputsPath r) "dist/a.txt")).
    rewrite (Hout "dist/a.txt"); [reflexivity| |reflexivity].
    constructor.
Defined.

(** The claim C3 as it was stated fails: with the declared output
    [../terminalOutput], which names a file next to the workspace, [put]
    succeeds and copies that file over the [terminalOutput] of the entry,
    so that [get] returns its text and not the text that was put. *)
Lemma climbing_output_replaces_terminal_output :
  (put demo_root demo_cache None demo_task (Some "hello")
     ["../terminalOutput"] (Num 0) climbing_world).1 = Ok tt ∧
  ∃ r w'',
    get demo_cache None demo_task
      (put demo_root demo_cache None demo_task (Some "hello")
         ["../terminalOutput"] (Num 0) climbing_world).2
      = (Ok (Some r), w'') ∧
    terminalOutput r = "other" ∧
    terminalOutput r ≠ "hello".
Proof.
  split; [vm_compute; reflexivity|].
  eexists _, _. split; [vm_compute; reflexivity|].
  split; [reflexivity|]. discriminate.
Qed.

Lemma get_consults_remote_once_witness :
  ∃ evs,
    trace (get demo_cache (Some unreachable_remote) demo_task demo_world).2
      = trace demo_world ++ evs ∧
    List.filter is_remote_call evs = [EvRetrieve "abc" ["c"]] ∧
    List.filter is_existence_check evs
      = [EvExists ["c"; "abc.commit"]; EvExists ["c"; "abc.commit"]].
Proof.
  pose proof (get_consults_remote_once demo_cache (Some unreachable_remote)
                demo_task demo_world) as H.
  vm_compute in H. destruct H as (evs & Ht & Hr & _ & He).
  exists evs. split; [exact Ht|]. split; [exact Hr|exact He].
Defined.

(** The claim C7 as it was stated fails: when the remote [retrieve]
    throws, [get] throws its error; the local store is not asked again
    (one check of the marker in the trace), and the answer it would have
    given, absent, is not what [get] returns. *)
Lemma failing_retrieve_is_not_retried :
  (getFromLocalDir demo_cache demo_task demo_world).1 = Ok None ∧
  (get demo_cache (Some offline_remote) demo_task demo_world).1
    = Err (EREMOTE "offline") ∧
  trace (get demo_cache (Some offline_remote) demo_task demo_world).2
    = [EvExists ["c"; "abc.commit"]; EvRetrieve "abc" ["c"]] ∧
  (getFromLocalDir demo_cache demo_task
     (get demo_cache (Some offline_remote) demo_task demo_world).2).1
    = Ok None.
Proof. repeat split; vm_compute; reflexivity. Qed.


(** The claim C4 as it was stated fails: with the cached copy of [dist] a
    directory, its workspace copy gone and the record of [dist] at the
    task's hash, the code answers true, while neither (a) nor (b) of the
    claim holds. *)
Lemma cached_directory_without_workspace_copy :
  (shouldCopyOutputsFromCache demo_root demo_cache demo_cached ["dist"]
     restored_world).1 = Ok true ∧
  spec_shouldCopyOutputsFromCache demo_root demo_cache
    (files restored_world) demo_cached ["dist"] = false.
Proof. split; reflexivity. Qed.

(** Outside the amended claim: an output that is a file in the cache and
    is there in the workspace too reaches [readdir] on a file, and the
    call throws instead of answering false. *)
Example file_in_cache_and_workspace_throws :
  (shouldCopyOutputsFromCache demo_root demo_cache demo_cached
     ["dist/a.txt"] in_both_world).1 = Err ENOTDIR.
Proof. reflexivity. Qed.

Lemma shouldCopyOutputsFromCache_spec_witness :
  ∃ w', shouldCopyOutputsFromCache demo_root demo_cache demo_cached ["dist"]
          restored_world = (Ok true, w').
Proof.
  destruct (shouldCopyOutputsFromCache_spec demo_root demo_cache demo_cached
              ["dist"] restored_world) as [Hiff Hret].
  destruct Hret as (b & w' & Hrun); [right; reflexivity|].
  destruct (Hiff b w' Hrun) as [Hb _].
  exists w'. rewrite Hrun, Hb. reflexivity.
Defined.

Lemma put_keeps_entry_when_store_fails_witness :
  (put demo_root demo_cache (Some unreachable_remote) demo_task
     (Some "hello") ["dist/a.txt"] (Num 0) demo_world).1
    = Err (EREMOTE "unreachable") ∧
  ∃ r w'',
    getFromLocalDir demo_cache demo_task
      (put demo_root demo_cache (Some unreachable_remote) demo_task
         (Some "hello") ["dist/a.txt"] (Num 0) demo_world).2
      = (Ok (Some r), w'') ∧
    terminalOutput r = "hello" ∧
    code r = Num 0 ∧
    files w'' !! (join (outputsPath r) "dist/a.txt") = Some (File "A").
Proof.
  destruct (put_keeps_entry_when_store_fails demo_root demo_cache
              unreachable_remote demo_task "hello" ["dist/a.txt"] 0
              demo_world
              (put demo_root demo_cache None demo_task (Some "hello")
                 ["dist/a.txt"] (Num 0) demo_world).2
              (EREMOTE "unreachable")
              (files (put demo_root demo_cache None demo_task
                        (Some "hello") ["dist/a.txt"] (Num 0)
                        demo_world).2)
              tt)
    as [Hput Hget].
  - vm_compute; reflexivity.
  - reflexivity.
  - pose proof (f_equal snd Hput
                 : (put demo_root demo_cache (Some unreachable_remote)
                      demo_task (Some "hello") ["dist/a.txt"] (Num 0)
                      demo_world).2 = _) as Hw.
    split; [exact (f_equal fst Hput)|].
    destruct Hget as (r & w'' & Hget & _ & Ht & Hc & _ & Hout).
    + by repeat split.
    + simpl. lia.
    + apply well_formedb_correct. vm_compute; reflexivity.
    + constructor; [|constructor].
      split; [by eexists|]. split; [|apply strip_None; reflexivity].
      split; apply strip_None; reflexivity.
    + by intros h p fs st.
    + exists r, w''. rewrite Hw. split; [exact Hget|].
      split; [exact Ht|]. split; [exact Hc|].
      rewrite <- (app_nil_r (join (outputsPath r) "dist/a.txt")).
      rewrite (Hout "dist/a.txt"); [reflexivity| |reflexivity].
      constructor.
Defined.

(** The claim C10 as it was stated fails, in two ways.  With the declared
    output [../terminalOutput] the local commit goes through and [store]
    fails, and the local [get] then returns the text of the file next to
    the workspace, not the text that was put.  And with a remote cache
    whose [store] moves the commit marker away before it fails, the local
    [get] after the failed [put] answers absent. *)
Lemma failed_store_after_unsafe_commit :
  (put demo_root demo_cache None demo_task (Some "hello")
     ["../terminalOutput"] (Num 0) climbing_world).1 = Ok tt ∧
  (put demo_root demo_cache (Some unreachable_remote) demo_task
     (Some "hello") ["../terminalOutput"] (Num 0) climbing_world).1
    = Err (EREMOTE "unreachable") ∧
  (∃ r w'',
     getFromLocalDir demo_cache demo_task
       (put demo_root demo_cache (Some unreachable_remote) demo_task
          (Some "hello") ["../terminalOutput"] (Num 0) climbing_world).2
       = (Ok (Some r), w'') ∧
     terminalOutput r = "other" ∧
     terminalOutput r ≠ "hello") ∧
  (put demo_root demo_cache None demo_task (Some "hello")
     ["dist/a.txt"] (Num 0) demo_world).1 = Ok tt ∧
  (put demo_root demo_cache (Some clumsy_remote) demo_task (Some "hello")
     ["dist/a.txt"] (Num 0) demo_world).1 = Err (EREMOTE "lost") ∧
  (getFromLocalDir demo_cache demo_task
     (put demo_root demo_cache (Some clumsy_remote) demo_task
        (Some "hello") ["dist/a.txt"] (Num 0) demo_world).2).1 = Ok None.
Proof.
  split; [vm_compute; reflexivity|]. split; [vm_compute; reflexivity|].
  split.
  { eexists _, _. split; [vm_compute; reflexivity|].
    split; [reflexivity|]. discriminate. }
  repeat split; vm_compute; reflexivity.
Qed.



Lemma hash_record_names_collide_witness :
  (getLatestRecordedHashForTask demo_cache "a/b"
     (recordOutputsHash demo_cache ["a/b"] "h1" demo_world).2).1
    = Ok (Some "h1") ∧
  (getLatestRecordedHashForTask demo_cache "a/b"
     (recordOutputsHash demo_cache ["a-b"] "h2"
        (recordOutputsHash demo_cache ["a/b"] "h1" demo_world).2).2).1
    = Ok (Some "h2").
Proof.
  split; [reflexivity|].
  destruct (hash_record_names_collide demo_cache
              (recordOutputsHash demo_cache ["a/b"] "h1" demo_world).2 "h2")
    as (_ & _ & Hover & _).
  apply Hover.
  - intros q [k Hk]. destruct q as [|a [|b [|x q]]]; simpl in Hk.
    + reflexivity.
    + injection Hk as <- _. reflexivity.
    + injection Hk as <- <- _. reflexivity.
    + discriminate.
  - vm_compute. discriminate.
Defined.

(** ** Concrete runs of the further properties *)

(** The directories above and at a short concrete path. *)
Ltac directory_at_tac :=
  let q := fresh "q" in
  let k := fresh "k" in
  let Hk := fresh "Hk" in
  intros q [k Hk];
  repeat (destruct q as [|? q];
          [vm_compute; reflexivity|
           simpl in Hk; try discriminate;
           injection Hk as <- Hk]);
  try discriminate.

Lemma new_Cache_creates_directories_witness :
  files (new_Cache ["w"] ["w"; "cache"] fresh_world).2
    !! ["w"; "cache"; "latestOutputsHashes"] = Some Dir ∧
  files (new_Cache ["w"] ["w"; "cache"] fresh_world).2
    !! ["w"; "cache"; "terminalOutputs"] = Some Dir.
Proof.
  destruct (new_Cache_creates_directories ["w"] ["w"; "cache"] fresh_world
              {| Fields.root := ["w"];
                 Fields.cachePath := ["w"; "cache"];
                 Fields.terminalOutputsDir := ["w"; "cache"; "terminalOutputs"];
                 Fields.latestOutputsHashesDir :=
                   ["w"; "cache"; "latestOutputsHashes"] |}
              (new_Cache ["w"] ["w"; "cache"] fresh_world).2)
    as (_ & _ & _ & _ & _ & Ht & Hl & _).
  - vm_compute; reflexivity.
  - split.
    + apply Hl. reflexivity.
    + apply Ht. reflexivity.
Defined.

Lemma new_Cache_idempotent_witness :
  ∃ c w'',
    new_Cache ["w"] ["w"; "cache"]
      (new_Cache ["w"] ["w"; "cache"] fresh_world).2 = (Ok c, w'') ∧
    files w'' = files (new_Cache ["w"] ["w"; "cache"] fresh_world).2.
Proof.
  destruct (new_Cache_idempotent ["w"] ["w"; "cache"] fresh_world
              {| Fields.root := ["w"];
                 Fields.cachePath := ["w"; "cache"];
                 Fields.terminalOutputsDir := ["w"; "cache"; "terminalOutputs"];
                 Fields.latestOutputsHashesDir :=
                   ["w"; "cache"; "latestOutputsHashes"] |}
              (new_Cache ["w"] ["w"; "cache"] fresh_world).2)
    as (w'' & Hrun & Hfiles & _).
  - vm_compute; reflexivity.
  - eexists _, w''. split; [exact Hrun|exact Hfiles].
Defined.

Lemma removed_records_force_copy_witness :
  ∃ w2,
    shouldCopyOutputsFromCache demo_root demo_cache demo_cached ["dist/a.txt"]
      (removeRecordedOutputsHashes demo_cache ["dist/a.txt"] in_both_world).2
    = (Ok true, w2).
Proof.
  destruct (removed_records_force_copy demo_root demo_cache demo_cached
              ["dist/a.txt"] in_both_world) as (w2 & Hrun & _).
  - discriminate.
  - exists w2. exact Hrun.
Defined.

Lemma recorded_hashes_are_read_back_witness :
  (areLatestOutputsHashesDifferentThanTaskHash demo_cache ["dist"; "a/b"]
     "abc" (recordOutputsHash demo_cache ["dist"; "a/b"] "abc"
              demo_world).2).1 = Ok false ∧
  (areLatestOutputsHashesDifferentThanTaskHash demo_cache ["dist"; "a/b"]
     "xyz" (recordOutputsHash demo_cache ["dist"; "a/b"] "abc"
              demo_world).2).1 = Ok true.
Proof.
  destruct (recorded_hashes_are_read_back demo_cache ["dist"; "a/b"] "abc"
              demo_world) as (_ & _ & Hsame & Hother).
  - directory_at_tac.
  - intros o Ho. vm_compute in Ho.
    apply elem_of_cons in Ho as [->|Ho]; [vm_compute; discriminate|].
    apply elem_of_cons in Ho as [->|Ho]; [vm_compute; discriminate|].
    by apply elem_of_nil in Ho.
  - split; [exact Hsame|]. apply Hother; discriminate.
Defined.

Lemma put_touches_only_its_entry_witness :
  files (put demo_root demo_cache None demo_task (Some "hello")
           ["dist/a.txt"] (Num 0) demo_world).2 !! ["w"; "dist"; "a.txt"]
  = Some (File "A").
Proof.
  rewrite (put_touches_only_its_entry demo_root demo_cache None demo_task
             (Some "hello") ["dist/a.txt"] (Num 0) demo_world
             ["w"; "dist"; "a.txt"]).
  - reflexivity.
  - repeat constructor. by eexists.
  - by intros rc.
  - split; apply strip_None; reflexivity.
  - apply strip_None. reflexivity.
Defined.


Lemma put_thrown_before_store_is_not_committed_witness :
  is_Some (files nested_world !! commitMarker nested_cache "abc") ∧
  (put ["w"] nested_cache None demo_task (Some "new") ["."] (Num 0)
     nested_world).1 = Err ECOPY ∧
  (getFromLocalDir nested_cache demo_task
     (put ["w"] nested_cache None demo_task (Some "new") ["."] (Num 0)
        nested_world).2).1 = Ok None.
Proof.
  split; [by eexists|]. split; [vm_compute; reflexivity|].
  destruct (put_thrown_before_store_is_not_committed ["w"] nested_cache None
              demo_task (Some "new") ["."] (Num 0) nested_world ECOPY
              (put ["w"] nested_cache None demo_task (Some "new") ["."] (Num 0)
                 nested_world).2
              (trace (put ["w"] nested_cache None demo_task (Some "new")
                        ["."] (Num 0) nested_world).2))
    as [_ Hget].
  - by repeat split.
  - repeat constructor. by eexists.
  - vm_compute; reflexivity.
  - vm_compute; reflexivity.
  - vm_compute. intros H.
    repeat (apply elem_of_cons in H as [H|H]; [discriminate|]).
    by apply elem_of_nil in H.
  - exact Hget.
Defined.




Ltac only_output H :=
  apply elem_of_cons in H as [->|H]; [|by apply elem_of_nil in H].

Lemma copyFilesFromCache_restores_witness :
  files restored_world !! ["w"; "dist"; "a.txt"] = None ∧
  files (copyFilesFromCache demo_root demo_cache "abc"
           (cachedResult demo_cached) ["dist"] restored_world).2
    !! ["w"; "dist"; "a.txt"] = Some (File "A").
Proof.
  split; [reflexivity|].
  destruct (copyFilesFromCache_restores demo_root demo_cache "abc"
              (cachedResult demo_cached) ["dist"] restored_world
              (copyFilesFromCache demo_root demo_cache "abc"
                 (cachedResult demo_cached) ["dist"] restored_world).2)
    with (f := "dist") as (_ & Hcopy & _).
  - intros f g Hf Hg. only_output Hf. only_output Hg.
    split; apply strip_None; reflexivity.
  - intros f Hf. only_output Hf.
    split; split; apply strip_None; reflexivity.
  - split; [constructor|exact I].
  - vm_compute; reflexivity.
  - left.
  - change ["w"; "dist"; "a.txt"] with (join demo_root "dist" ++ ["a.txt"]).
    rewrite (Hcopy eq_refl ["a.txt"]). reflexivity.
Defined.

Lemma restored_outputs_need_no_copy_witness :
  (shouldCopyOutputsFromCache demo_root demo_cache demo_cached ["dist"]
     restored_world).1 = Ok true ∧
  (shouldCopyOutputsFromCache demo_root demo_cache demo_cached ["dist"]
     (copyFilesFromCache demo_root demo_cache "abc"
        (cachedResult demo_cached) ["dist"] restored_world).2).1
  = Ok false.
Proof.
  split; [reflexivity|].
  rewrite (restored_outputs_need_no_copy demo_root demo_cache demo_cached
             ["dist"] restored_world).
  - reflexivity.
  - intros f g Hf Hg. only_output Hf. only_output Hg.
    split; apply strip_None; reflexivity.
  - intros f Hf. only_output Hf.
    split; split; apply strip_None; reflexivity.
  - split; [constructor|exact I].
  - directory_at_tac.
  - intros o Ho. only_output Ho. vm_compute. discriminate.
  - vm_compute; reflexivity.
Defined.

Lemma copyFilesFromCache_thrown_forces_copy_witness :
  (copyFilesFromCache demo_root demo_cache "abc" (cachedResult demo_cached)
     ["blocked/x"] blocked_world).1 = Err EEXIST ∧
  ∃ w2,
    shouldCopyOutputsFromCache demo_root demo_cache demo_cached ["blocked/x"]
      (copyFilesFromCache demo_root demo_cache "abc"
         (cachedResult demo_cached) ["blocked/x"] blocked_world).2
    = (Ok true, w2).
Proof.
  split; [vm_compute; reflexivity|].
  destruct (copyFilesFromCache_thrown_forces_copy demo_root demo_cache "abc"
              (cachedResult demo_cached) ["blocked/x"] blocked_world EEXIST
              (copyFilesFromCache demo_root demo_cache "abc"
                 (cachedResult demo_cached) ["blocked/x"] blocked_world).2
              demo_cached) as (_ & w2 & Hrun & _).
  - intros g Hg. only_output Hg. split; apply strip_None; reflexivity.
  - vm_compute; reflexivity.
  - exists w2. exact Hrun.
Defined.

Lemma put_then_copyFilesFromCache_round_trip_witness :
  files cleaned_world !! ["w"; "dist"; "a.txt"] = None ∧
  files (copyFilesFromCache demo_root demo_cache "abc"
           (cachedResult demo_cached) ["dist"] cleaned_world).2
    !! ["w"; "dist"; "a.txt"] = Some (File "A").
Proof.
  split; [vm_compute; reflexivity|].
  change ["w"; "dist"; "a.txt"] with (join demo_root "dist" ++ ["a.txt"]).
  etrans;
    [apply (put_then_copyFilesFromCache_round_trip demo_root demo_cache
              None demo_task (Some "hello") ["dist"] (Num 0)
              (cachedResult demo_cached) demo_world stored_world
              cleaned_world)|reflexivity].
  - by repeat split.
  - discriminate.
  - apply well_formedb_correct. vm_compute; reflexivity.
  - repeat constructor. by eexists.
  - by intros rc.
  - intros f Hf. only_output Hf. split; apply strip_None; reflexivity.
  - split; [constructor|exact I].
  - vm_compute; reflexivity.
  - intros k [x ->]. unfold cleaned_world. cbn [files].
    rewrite lookup_prune, decide_False; [reflexivity|].
    intros [y Hy]. vm_compute in Hy. discriminate.
  - reflexivity.
  - vm_compute; reflexivity.
  - left.
  - reflexivity.
Defined.

Lemma put_leaves_no_leftovers_witness :
  files stale_world !! ["c"; "abc"; "outputs"; "old.txt"]
    = Some (File "old") ∧
  files (put demo_root demo_cache None demo_task (Some "hello")
           ["dist/a.txt"] (Num 0) stale_world).2
    !! ["c"; "abc"; "outputs"; "old.txt"] = None.
Proof.
  split; [reflexivity|].
  assert (Hfrom : ∀ n,
            files (put demo_root demo_cache None demo_task (Some "hello")
                     ["dist/a.txt"] (Num 0) stale_world).2
              !! (entryDir demo_cache (hash demo_task)
                  ++ ["outputs"; "old.txt"]) = Some n →
            put_origin demo_root (files stale_world) ["dist/a.txt"]
              (Some "hello") (Num 0) ["outputs"; "old.txt"] n).
  { intros n.
    apply (put_leaves_no_leftovers demo_root demo_cache None demo_task
             (Some "hello") ["dist/a.txt"] (Num 0) stale_world).
    - by repeat split.
    - repeat constructor. by eexists.
    - by intros rc.
    - intros f Hf. only_output Hf. split; apply strip_None; reflexivity.
    - vm_compute; reflexivity. }
  change (entryDir demo_cache (hash demo_task) ++ ["outputs"; "old.txt"])
    with ["c"; "abc"; "outputs"; "old.txt"] in Hfrom.
  destruct (files (put demo_root demo_cache None demo_task (Some "hello")
                     ["dist/a.txt"] (Num 0) stale_world).2
              !! ["c"; "abc"; "outputs"; "old.txt"]) as [n|];
    [exfalso|reflexivity].
  destruct (Hfrom n eq_refl)
    as [[Hq _]|[[Hq _]|[[Hq _]|[[Hq _]|
         [(f & rf & rel & Hf & Hr & Hq & _)|
          (f & rf & p & Hf & Hr & _ & Hp & Hq & _)]]]]].
  - discriminate Hq.
  - discriminate Hq.
  - discriminate Hq.
  - discriminate Hq.
  - only_output Hf. vm_compute in Hr. injection Hr as <-. discriminate Hq.
  - only_output Hf. vm_compute in Hr. injection Hr as <-.
    injection Hq as <-. destruct Hp as [k Hk]. discriminate Hk.
Defined.

Lemma put_rejects_output_containing_cache_witness :
  (put ["w"] nested_cache None demo_task (Some "new") ["."] (Num 0)
     nested_world).1 = Err ECOPY.
Proof.
  destruct (put_rejects_output_containing_cache ["w"] nested_cache None
              demo_task (Some "new") "." [] [] (Num 0) nested_world)
    as [Hthrown _].
  - by repeat split.
  - reflexivity.
  - directory_at_tac.
  - by exists ["cache"].
  - exact Hthrown.
Defined.
